(** * L1 Email Release Agent: configuration, constants, list store, log
      censoring, and the decision and scoring engine.

    The development embeds the Python sources
    ([config.py], [constants.py], [models.py], [logging.py]) and, for the
    decision and scoring engine that the repository only specifies, a model
    written from the specification.

    Conventions.
    - A Python [float] is an IEEE-754 binary64 value: [spec_float] of the
      Standard Library with precision 53 and maximal exponent 1024.  All
      arithmetic and comparisons on configuration values go through the
      executable operations [SFadd], [SFdiv], [SFleb], ...
    - A Python [str] is a [string]; a character is a code point below 256.
    - A Python exception is the [Raise] branch of [result]. *)

From Stdlib Require Import ZArith QArith Qpower Qabs Lia Lqa Bool List Ascii String.
From Stdlib Require Import Floats.SpecFloat.
From Stdlib Require Import Numbers.DecimalString.
From Stdlib Require Import Sorting.Sorted Sorting.Permutation.
From stdpp Require Import base gmap strings list fin_maps.
Import ListNotations.

Local Open Scope Z_scope.

(** ** Results of fallible code *)

Inductive result (E A : Type) : Type :=
| Ok (a : A)
| Raise (e : E).
Arguments Ok {E A} a.
Arguments Raise {E A} e.

Definition is_ok {E A} (r : result E A) : bool :=
  match r with Ok _ => true | Raise _ => false end.

Definition bind {E A B} (r : result E A) (k : A -> result E B) : result E B :=
  match r with Ok a => k a | Raise e => Raise e end.

(** ** Python floats *)

Module PyFloat.

Definition prec : Z := 53.
Definition emax : Z := 1024.

Abbreviation float := spec_float (only parsing).

(** Every value a Python float can hold is a valid binary64 datum. *)
Definition is_float (x : float) : bool := valid_binary prec emax x.

Definition leb (x y : float) : bool := SFleb x y.
Definition add (x y : float) : float := SFadd prec emax x y.
Definition sub (x y : float) : float := SFsub prec emax x y.
Definition div (x y : float) : float := SFdiv prec emax x y.
Definition abs (x : float) : float := SFabs x.

(** [float(z)] for an integer [z]. *)
Definition of_Z (z : Z) : float := binary_normalize prec emax z 0 false.

(** The float denoted by the decimal literal [n / 10^k] (such as [0.85],
    which is [decimal 85 2]): the correctly rounded quotient of two
    exactly representable integers. *)
Definition decimal (n : Z) (k : nat) : float :=
  div (of_Z n) (of_Z (10 ^ Z.of_nat k)).

Definition zero : float := of_Z 0.
Definition one : float := of_Z 1.

(** The rational number a float stands for; [None] for NaN and the
    infinities. *)
Definition value (x : float) : option Q :=
  match x with
  | S754_zero _ => Some 0%Q
  | S754_finite s m e =>
      Some ((if s then (Zneg m # 1) else (Zpos m # 1)) * (2 # 1) ^ e)%Q
  | S754_infinity _ | S754_nan => None
  end.

(** [x] is a number of the closed interval from 0 to 1. *)
Definition in_unit_interval (x : float) : Prop :=
  exists q, value x = Some q /\ (0 <= q)%Q /\ (q <= 1)%Q.

End PyFloat.

(** ** Python strings *)

Module PyStr.

(** [c.lower()] on a code point below 256: the letters A-Z and the
    upper-case letters of the range 192-222 (all but the sign 215) move
    up by 32. *)
Definition lower_char (c : ascii) : ascii :=
  let n := N_of_ascii c in
  if ((65 <=? n) && (n <=? 90) || (192 <=? n) && (n <=? 222) && negb (n =? 215))%N
  then ascii_of_N (n + 32)
  else c.

(** [s.lower()]. *)
Fixpoint lower (s : string) : string :=
  match s with
  | EmptyString => EmptyString
  | String c r => String (lower_char c) (lower r)
  end.

(** [c.isspace()] on a code point below 256. *)
Definition isspace (c : ascii) : bool :=
  let n := N_of_ascii c in
  ((9 <=? n) && (n <=? 13) || (28 <=? n) && (n <=? 32) || (n =? 133) || (n =? 160))%N.

(** [s.lstrip()]. *)
Fixpoint lstrip (s : string) : string :=
  match s with
  | EmptyString => EmptyString
  | String c r => if isspace c then lstrip r else s
  end.

(** [s.rstrip()]. *)
Fixpoint rstrip (s : string) : string :=
  match s with
  | EmptyString => EmptyString
  | String c r =>
      match rstrip r with
      | EmptyString => if isspace c then EmptyString else String c EmptyString
      | r' => String c r'
      end
  end.

(** [s.strip()]. *)
Definition strip (s : string) : string := rstrip (lstrip s).

(** [s.split(sep)] for a separator of one character. *)
Fixpoint split (sep : ascii) (s : string) : list string :=
  match s with
  | EmptyString => [EmptyString]
  | String c r =>
      if Ascii.eqb c sep then EmptyString :: split sep r
      else match split sep r with
           | [] => [String c EmptyString]
           | h :: t => String c h :: t
           end
  end.

(** [sep.join(l)] for a separator of one character. *)
Fixpoint join (sep : ascii) (l : list string) : string :=
  match l with
  | [] => EmptyString
  | [x] => x
  | x :: rest => String.append x (String sep (join sep rest))
  end.

(** [s.startswith(p)]. *)
Fixpoint startswith (p s : string) : bool :=
  match p, s with
  | EmptyString, _ => true
  | String _ _, EmptyString => false
  | String a p', String b s' => Ascii.eqb a b && startswith p' s'
  end.

(** [p in s]. *)
Fixpoint contains (p s : string) : bool :=
  startswith p s ||
  match s with
  | EmptyString => false
  | String _ s' => contains p s'
  end.

(** Every character of [s] is white space. *)
Fixpoint all_space (s : string) : bool :=
  match s with
  | EmptyString => true
  | String c r => isspace c && all_space r
  end.

(** The character [c] occurs in [s]. *)
Fixpoint has_char (c : ascii) (s : string) : bool :=
  match s with
  | EmptyString => false
  | String a r => Ascii.eqb a c || has_char c r
  end.

Definition first_char (s : string) : option ascii :=
  match s with EmptyString => None | String c _ => Some c end.

Fixpoint last_char (s : string) : option ascii :=
  match s with
  | EmptyString => None
  | String c EmptyString => Some c
  | String _ r => last_char r
  end.

End PyStr.

(** ** [constants.py] *)

Module Constants.

Import PyFloat.

Inductive DecisionType : Type := AUTO_RELEASE | APPROVAL_REQUIRED | ESCALATE.

Inductive RiskLevel : Type := LOW | MEDIUM | HIGH.

Inductive ValidationComponent : Type := DOMAIN | CONTENT | SENDER | RULES.

(** The string value of a member of the enumeration. *)
Definition component_value (c : ValidationComponent) : string :=
  match c with
  | DOMAIN => "domain_validation"
  | CONTENT => "content_analysis"
  | SENDER => "sender_check"
  | RULES => "rules_evaluation"
  end.

Definition all_components : list ValidationComponent := [DOMAIN; CONTENT; SENDER; RULES].

Inductive WhitelistType : Type := WL_DOMAIN | WL_EMAIL | WL_IP.

Definition whitelist_type_value (t : WhitelistType) : string :=
  match t with
  | WL_DOMAIN => "domain"
  | WL_EMAIL => "email"
  | WL_IP => "ip"
  end.

(** The dictionary literal, in the order it is written. *)
Definition DEFAULT_SCORING_WEIGHTS : list (string * float) :=
  [ ("domain_validation", decimal 30 2);
    ("content_analysis", decimal 35 2);
    ("sender_check", decimal 25 2);
    ("rules_evaluation", decimal 10 2) ].

(** [sum(weights.values())]: the additions start from the integer 0 and
    run in the order of the dictionary. *)
Definition weights_sum (ws : list (string * float)) : float :=
  fold_left add (map snd ws) (of_Z 0).

(** [abs(total - 1.0) <= 1e-6]. *)
Definition within_tolerance (total : float) : bool :=
  leb (abs (sub total one)) (decimal 1 6).

(** The sum of the weights as rational numbers, without rounding. *)
Definition exact_sum (ws : list (string * float)) : option Q :=
  fold_left (fun acc w => match acc, value w with
                          | Some a, Some q => Some (a + q)%Q
                          | _, _ => None
                          end) (map snd ws) (Some 0%Q).

End Constants.

(** ** [config.py]: confidence thresholds *)

Module Config.

Import PyFloat.

Inductive exn : Type :=
| ValueError (msg : string).

(** [ThresholdsConfig.validate_confidence_range]. *)
Definition validate_confidence_range (v : float) : result exn float :=
  if negb (leb zero v && leb v one)
  then Raise (ValueError "Confidence threshold must be between 0 and 1")
  else Ok v.

(** The message of the [ValueError] above. *)
Definition range_message : string := "Confidence threshold must be between 0 and 1".

(** A variable of the environment (or of the [.env] file) as it reaches
    the field it is the alias of: unset, a text that parses to a value of
    the type of the field, or a text that does not (such as the empty
    text for a float, or [7.5] for an integer). *)
Inductive env_var (A : Type) : Type :=
| Unset
| Parsed (v : A)
| Unparsable.
Arguments Unset {A}.
Arguments Parsed {A} v.
Arguments Unparsable {A}.

(** The value of a field that loads: the parsed value, or the default. *)
Definition configured {A : Type} (default : A) (raw : env_var A) : A :=
  match raw with
  | Parsed v => v
  | Unset | Unparsable => default
  end.

(** The environment of [ThresholdsConfig], by alias. *)
Record ThresholdsEnv : Type := {
  CONFIDENCE_AUTO_RELEASE_MIN : env_var float;
  CONFIDENCE_APPROVAL_MIN : env_var float;
  CONFIDENCE_ESCALATE_MAX : env_var float;
  HOLD_EXTENSION_DEFAULT : env_var Z;
  HOLD_EXTENSION_HIGH_RISK : env_var Z
}.

Record ThresholdsConfig : Type := {
  auto_release_min : float;
  approval_min : float;
  escalate_max : float;
  hold_extension_default : Z;
  hold_extension_high_risk : Z
}.

(** One entry of the validation error raised at load.  Its location is the
    alias of the field.  A [ValueError] of a validator is reported with the
    type [value_error] and its text after the words [Value error, ]; a text
    that does not parse is reported with the type [float_parsing] or
    [int_parsing]. *)
Inductive error_detail : Type :=
| value_error (loc : string) (msg : string)
| float_parsing (loc : string)
| int_parsing (loc : string).

(** The location of an entry. *)
Definition loc_of (e : error_detail) : string :=
  match e with
  | value_error loc _ | float_parsing loc | int_parsing loc => loc
  end.

(** A float field with a default and the range validator: the default is
    used, unvalidated, when the variable is unset; the validator runs on a
    value that parsed. *)
Definition validated_field (alias : string) (default : float) (raw : env_var float)
  : result (list error_detail) float :=
  match raw with
  | Unset => Ok default
  | Unparsable => Raise [float_parsing alias]
  | Parsed v =>
      match validate_confidence_range v with
      | Ok v' => Ok v'
      | Raise (ValueError msg) =>
          Raise [value_error alias (String.append "Value error, " msg)]
      end
  end.

(** An integer field with a default and no validator. *)
Definition plain_field (alias : string) (default : Z) (raw : env_var Z)
  : result (list error_detail) Z :=
  match raw with
  | Unset => Ok default
  | Unparsable => Raise [int_parsing alias]
  | Parsed v => Ok v
  end.

Definition errors_of {A} (r : result (list error_detail) A) : list error_detail :=
  match r with Ok _ => [] | Raise es => es end.

(** [ThresholdsConfig()]: every field is read and validated in the order
    of the class, and all failures are reported together. *)
Definition load_thresholds (env : ThresholdsEnv) : result (list error_detail) ThresholdsConfig :=
  let a := validated_field "CONFIDENCE_AUTO_RELEASE_MIN" (decimal 85 2)
             (CONFIDENCE_AUTO_RELEASE_MIN env) in
  let p := validated_field "CONFIDENCE_APPROVAL_MIN" (decimal 60 2)
             (CONFIDENCE_APPROVAL_MIN env) in
  let e := validated_field "CONFIDENCE_ESCALATE_MAX" (decimal 60 2)
             (CONFIDENCE_ESCALATE_MAX env) in
  let d := plain_field "HOLD_EXTENSION_DEFAULT" 7 (HOLD_EXTENSION_DEFAULT env) in
  let h := plain_field "HOLD_EXTENSION_HIGH_RISK" 30 (HOLD_EXTENSION_HIGH_RISK env) in
  match a, p, e, d, h with
  | Ok a', Ok p', Ok e', Ok d', Ok h' =>
      Ok {| auto_release_min := a';
            approval_min := p';
            escalate_max := e';
            hold_extension_default := d';
            hold_extension_high_risk := h' |}
  | _, _, _, _, _ =>
      Raise (errors_of a ++ errors_of p ++ errors_of e ++ errors_of d ++ errors_of h)
  end.

Definition unset_env : ThresholdsEnv :=
  {| CONFIDENCE_AUTO_RELEASE_MIN := Unset;
     CONFIDENCE_APPROVAL_MIN := Unset;
     CONFIDENCE_ESCALATE_MAX := Unset;
     HOLD_EXTENSION_DEFAULT := Unset;
     HOLD_EXTENSION_HIGH_RISK := Unset |}.

(** The relative order the decision bands need. *)
Definition thresholds_ordered (c : ThresholdsConfig) : bool :=
  leb (escalate_max c) (approval_min c) && leb (approval_min c) (auto_release_min c).

(** Every float that parsed is a float. *)
Definition env_is_float (env : ThresholdsEnv) : Prop :=
  (forall v, CONFIDENCE_AUTO_RELEASE_MIN env = Parsed v -> is_float v = true) /\
  (forall v, CONFIDENCE_APPROVAL_MIN env = Parsed v -> is_float v = true) /\
  (forall v, CONFIDENCE_ESCALATE_MAX env = Parsed v -> is_float v = true).

(** What loading asks of an environment: every variable that is set
    parses, and every threshold that is set lies in the interval from 0
    to 1.  Nothing relates one threshold to another. *)
Definition acceptable (env : ThresholdsEnv) : Prop :=
  (CONFIDENCE_AUTO_RELEASE_MIN env <> Unparsable /\
   CONFIDENCE_APPROVAL_MIN env <> Unparsable /\
   CONFIDENCE_ESCALATE_MAX env <> Unparsable /\
   HOLD_EXTENSION_DEFAULT env <> Unparsable /\
   HOLD_EXTENSION_HIGH_RISK env <> Unparsable) /\
  (forall v, CONFIDENCE_AUTO_RELEASE_MIN env = Parsed v -> in_unit_interval v) /\
  (forall v, CONFIDENCE_APPROVAL_MIN env = Parsed v -> in_unit_interval v) /\
  (forall v, CONFIDENCE_ESCALATE_MAX env = Parsed v -> in_unit_interval v).

(** The three validated thresholds: alias, environment variable, field of
    the loaded configuration, default. *)
Definition threshold_fields
  : list (string * (ThresholdsEnv -> env_var float) * (ThresholdsConfig -> float) * float) :=
  [ ("CONFIDENCE_AUTO_RELEASE_MIN", CONFIDENCE_AUTO_RELEASE_MIN, auto_release_min, decimal 85 2);
    ("CONFIDENCE_APPROVAL_MIN", CONFIDENCE_APPROVAL_MIN, approval_min, decimal 60 2);
    ("CONFIDENCE_ESCALATE_MAX", CONFIDENCE_ESCALATE_MAX, escalate_max, decimal 60 2) ].

(** The two hold extensions, in the same form. *)
Definition extension_fields
  : list (string * (ThresholdsEnv -> env_var Z) * (ThresholdsConfig -> Z) * Z) :=
  [ ("HOLD_EXTENSION_DEFAULT", HOLD_EXTENSION_DEFAULT, hold_extension_default, 7);
    ("HOLD_EXTENSION_HIGH_RISK", HOLD_EXTENSION_HIGH_RISK, hold_extension_high_risk, 30) ].

(** An environment whose thresholds are each in range and in the wrong
    order: auto-release at 0.5, approval at 0.9, escalation at 0.95. *)
Definition unordered_env : ThresholdsEnv :=
  {| CONFIDENCE_AUTO_RELEASE_MIN := Parsed (decimal 5 1);
     CONFIDENCE_APPROVAL_MIN := Parsed (decimal 9 1);
     CONFIDENCE_ESCALATE_MAX := Parsed (decimal 95 2);
     HOLD_EXTENSION_DEFAULT := Unset;
     HOLD_EXTENSION_HIGH_RISK := Unset |}.

(** An environment with two thresholds out of range (1.5 and NaN) and a
    hold extension that is no integer. *)
Definition failing_env : ThresholdsEnv :=
  {| CONFIDENCE_AUTO_RELEASE_MIN := Parsed (decimal 15 1);
     CONFIDENCE_APPROVAL_MIN := Parsed (decimal 6 1);
     CONFIDENCE_ESCALATE_MAX := Parsed S754_nan;
     HOLD_EXTENSION_DEFAULT := Unparsable;
     HOLD_EXTENSION_HIGH_RISK := Parsed 14 |}.

(** [SecurityConfig]. *)
Record SecurityConfig : Type := {
  api_key : string;
  rate_limit_per_minute : Z;
  allowed_ip_ranges : string
}.

(** [SecurityConfig.allowed_ip_list]: the empty string is the only
    string that is false. *)
Definition allowed_ip_list (self : SecurityConfig) : list string :=
  if String.eqb (allowed_ip_ranges self) EmptyString
  then []
  else map PyStr.strip (PyStr.split "," (allowed_ip_ranges self)).

End Config.

(** ** [logging.py]: censoring of log events *)

Module Logging.

(** The values a log event carries. *)
Inductive py_value : Type :=
| VNone
| VBool (b : bool)
| VInt (z : Z)
| VFloat (f : spec_float)
| VStr (s : string).

Definition sensitive_keys : list string :=
  ["password"; "api_key"; "token"; "secret"; "auth"].

Definition redacted : py_value := VStr "***REDACTED***".

(** [any(sensitive in key.lower() for sensitive in sensitive_keys)]. *)
Definition is_sensitive (key : string) : bool :=
  existsb (fun sensitive => PyStr.contains sensitive (PyStr.lower key)) sensitive_keys.

(** The body of the loop, for one key. *)
Definition censor_key (event_dict : gmap string py_value) (key : string)
  : gmap string py_value :=
  if is_sensitive key then <[key := redacted]> event_dict else event_dict.

(** [censor_sensitive_data]: the loop runs over a copy of the keys and
    assigns into the dictionary it was given. *)
Definition censor_sensitive_data (logger : py_value) (method_name : string)
  (event_dict : gmap string py_value) : gmap string py_value :=
  foldl censor_key event_dict (map_to_list event_dict).*1.

End Logging.

(** ** [models.py]: the whitelist and blacklist tables *)

Module Models.

(** A row of [whitelists] or of [blacklists]: the two tables have the
    same columns.  The columns that are not nullable are not options. *)
Record ListEntry : Type := {
  id : N;
  entry_type : string;
  value : string;
  added_by : option string;
  reason : option string;
  created_at : Z;
  updated_at : Z
}.

Definition entry_key (r : ListEntry) : string * string := (entry_type r, value r).

Definition key_eqb (k1 k2 : string * string) : bool :=
  String.eqb (fst k1) (fst k2) && String.eqb (snd k1) (snd k2).

(** The declared lengths: [String(20)] and [String(255)].  A value that
    is longer is refused here; the database refuses it too, unless what
    exceeds the length is spaces only, which it cuts off, so that the rows
    stored are within the lengths in both. *)
Definition columns_fit (r : ListEntry) : bool :=
  (String.length (entry_type r) <=? 20)%nat &&
  (String.length (value r) <=? 255)%nat &&
  match added_by r with
  | Some a => (String.length a <=? 255)%nat
  | None => true
  end.

Inductive db_error : Type :=
| DataError
| UniqueViolation (constraint : string).

Definition table : Type := list ListEntry.

(** INSERT under the primary key, whose constraint the database names
    [pk], and the constraint
    [UniqueConstraint('entry_type', 'value', name=uq)]. *)
Definition insert_row (pk uq : string) (t : table) (r : ListEntry) : result db_error table :=
  if negb (columns_fit r) then Raise DataError
  else if existsb (fun x => N.eqb (id x) (id r)) t then Raise (UniqueViolation pk)
  else if existsb (fun x => key_eqb (entry_key x) (entry_key r)) t then Raise (UniqueViolation uq)
  else Ok (t ++ [r]).

(** DELETE of the row with the given primary key. *)
Definition delete_row (t : table) (i : N) : table :=
  List.filter (fun x => negb (N.eqb (id x) i)) t.

(** The new contents of a row; the primary key and the creation time
    stay. *)
Definition rewrite_row (old new : ListEntry) : ListEntry :=
  {| id := id old;
     entry_type := entry_type new;
     value := value new;
     added_by := added_by new;
     reason := reason new;
     created_at := created_at old;
     updated_at := updated_at new |}.

(** UPDATE of the row with the given primary key, under the same
    constraint. *)
Definition update_row (uq : string) (t : table) (i : N) (new : ListEntry)
  : result db_error table :=
  match find (fun x => N.eqb (id x) i) t with
  | None => Ok t
  | Some old =>
      let r := rewrite_row old new in
      if negb (columns_fit r) then Raise DataError
      else if existsb (fun x => negb (N.eqb (id x) i) && key_eqb (entry_key x) (entry_key r)) t
           then Raise (UniqueViolation uq)
      else Ok (map (fun x => if N.eqb (id x) i then r else x) t)
  end.

(** The invariant of a table: primary keys are unique, and so are the
    pairs of entry type and value. *)
Definition table_ok (t : table) : Prop :=
  List.NoDup (map id t) /\ List.NoDup (map entry_key t).

Record ListStore : Type := {
  whitelists : table;
  blacklists : table
}.

Inductive list_name : Type := Whitelist | Blacklist.

Inductive statement : Type :=
| Insert (l : list_name) (r : ListEntry)
| Delete (l : list_name) (i : N)
| Update (l : list_name) (i : N) (new : ListEntry).

Definition execute (s : ListStore) (st : statement) : result db_error ListStore :=
  match st with
  | Insert Whitelist r =>
      bind (insert_row "whitelists_pkey" "uq_whitelist_type_value" (whitelists s) r)
           (fun t => Ok {| whitelists := t; blacklists := blacklists s |})
  | Insert Blacklist r =>
      bind (insert_row "blacklists_pkey" "uq_blacklist_type_value" (blacklists s) r)
           (fun t => Ok {| whitelists := whitelists s; blacklists := t |})
  | Delete Whitelist i =>
      Ok {| whitelists := delete_row (whitelists s) i; blacklists := blacklists s |}
  | Delete Blacklist i =>
      Ok {| whitelists := whitelists s; blacklists := delete_row (blacklists s) i |}
  | Update Whitelist i new =>
      bind (update_row "uq_whitelist_type_value" (whitelists s) i new)
           (fun t => Ok {| whitelists := t; blacklists := blacklists s |})
  | Update Blacklist i new =>
      bind (update_row "uq_blacklist_type_value" (blacklists s) i new)
           (fun t => Ok {| whitelists := whitelists s; blacklists := t |})
  end.

Definition empty_store : ListStore := {| whitelists := []; blacklists := [] |}.

(** The states of the store: the empty tables and whatever a statement
    that the database accepts leads to. *)
Inductive reachable : ListStore -> Prop :=
| reachable_empty : reachable empty_store
| reachable_step (s s' : ListStore) (st : statement) :
    reachable s -> execute s st = Ok s' -> reachable s'.

(** Run statements in order, stopping at the first one refused. *)
Fixpoint run (s : ListStore) (sts : list statement) : result db_error ListStore :=
  match sts with
  | [] => Ok s
  | st :: rest => bind (execute s st) (fun s' => run s' rest)
  end.

Definition sample_entry (i : N) : ListEntry :=
  {| id := i; entry_type := "domain"; value := "example.com";
     added_by := Some "admin"; reason := None; created_at := 0; updated_at := 0 |}.

(** The same pair entered once in each table. *)
Definition both_lists : list statement :=
  [Insert Whitelist (sample_entry 1); Insert Blacklist (sample_entry 2)].

End Models.

(** ** The decision and scoring engine

    The repository holds no code for the engine; it is modelled here from
    its specification.  Scores, weights and thresholds are rational
    numbers. *)

Module Engine.

Import Constants.

(** *** List resolver *)

Inductive ListVerdict : Type := Allow | Deny | NoVerdict.

(** A list snapshot, indexed by entry type and value. *)
Definition list_key (t : WhitelistType) (v : string) : string * string :=
  (whitelist_type_value t, v).

(** Modelled from the spec: the list resolver [resolve], absent from the
    sources.  The blacklist is looked up by email, domain and IP, then the
    whitelist in the same order; the first hit decides. *)
Definition resolve (blacklist whitelist : gset (string * string))
  (sender_email sender_domain sender_ip : string) : ListVerdict :=
  if bool_decide (list_key WL_EMAIL sender_email ∈ blacklist) then Deny
  else if bool_decide (list_key WL_DOMAIN sender_domain ∈ blacklist) then Deny
  else if bool_decide (list_key WL_IP sender_ip ∈ blacklist) then Deny
  else if bool_decide (list_key WL_EMAIL sender_email ∈ whitelist) then Allow
  else if bool_decide (list_key WL_DOMAIN sender_domain ∈ whitelist) then Allow
  else if bool_decide (list_key WL_IP sender_ip ∈ whitelist) then Allow
  else NoVerdict.

(** *** Policy evaluator *)

Inductive PolicyAction : Type := Release | Escalate | RequireApproval.

(** Modelled from the spec: the decision type a policy action maps to. *)
Definition decision_of_action (a : PolicyAction) : DecisionType :=
  match a with
  | Release => AUTO_RELEASE
  | Escalate => ESCALATE
  | RequireApproval => APPROVAL_REQUIRED
  end.

Record PolicyOutcome : Type := {
  outcome_rule_id : string;
  outcome_action : PolicyAction;
  outcome_description : string
}.

(** The attributes of an email that conditions are evaluated against. *)
Record Candidate : Type := {
  sender : string;
  subject : string;
  body : string;
  attachments : list string;
  current_time : Z;
  recent_volume : Z
}.

Section Policies.

(** The language of conditions is not specified: a condition is of any
    type, with any decidable meaning on candidates. *)
Variable Condition : Type.
Variable holds : Condition -> Candidate -> bool.

(** The columns of [policies] in [models.py] that the evaluator reads; the
    action is one of the three effects the specification allows. *)
Record Policy : Type := {
  rule_id : string;
  name : string;
  description : string;
  priority : Z;
  rule_type : string;
  condition : Condition;
  action : PolicyAction;
  enabled : bool
}.

Definition outcome_of (p : Policy) : PolicyOutcome :=
  {| outcome_rule_id := rule_id p;
     outcome_action := action p;
     outcome_description := description p |}.

(** [p] is evaluated no later than [q]: lower priority value first, ties
    by rule id ascending. *)
Definition policy_leb (p q : Policy) : bool :=
  (priority p <? priority q) ||
  ((priority p =? priority q) && String.leb (rule_id p) (rule_id q)).

(** [p] is evaluated strictly before [q]. *)
Definition policy_lt (p q : Policy) : Prop :=
  priority p < priority q \/
  (priority p = priority q /\ String.compare (rule_id p) (rule_id q) = Lt).

Fixpoint insert_policy (p : Policy) (l : list Policy) : list Policy :=
  match l with
  | [] => [p]
  | q :: rest => if policy_leb p q then p :: l else q :: insert_policy p rest
  end.

(** Modelled from the spec: the order of evaluation, absent from the
    sources: the enabled policies in ascending order of priority and rule
    id. *)
Definition evaluation_order (policies : list Policy) : list Policy :=
  fold_right insert_policy [] (List.filter enabled policies).

(** Modelled from the spec: the scan of the evaluator, absent from the
    sources: the first policy of the list whose condition holds, with the
    rule ids of the policies whose condition was evaluated, in order. *)
Fixpoint first_match (l : list Policy) (c : Candidate)
  : option PolicyOutcome * list string :=
  match l with
  | [] => (None, [])
  | p :: rest =>
      if holds (condition p) c then (Some (outcome_of p), [rule_id p])
      else let '(r, evaluated) := first_match rest c in (r, rule_id p :: evaluated)
  end.

(** Modelled from the spec: the policy evaluator [evaluate], absent from
    the sources, together with the record of which conditions it
    evaluated. *)
Definition evaluate_traced (policies : list Policy) (c : Candidate)
  : option PolicyOutcome * list string :=
  first_match (evaluation_order policies) c.

(** Modelled from the spec: the policy evaluator [evaluate], absent from
    the sources. *)
Definition evaluate (policies : list Policy) (c : Candidate) : option PolicyOutcome :=
  fst (evaluate_traced policies c).

End Policies.

Arguments rule_id {Condition} p.
Arguments name {Condition} p.
Arguments description {Condition} p.
Arguments priority {Condition} p.
Arguments rule_type {Condition} p.
Arguments condition {Condition} p.
Arguments action {Condition} p.
Arguments enabled {Condition} p.
Arguments Build_Policy {Condition}.
Arguments outcome_of {Condition} p.
Arguments policy_leb {Condition} p q.
Arguments policy_lt {Condition} p q.
Arguments insert_policy {Condition} p l.
Arguments evaluation_order {Condition} policies.
Arguments first_match {Condition} holds l c.
Arguments evaluate_traced {Condition} holds policies c.
Arguments evaluate {Condition} holds policies c.

(** *** Score aggregator *)

Record ComponentResult : Type := {
  score : Q;
  details : list (string * string)
}.

(** The component results of one email; a component may be absent. *)
Definition ValidationInput : Type := ValidationComponent -> option ComponentResult.

Definition ScoringWeights : Type := ValidationComponent -> Q.

Inductive ScoringError : Type :=
| MissingComponent (c : ValidationComponent)
| ScoreOutOfRange (c : ValidationComponent)
| InvalidWeights.

Definition in_unit (q : Q) : bool := Qle_bool 0 q && Qle_bool q 1.

Definition weights_total (w : ScoringWeights) : Q :=
  fold_right (fun c acc => (w c + acc)%Q) 0%Q all_components.

(** Modelled from the spec: the invariant of weights, whose check is absent
    from the sources: none negative, and a sum within 1e-6 of 1. *)
Definition weights_valid (w : ScoringWeights) : bool :=
  forallb (fun c => Qle_bool 0 (w c)) all_components &&
  Qle_bool (Qabs (weights_total w - 1)) (1 # 1000000).

(** Modelled from the spec: the input check of the aggregator, absent from
    the sources: the scores of the listed components, or the first defect
    found. *)
Fixpoint required_scores (cs : list ValidationComponent) (input : ValidationInput)
  : result ScoringError (list (ValidationComponent * Q)) :=
  match cs with
  | [] => Ok []
  | c :: rest =>
      match input c with
      | None => Raise (MissingComponent c)
      | Some r =>
          if in_unit (score r)
          then bind (required_scores rest input) (fun l => Ok ((c, score r) :: l))
          else Raise (ScoreOutOfRange c)
      end
  end.

Definition weighted_sum (w : ScoringWeights) (l : list (ValidationComponent * Q)) : Q :=
  fold_right (fun cs acc => (w (fst cs) * snd cs + acc)%Q) 0%Q l.

(** Modelled from the spec: the score aggregator [aggregate], absent from
    the sources. *)
Definition aggregate (input : ValidationInput) (weights : ScoringWeights)
  : result ScoringError Q :=
  bind (required_scores all_components input)
       (fun l => if weights_valid weights then Ok (weighted_sum weights l)
                 else Raise InvalidWeights).

Definition component_eqb (a b : ValidationComponent) : bool :=
  match a, b with
  | DOMAIN, DOMAIN | CONTENT, CONTENT | SENDER, SENDER | RULES, RULES => true
  | _, _ => false
  end.

(** The input with the score of one component replaced. *)
Definition with_score (input : ValidationInput) (c : ValidationComponent) (s : Q)
  : ValidationInput :=
  fun c' =>
    if component_eqb c' c
    then option_map (fun r => {| score := s; details := details r |}) (input c')
    else input c'.

(** *** Risk classifier and decision router *)

Record Thresholds : Type := {
  auto_release_min : Q;
  approval_min : Q;
  escalate_max : Q
}.

(** Modelled from the spec: the risk classifier [classify], absent from
    the sources. *)
Definition classify (overall_score : Q) (thresholds : Thresholds) : RiskLevel :=
  if Qle_bool (auto_release_min thresholds) overall_score then LOW
  else if Qle_bool (escalate_max thresholds) overall_score then MEDIUM
  else HIGH.

Record Decision : Type := {
  decision_type : DecisionType;
  risk_level : RiskLevel;
  overall_score : Q;
  reason : string;
  matched_policy : option string;
  list_verdict : ListVerdict
}.

(** Modelled from the spec: the last rule of the router, absent from the
    sources: the score against the thresholds. *)
Definition threshold_decision (overall : Q) (thresholds : Thresholds) : DecisionType :=
  if Qle_bool (auto_release_min thresholds) overall then AUTO_RELEASE
  else if Qle_bool (approval_min thresholds) overall then APPROVAL_REQUIRED
  else ESCALATE.

(** Modelled from the spec: the decision router [route], absent from the
    sources.  Precedence: a deny verdict, then a policy outcome, then an
    allow verdict, then the thresholds. *)
Definition route (overall : Q) (risk : RiskLevel) (verdict : ListVerdict)
  (policy_outcome : option PolicyOutcome) (thresholds : Thresholds) : Decision :=
  match verdict, policy_outcome with
  | Deny, _ =>
      {| decision_type := ESCALATE; risk_level := risk; overall_score := overall;
         reason := "blacklisted sender"; matched_policy := None; list_verdict := verdict |}
  | _, Some o =>
      {| decision_type := decision_of_action (outcome_action o);
         risk_level := risk; overall_score := overall;
         reason := String.append (outcome_rule_id o)
                     (String.append " " (outcome_description o));
         matched_policy := Some (outcome_rule_id o); list_verdict := verdict |}
  | Allow, None =>
      {| decision_type := AUTO_RELEASE; risk_level := risk; overall_score := overall;
         reason := "whitelisted sender"; matched_policy := None; list_verdict := verdict |}
  | NoVerdict, None =>
      {| decision_type := threshold_decision overall thresholds;
         risk_level := risk; overall_score := overall;
         reason := "score thresholds"; matched_policy := None; list_verdict := verdict |}
  end.

(** *** The worked example of the specification *)

Definition example_result (q : Q) : ComponentResult := {| score := q; details := [] |}.

Definition example_input : ValidationInput :=
  fun c =>
    match c with
    | DOMAIN => Some (example_result (9 # 10))
    | CONTENT => Some (example_result (8 # 10))
    | SENDER => Some (example_result (7 # 10))
    | RULES => Some (example_result (6 # 10))
    end.

Definition example_weights : ScoringWeights :=
  fun c =>
    match c with
    | DOMAIN => 30 # 100
    | CONTENT => 35 # 100
    | SENDER => 25 # 100
    | RULES => 10 # 100
    end.

(** Conditions of the example: a word to be found in the subject. *)
Definition subject_has (word : string) (c : Candidate) : bool :=
  PyStr.contains word (subject c).

Definition example_policies : list (Policy string) :=
  [ Build_Policy "R2" "hold invoices" "invoice in subject" 2 "content" "invoice"
      RequireApproval true;
    Build_Policy "R1" "escalate urgent" "urgent in subject" 1 "content" "urgent"
      Escalate true;
    Build_Policy "R0" "disabled rule" "never runs" 0 "content" "urgent"
      Release false ].

Definition example_candidate : Candidate :=
  {| sender := "bob@example.com"; subject := "urgent invoice"; body := "";
     attachments := []; current_time := 0; recent_volume := 1 |}.

Definition default_thresholds : Thresholds :=
  {| auto_release_min := 85 # 100; approval_min := 60 # 100; escalate_max := 60 # 100 |}.

End Engine.

(** ** [config.py]: the other settings *)

Module Settings.

(** [str(n)] for an integer. *)
Definition str_of_int (n : Z) : string := NilEmpty.string_of_int (Z.to_int n).

(** [DatabaseConfig]. *)
Record DatabaseConfig : Type := {
  host : string;
  port : Z;
  name : string;
  user : string;
  password : string;
  pool_size : Z;
  max_overflow : Z
}.

(** [DatabaseConfig.connection_string]: the fields are formatted in as
    they are. *)
Definition connection_string (self : DatabaseConfig) : string :=
  String.append "postgresql://"
    (String.append (user self)
       (String.append ":"
          (String.append (password self)
             (String.append "@"
                (String.append (host self)
                   (String.append ":"
                      (String.append (str_of_int (port self))
                         (String.append "/" (name self))))))))).

(** [NotificationConfig]. *)
Record NotificationConfig : Type := {
  approval_recipients : string;
  escalation_recipients : string
}.

(** [NotificationConfig.approval_emails]. *)
Definition approval_emails (self : NotificationConfig) : list string :=
  map PyStr.strip (PyStr.split "," (approval_recipients self)).

(** [NotificationConfig.escalation_emails]. *)
Definition escalation_emails (self : NotificationConfig) : list string :=
  map PyStr.strip (PyStr.split "," (escalation_recipients self)).

(** The fields of [Settings] that its own code and the logging set-up
    read. *)
Record Settings : Type := {
  environment : string;
  log_level : string;
  debug : bool;
  database : DatabaseConfig
}.

(** [Settings.is_production]. *)
Definition is_production (self : Settings) : bool :=
  String.eqb (PyStr.lower (environment self)) "production".

(** [Settings.is_development]. *)
Definition is_development (self : Settings) : bool :=
  String.eqb (PyStr.lower (environment self)) "development".

(** The number of occurrences of a character. *)
Fixpoint count_char (c : ascii) (s : string) : nat :=
  match s with
  | EmptyString => 0%nat
  | String a r => ((if Ascii.eqb a c then 1 else 0) + count_char c r)%nat
  end.

(** The same security settings with another list of ranges. *)
Definition with_ranges (self : Config.SecurityConfig) (ranges : string) : Config.SecurityConfig :=
  {| Config.api_key := Config.api_key self;
     Config.rate_limit_per_minute := Config.rate_limit_per_minute self;
     Config.allowed_ip_ranges := ranges |}.

(** The same settings under another environment name. *)
Definition with_environment (self : Settings) (env : string) : Settings :=
  {| environment := env; log_level := log_level self; debug := debug self;
     database := database self |}.

End Settings.

(** ** [logging.py]: application context and scoped context *)

Module LoggingContext.

Import Logging.

(** [add_app_context]; the global [settings] is an argument. *)
Definition add_app_context (settings : Settings.Settings)
  (logger : py_value) (method_name : string) (event_dict : gmap string py_value)
  : gmap string py_value :=
  <["environment" := VStr (Settings.environment settings)]>
    (<["app" := VStr "l1-email-agent"]> event_dict).

(** [structlog.contextvars.bind_contextvars] with keyword arguments [kw]:
    every given key is set
    in the context-local store; the result has one token per given key. *)
Definition bind_contextvars (kw store : gmap string py_value)
  : gset string * gmap string py_value :=
  (dom kw, kw ∪ store).

(** [structlog.contextvars.unbind_contextvars] with the given keys: every
    given key is removed from the store. *)
Definition unbind_contextvars (keys : list string) (store : gmap string py_value)
  : gmap string py_value :=
  foldl (fun st k => delete k st) store keys.

(** [LoggerAdapter]: the context given at construction and the tokens of
    the binding, [None] before the scope is entered. *)
Record LoggerAdapter : Type := {
  context : gmap string py_value;
  token : option (gset string)
}.

(** [LoggerAdapter.__init__]. *)
Definition new_adapter (context : gmap string py_value) : LoggerAdapter :=
  {| context := context; token := None |}.

(** [LoggerAdapter.__enter__]. *)
Definition enter (self : LoggerAdapter) (store : gmap string py_value)
  : LoggerAdapter * gmap string py_value :=
  let '(tokens, store') := bind_contextvars (context self) store in
  ({| context := context self; token := Some tokens |}, store').

(** [LoggerAdapter.__exit__]: [if self.token] is false for [None] and for
    the empty mapping. *)
Definition exit (self : LoggerAdapter) (store : gmap string py_value)
  : gmap string py_value :=
  match token self with
  | None => store
  | Some tokens =>
      if decide (tokens = ∅) then store
      else unbind_contextvars (map_to_list (context self)).*1 store
  end.

End LoggingContext.

(** ** [connection.py]: the database manager *)

Module Connection.

(** What the manager does to the outside, in order. *)
Inductive event : Type :=
| CreateEngine
| SetupEventListeners
| MakeSessionFactory
| Dispose (engine : N)
| Log (level : string) (name : string)
| Commit (session : N)
| Rollback (session : N)
| CloseSession (session : N).

Inductive exn : Type :=
| DatabaseConnectionError (msg : string)
| Exception (msg : string).

(** [str(e)]. *)
Definition message (e : exn) : string :=
  match e with
  | DatabaseConnectionError msg => msg
  | Exception msg => msg
  end.

(** [DatabaseManager]: an engine is the number it was created under, a
    session factory and a session are the engine they are bound to. *)
Record DatabaseManager : Type := {
  engine : option N;
  session_factory : option N;
  _initialized : bool
}.

(** [DatabaseManager.__init__]. *)
Definition new_manager : DatabaseManager :=
  {| engine := None; session_factory := None; _initialized := false |}.

(** How the three calls of [initialize] into the library end: the engine
    created, or the exception raised. *)
Record library : Type := {
  create_engine : result exn N;
  setup_event_listeners : result exn unit;
  sessionmaker : result exn unit
}.

Definition initialization_failed (e : exn) : exn :=
  DatabaseConnectionError (String.append "Failed to initialize database: " (message e)).

(** [DatabaseManager.initialize]. *)
Definition initialize (self : DatabaseManager) (lib : library)
  : DatabaseManager * list event * result exn unit :=
  if _initialized self
  then (self, [Log "warning" "database_already_initialized"], Ok tt)
  else
    match create_engine lib with
    | Raise e =>
        (self,
         [CreateEngine; Log "error" "database_initialization_failed"],
         Raise (initialization_failed e))
    | Ok eng =>
        let self1 := {| engine := Some eng;
                        session_factory := session_factory self;
                        _initialized := _initialized self |} in
        match setup_event_listeners lib with
        | Raise e =>
            (self1,
             [CreateEngine; SetupEventListeners;
              Log "error" "database_initialization_failed"],
             Raise (initialization_failed e))
        | Ok _ =>
            match sessionmaker lib with
            | Raise e =>
                (self1,
                 [CreateEngine; SetupEventListeners; MakeSessionFactory;
                  Log "error" "database_initialization_failed"],
                 Raise (initialization_failed e))
            | Ok _ =>
                ({| engine := Some eng; session_factory := Some eng;
                    _initialized := true |},
                 [CreateEngine; SetupEventListeners; MakeSessionFactory;
                  Log "info" "database_initialized"],
                 Ok tt)
            end
        end
    end.

(** [DatabaseManager.get_session]. *)
Definition get_session (self : DatabaseManager) : result exn N :=
  match _initialized self, session_factory self with
  | true, Some factory => Ok factory
  | _, _ => Raise (DatabaseConnectionError "Database not initialized. Call initialize() first.")
  end.

(** [DatabaseManager.close]. *)
Definition close (self : DatabaseManager) : DatabaseManager * list event :=
  match engine self with
  | Some eng =>
      ({| engine := engine self; session_factory := session_factory self;
          _initialized := false |},
       [Dispose eng; Log "info" "database_connections_closed"])
  | None => (self, [])
  end.

(** The calls made on a manager. *)
Inductive call : Type :=
| Initialize (lib : library)
| GetSession
| Close.

Definition step (self : DatabaseManager) (c : call) : DatabaseManager :=
  match c with
  | Initialize lib => fst (fst (initialize self lib))
  | GetSession => self
  | Close => fst (close self)
  end.

(** The states a manager goes through from its construction. *)
Inductive reachable : DatabaseManager -> Prop :=
| reachable_new : reachable new_manager
| reachable_step (self : DatabaseManager) (c : call) :
    reachable self -> reachable (step self c).

(** How the consumer of [get_db] leaves the [yield]: it finishes, it
    raises, or it closes the generator. *)
Inductive body_outcome : Type :=
| Finished
| Raised (e : exn)
| GeneratorClosed.

(** How the calls on the session end. *)
Record session_calls : Type := {
  commit : result exn unit;
  rollback : result exn unit;
  close_session : result exn unit
}.

(** What leaves [get_db]: nothing, an exception, or the exit of the
    closed generator. *)
Inductive exit : Type :=
| Returned
| Propagated (e : exn)
| Closed.

(** The [try] statement of [get_db] around one session. *)
Definition with_session (session : N) (body : body_outcome) (calls : session_calls)
  : list event * exit :=
  let '(events, pending) :=
    match body with
    | Finished =>
        match commit calls with
        | Ok _ => ([Commit session], Returned)
        | Raise e =>
            match rollback calls with
            | Ok _ =>
                ([Commit session; Rollback session; Log "error" "database_session_error"],
                 Propagated e)
            | Raise e' => ([Commit session; Rollback session], Propagated e')
            end
        end
    | Raised e =>
        match rollback calls with
        | Ok _ => ([Rollback session; Log "error" "database_session_error"], Propagated e)
        | Raise e' => ([Rollback session], Propagated e')
        end
    | GeneratorClosed => ([], Closed)
    end in
  match close_session calls with
  | Ok _ => (events ++ [CloseSession session], pending)
  | Raise e => (events ++ [CloseSession session], Propagated e)
  end.

(** [get_db], on the global manager. *)
Definition get_db (db_manager : DatabaseManager) (lib : library)
  (body : body_outcome) (calls : session_calls)
  : DatabaseManager * list event * exit :=
  let '(manager, events, started) :=
    if negb (_initialized db_manager) then initialize db_manager lib
    else (db_manager, [], Ok tt) in
  match started with
  | Raise e => (manager, events, Propagated e)
  | Ok _ =>
      match get_session manager with
      | Raise e => (manager, events, Propagated e)
      | Ok session =>
          let '(events', out) := with_session session body calls in
          (manager, events ++ events', out)
      end
  end.

Definition is_session_event (e : event) : bool :=
  match e with
  | Commit _ | Rollback _ | CloseSession _ => true
  | _ => false
  end.

Definition is_commit (e : event) : bool :=
  match e with Commit _ => true | _ => false end.

Definition is_rollback (e : event) : bool :=
  match e with Rollback _ => true | _ => false end.

Definition is_close (e : event) : bool :=
  match e with CloseSession _ => true | _ => false end.

(** What holds of a manager at all times: when it is initialized, it has an
    engine and a session factory bound to that engine; it has no session
    factory without an engine. *)
Definition manager_ok (self : DatabaseManager) : Prop :=
  (_initialized self = true ->
   exists eng, engine self = Some eng /\ session_factory self = Some eng) /\
  (engine self = None -> session_factory self = None).

(** A library in which every call succeeds. *)
Definition working_library (eng : N) : library :=
  {| create_engine := Ok eng; setup_event_listeners := Ok tt; sessionmaker := Ok tt |}.

End Connection.

(** ** [exceptions.py] *)

Module Exceptions.

(** The exception classes of the module. *)
Inductive exception_class : Type :=
| L1AgentException
| ConfigurationError
| ValidationError
| ManageEngineError
| ManageEngineAuthError
| ManageEngineRateLimitError
| ManageEngineNotFoundError
| ManageEngineTimeoutError
| ClaudeAPIError
| ClaudeRateLimitError
| ClaudeTimeoutError
| DatabaseError
| DatabaseConnectionError
| RedisError
| RedisConnectionError
| EmailParsingError
| WorkflowError
| DomainValidationError
| ContentAnalysisError
| SenderCheckError
| RulesEngineError
| ConfidenceScoringError
| ActionExecutionError
| NotificationError
| AuditLoggingError
| ExternalAPIError
| WhitelistBlacklistError
| ApprovalWorkflowError.

Definition all_classes : list exception_class :=
  [ L1AgentException; ConfigurationError; ValidationError; ManageEngineError;
    ManageEngineAuthError; ManageEngineRateLimitError; ManageEngineNotFoundError;
    ManageEngineTimeoutError; ClaudeAPIError; ClaudeRateLimitError; ClaudeTimeoutError;
    DatabaseError; DatabaseConnectionError; RedisError; RedisConnectionError;
    EmailParsingError; WorkflowError; DomainValidationError; ContentAnalysisError;
    SenderCheckError; RulesEngineError; ConfidenceScoringError; ActionExecutionError;
    NotificationError; AuditLoggingError; ExternalAPIError; WhitelistBlacklistError;
    ApprovalWorkflowError ].

(** The class named in the [class] statement; [None] for the base class of
    the module, which derives from the built-in [Exception]. *)
Definition base (c : exception_class) : option exception_class :=
  match c with
  | L1AgentException => None
  | ManageEngineAuthError | ManageEngineRateLimitError
  | ManageEngineNotFoundError | ManageEngineTimeoutError => Some ManageEngineError
  | ClaudeRateLimitError | ClaudeTimeoutError => Some ClaudeAPIError
  | DatabaseConnectionError => Some DatabaseError
  | RedisConnectionError => Some RedisError
  | DomainValidationError | ContentAnalysisError
  | SenderCheckError | RulesEngineError => Some ValidationError
  | _ => Some L1AgentException
  end.

(** A number for each class, to compare classes by. *)
Definition class_index (c : exception_class) : nat :=
  match c with
  | L1AgentException => 0 | ConfigurationError => 1 | ValidationError => 2
  | ManageEngineError => 3 | ManageEngineAuthError => 4 | ManageEngineRateLimitError => 5
  | ManageEngineNotFoundError => 6 | ManageEngineTimeoutError => 7 | ClaudeAPIError => 8
  | ClaudeRateLimitError => 9 | ClaudeTimeoutError => 10 | DatabaseError => 11
  | DatabaseConnectionError => 12 | RedisError => 13 | RedisConnectionError => 14
  | EmailParsingError => 15 | WorkflowError => 16 | DomainValidationError => 17
  | ContentAnalysisError => 18 | SenderCheckError => 19 | RulesEngineError => 20
  | ConfidenceScoringError => 21 | ActionExecutionError => 22 | NotificationError => 23
  | AuditLoggingError => 24 | ExternalAPIError => 25 | WhitelistBlacklistError => 26
  | ApprovalWorkflowError => 27
  end.

Definition class_eqb (c d : exception_class) : bool :=
  Nat.eqb (class_index c) (class_index d).

(** The class and its bases, nearest first, following [base] for at most
    [fuel] steps. *)
Fixpoint bases (fuel : nat) (c : exception_class) : list exception_class :=
  c :: match fuel with
       | O => []
       | S fuel' => match base c with
                    | Some b => bases fuel' b
                    | None => []
                    end
       end.

(** [issubclass(c, d)]: what an [except d] clause catches. *)
Definition issubclass (c d : exception_class) : bool :=
  existsb (class_eqb d) (bases (length all_classes) c).

(** An instance: [L1AgentException.__init__] sets the message and the
    details, and the message is the text of the exception. *)
Record exception : Type := {
  class_of : exception_class;
  message : string;
  details : gmap string Logging.py_value
}.

(** [cls(message, details)]; [details or {}] is the given dictionary
    unless it is [None] or empty. *)
Definition raise_new (cls : exception_class) (message : string)
  (details : option (gmap string Logging.py_value)) : exception :=
  {| class_of := cls;
     message := message;
     details := match details with
                | Some d => if decide (d = ∅) then ∅ else d
                | None => ∅
                end |}.

End Exceptions.

(** ** [constants.py]: the other tables *)

Module ConstantsTables.

Import PyFloat.

(** The values of the string enumerations, in the order of their class
    statements. *)
Definition DecisionType_values : list string :=
  ["auto_release"; "approval_required"; "escalate"].

Definition RiskLevel_values : list string := ["low"; "medium"; "high"].

Definition ApprovalStatus_values : list string := ["pending"; "approved"; "rejected"].

Definition EmailStatus_values : list string :=
  ["pending"; "processing"; "completed"; "failed"].

Definition ActionType_values : list string :=
  ["release"; "keep_quarantined"; "create_approval"; "add_note"].

Definition ValidationComponent_values : list string :=
  ["domain_validation"; "content_analysis"; "sender_check"; "rules_evaluation"].

Definition RuleType_values : list string :=
  ["content"; "sender"; "attachment"; "time_based"; "volume"].

Definition WhitelistType_values : list string := ["domain"; "email"; "ip"].

(** The string columns of [models.py] that hold a value of an enumeration:
    table, column, declared length, and the values stored there. *)
Definition enum_columns : list (string * string * nat * list string) :=
  [ ("audit_logs", "risk_level", 20%nat, RiskLevel_values);
    ("audit_logs", "decision", 50%nat, DecisionType_values);
    ("audit_logs", "action_taken", 50%nat, ActionType_values);
    ("policies", "rule_type", 50%nat, RuleType_values);
    ("whitelists", "entry_type", 20%nat, WhitelistType_values);
    ("blacklists", "entry_type", 20%nat, WhitelistType_values);
    ("approval_requests", "status", 50%nat, ApprovalStatus_values) ].

(** The column default of [ApprovalRequest.status]. *)
Definition approval_status_default : string := "pending".

(** [COMPONENT_WEIGHTS], in the order it is written. *)
Definition COMPONENT_WEIGHTS : list (string * list (string * float)) :=
  [ ("domain",
     [ ("spf", decimal 25 2); ("dkim", decimal 25 2); ("dmarc", decimal 20 2);
       ("reputation", decimal 20 2); ("dnsbl", decimal 10 2) ]);
    ("content",
     [ ("phishing", decimal 40 2); ("spam", decimal 25 2);
       ("url_safety", decimal 25 2); ("attachments", decimal 10 2) ]);
    ("sender",
     [ ("whitelist", decimal 40 2); ("blacklist", decimal 30 2);
       ("history", decimal 20 2); ("relationship", decimal 10 2) ]) ].

Definition PHISHING_KEYWORDS : list string :=
  [ "urgent"; "immediate action"; "verify now"; "suspended account";
    "confirm identity"; "click here"; "update payment"; "security alert";
    "unusual activity"; "account locked"; "expire"; "limited time" ].

Definition SPAM_KEYWORDS : list string :=
  [ "free"; "winner"; "congratulations"; "act now"; "limited offer";
    "click here"; "buy now"; "discount"; "promotion"; "prize" ].

Definition SUSPICIOUS_EXTENSIONS : list string :=
  [ ".exe"; ".bat"; ".cmd"; ".scr"; ".pif"; ".vbs"; ".js";
    ".jar"; ".com"; ".msi"; ".dll"; ".hta"; ".cpl" ].

Definition ALLOWED_EXTENSIONS : list string :=
  [ ".pdf"; ".doc"; ".docx"; ".xls"; ".xlsx"; ".ppt"; ".pptx";
    ".txt"; ".csv"; ".zip"; ".png"; ".jpg"; ".jpeg"; ".gif" ].

(** The entry occurs in the list. *)
Definition mem (s : string) (l : list string) : bool := existsb (String.eqb s) l.

(** No entry of the list occurs twice. *)
Fixpoint distinct (l : list string) : bool :=
  match l with
  | [] => true
  | x :: rest => negb (mem x rest) && distinct rest
  end.

End ConstantsTables.

(** ** [models.py]: the table of policies *)

Module PolicyStore.

Section Rows.

Variable Condition : Type.

(** A row of [policies]: the primary key and the columns the evaluator
    reads. *)
Record PolicyRow : Type := {
  id : N;
  policy : Engine.Policy Condition
}.

Definition row_rule_id (r : PolicyRow) : string := Engine.rule_id (policy r).

(** The declared lengths: [String(50)], [String(255)], [String(50)]. *)
Definition columns_fit (r : PolicyRow) : bool :=
  (String.length (Engine.rule_id (policy r)) <=? 50)%nat &&
  (String.length (Engine.name (policy r)) <=? 255)%nat &&
  (String.length (Engine.rule_type (policy r)) <=? 50)%nat.

(** INSERT under the primary key and the unique index that
    [unique=True, index=True] of [rule_id] creates. *)
Definition insert_row (t : list PolicyRow) (r : PolicyRow)
  : result Models.db_error (list PolicyRow) :=
  if negb (columns_fit r) then Raise Models.DataError
  else if existsb (fun x => N.eqb (id x) (id r)) t
       then Raise (Models.UniqueViolation "policies_pkey")
  else if existsb (fun x => String.eqb (row_rule_id x) (row_rule_id r)) t
       then Raise (Models.UniqueViolation "ix_policies_rule_id")
  else Ok (t ++ [r]).

(** DELETE of the row with the given primary key. *)
Definition delete_row (t : list PolicyRow) (i : N) : list PolicyRow :=
  List.filter (fun x => negb (N.eqb (id x) i)) t.

(** UPDATE of the row with the given primary key to new contents. *)
Definition update_row (t : list PolicyRow) (i : N) (new : Engine.Policy Condition)
  : result Models.db_error (list PolicyRow) :=
  match find (fun x => N.eqb (id x) i) t with
  | None => Ok t
  | Some _ =>
      let r := {| id := i; policy := new |} in
      if negb (columns_fit r) then Raise Models.DataError
      else if existsb (fun x => negb (N.eqb (id x) i)
                                && String.eqb (row_rule_id x) (row_rule_id r)) t
           then Raise (Models.UniqueViolation "ix_policies_rule_id")
      else Ok (map (fun x => if N.eqb (id x) i then r else x) t)
  end.

Inductive statement : Type :=
| Insert (r : PolicyRow)
| Delete (i : N)
| Update (i : N) (new : Engine.Policy Condition).

Definition execute (t : list PolicyRow) (st : statement)
  : result Models.db_error (list PolicyRow) :=
  match st with
  | Insert r => insert_row t r
  | Delete i => Ok (delete_row t i)
  | Update i new => update_row t i new
  end.

(** The states of the table: empty, and whatever an accepted statement
    leads to. *)
Inductive reachable : list PolicyRow -> Prop :=
| reachable_empty : reachable []
| reachable_step (t t' : list PolicyRow) (st : statement) :
    reachable t -> execute t st = Ok t' -> reachable t'.

(** The policies the evaluator is given. *)
Definition snapshot (t : list PolicyRow) : list (Engine.Policy Condition) :=
  map policy t.

End Rows.

Arguments id {Condition} _.
Arguments policy {Condition} _.
Arguments Build_PolicyRow {Condition} _ _.
Arguments row_rule_id {Condition} _.
Arguments columns_fit {Condition} _.
Arguments insert_row {Condition} _ _.
Arguments delete_row {Condition} _ _.
Arguments update_row {Condition} _ _ _.
Arguments Insert {Condition} _.
Arguments Delete {Condition} _.
Arguments Update {Condition} _ _.
Arguments execute {Condition} _ _.
Arguments reachable {Condition} _.
Arguments snapshot {Condition} _.

(** The invariant of the table: primary keys and rule ids are unique. *)
Definition policy_table_ok {Condition : Type} (t : list (PolicyRow Condition)) : Prop :=
  List.NoDup (map id t) /\ List.NoDup (map row_rule_id t).

(** Two rows, entered in this order. *)
Definition example_rows : list (PolicyRow string) :=
  [ {| id := 1; policy := Engine.Build_Policy "R2" "hold invoices" "invoice in subject" 2
                            "content" "invoice" Engine.RequireApproval true |};
    {| id := 2; policy := Engine.Build_Policy "R1" "escalate urgent" "urgent in subject" 1
                            "content" "urgent" Engine.Escalate true |} ].

End PolicyStore.

(** ** [models.py]: which list a statement is about *)

Module ListStatements.

Import Models.

Definition target (st : statement) : list_name :=
  match st with
  | Insert l _ | Delete l _ | Update l _ _ => l
  end.

(** The table of a store that a statement is about, and the other one. *)
Definition own_table (s : ListStore) (l : list_name) : table :=
  match l with Whitelist => whitelists s | Blacklist => blacklists s end.

Definition other_table (s : ListStore) (l : list_name) : table :=
  match l with Whitelist => blacklists s | Blacklist => whitelists s end.

Definition constraint_name (l : list_name) : string :=
  match l with
  | Whitelist => "uq_whitelist_type_value"
  | Blacklist => "uq_blacklist_type_value"
  end.

End ListStatements.

(** ** [base.py]: table names *)

Module Base.

(** The name of a class is a Python string of any characters: the list of
    its Unicode code points. *)
Definition text : Type := list N.

(** The code points of a string of characters below 256. *)
Definition code_points (s : string) : text :=
  map N_of_ascii (list_ascii_of_string s).

(** The character classes of the two patterns: [[A-Z]], [[a-z]] and
    [[a-z0-9]]; the dot matches every character but the line feed. *)
Definition is_upper (c : N) : bool := ((65 <=? c) && (c <=? 90))%N.

Definition is_lower (c : N) : bool := ((97 <=? c) && (c <=? 122))%N.

Definition is_lower_or_digit (c : N) : bool :=
  ((97 <=? c) && (c <=? 122) || (48 <=? c) && (c <=? 57))%N.

Definition is_dot (c : N) : bool := negb (c =? 10)%N.

(** The character [_]. *)
Definition underscore : N := 95%N.

(** The string starts with an upper-case letter followed by a lower-case
    letter. *)
Definition starts_word (s : text) : bool :=
  match s with
  | u :: l :: _ => is_upper u && is_lower l
  | _ => false
  end.

(** Where the scan of the first substitution stands: looking for a match,
    at the upper-case letter of a match, or inside the run of lower-case
    letters that ends it. *)
Inductive scan : Type := Looking | AtUpper | InRun.

(** [re.sub('(.)([A-Z][a-z]+)', r'\1_\2', name)]: matches are found from
    left to right and do not overlap; a match takes all the lower-case
    letters that follow. *)
Fixpoint sub_words (st : scan) (s : text) : text :=
  match s with
  | [] => []
  | c :: rest =>
      match st with
      | AtUpper => c :: sub_words InRun rest
      | InRun =>
          if is_lower c then c :: sub_words InRun rest
          else if is_dot c && starts_word rest
               then c :: underscore :: sub_words AtUpper rest
               else c :: sub_words Looking rest
      | Looking =>
          if is_dot c && starts_word rest
          then c :: underscore :: sub_words AtUpper rest
          else c :: sub_words Looking rest
      end
  end.

(** [re.sub('([a-z0-9])([A-Z])', r'\1_\2', name)]. *)
Fixpoint sub_humps (s : text) : text :=
  match s with
  | [] => []
  | a :: tl =>
      match tl with
      | b :: rest =>
          if is_lower_or_digit a && is_upper b
          then a :: underscore :: b :: sub_humps rest
          else a :: sub_humps tl
      | [] => [a]
      end
  end.

(** The name after the two substitutions, before it is lower-cased. *)
Definition underscored (class_name : text) : text :=
  sub_humps (sub_words Looking class_name).

Section Lower.

(** [str.lower] is Python's own and is no function of the single
    characters (a capital sigma becomes one of two letters, by its place in
    the word): it is a parameter here. *)
Variable lower : text -> text.

(** [TableNameMixin.__tablename__], from the name of the class. *)
Definition tablename (class_name : text) : text :=
  let name := sub_words Looking class_name in
  lower (sub_humps name).

End Lower.

(** [chr(c).lower()] for a code point below 256: the letters A-Z and the
    upper-case letters of the range 192-222 (all but the sign 215) move up
    by 32. *)
Definition lower_latin1 (c : N) : N :=
  if ((65 <=? c) && (c <=? 90) || (192 <=? c) && (c <=? 222) && negb (c =? 215))%N
  then (c + 32)%N
  else c.

(** [str.lower] on the strings of code points below 256, where it works
    character by character; other code points are left as they are. *)
Definition latin1_lower (s : text) : text := map lower_latin1 s.

(** Every code point is below 256. *)
Definition latin1 (s : text) : Prop := Forall (fun c => (c < 256)%N) s.

(** The string without its underscores. *)
Fixpoint without_underscores (s : text) : text :=
  match s with
  | [] => []
  | c :: rest =>
      if (c =? underscore)%N then without_underscores rest
      else c :: without_underscores rest
  end.

(** The string has an upper-case letter A-Z. *)
Fixpoint has_upper (s : text) : bool :=
  match s with
  | [] => false
  | c :: rest => is_upper c || has_upper rest
  end.

End Base.

(** ** [logging.py]: the chain of processors *)

Module LoggingChain.

Import Logging LoggingContext.

(** [structlog.contextvars.merge_contextvars]: the event is laid over a
    copy of the context-local store. *)
Definition merge_contextvars (store : gmap string py_value)
  (logger : py_value) (method_name : string) (event_dict : gmap string py_value)
  : gmap string py_value :=
  event_dict ∪ store.

(** The first three of [shared_processors] in [setup_logging], in their
    order: the context is merged, the application context is added, the
    sensitive data is censored. *)
Definition first_processors (settings : Settings.Settings) (store : gmap string py_value)
  (logger : py_value) (method_name : string) (event_dict : gmap string py_value)
  : gmap string py_value :=
  censor_sensitive_data logger method_name
    (add_app_context settings logger method_name
       (merge_contextvars store logger method_name event_dict)).

Inductive renderer : Type := ConsoleRenderer | JSONRenderer.

(** The renderer [setup_logging] puts at the end of the chain. *)
Definition chosen_renderer (settings : Settings.Settings) : renderer :=
  if Settings.is_development settings then ConsoleRenderer else JSONRenderer.

End LoggingChain.

(** * Properties *)

(** ** Floats: comparisons against 0 and 1 agree with the rationals *)

Module PyFloatFacts.

Import PyFloat.

Lemma digits2_pos_bounds (m : positive) :
  2 ^ (Zpos (digits2_pos m) - 1) <= Zpos m < 2 ^ Zpos (digits2_pos m).
Proof.
  induction m as [m IH | m IH |]; cbn [digits2_pos].
  - rewrite Pos2Z.inj_succ.
    replace (Z.succ (Zpos (digits2_pos m)) - 1) with (Z.succ (Zpos (digits2_pos m) - 1)) by lia.
    rewrite !Z.pow_succ_r by lia. lia.
  - rewrite Pos2Z.inj_succ.
    replace (Z.succ (Zpos (digits2_pos m)) - 1) with (Z.succ (Zpos (digits2_pos m) - 1)) by lia.
    rewrite !Z.pow_succ_r by lia. lia.
  - cbn. lia.
Qed.

(** What validity says about a mantissa: at most 53 bits, and exactly 53
    above the smallest exponent. *)
Lemma bounded_digits (m : positive) (e : Z) :
  bounded prec emax m e = true ->
  Zpos (digits2_pos m) <= 53 /\ (-1074 < e -> Zpos (digits2_pos m) = 53).
Proof.
  unfold bounded, canonical_mantissa, fexp, emin, prec, emax.
  intros H. apply andb_prop in H as [H _]. apply Z.eqb_eq in H. lia.
Qed.

Lemma pow2_nonpos_exponent (e : Z) :
  e <= 0 -> ((2 # 1) ^ e == / inject_Z (2 ^ (- e)))%Q.
Proof.
  intros He. rewrite Zpower_Qpower by lia.
  replace e with (- - e) at 1 by lia. now rewrite Qpower_opp.
Qed.

Lemma mantissa_le_one (m : positive) (e : Z) :
  e <= 0 -> ((Zpos m # 1) * (2 # 1) ^ e <= 1)%Q <-> Zpos m <= 2 ^ (- e).
Proof.
  intros He. rewrite pow2_nonpos_exponent by exact He.
  assert (Hp : 0 < 2 ^ (- e)) by (apply Z.pow_pos_nonneg; lia).
  assert (HpQ : (0 < inject_Z (2 ^ (- e)))%Q).
  { change 0%Q with (inject_Z 0). now rewrite <- Zlt_Qlt. }
  change ((Zpos m # 1) * / inject_Z (2 ^ (- e)))%Q with (inject_Z (Zpos m) / inject_Z (2 ^ (- e)))%Q.
  split; intros H.
  - rewrite Zle_Qle.
    assert (E : (inject_Z (Zpos m) == inject_Z (Zpos m) / inject_Z (2 ^ (- e)) * inject_Z (2 ^ (- e)))%Q).
    { field. lra. }
    assert (H' := Qmult_le_compat_r _ _ (inject_Z (2 ^ (- e))) H (Qlt_le_weak _ _ HpQ)).
    rewrite <- E, Qmult_1_l in H'. exact H'.
  - apply Qle_shift_div_r; [exact HpQ |].
    rewrite Qmult_1_l. now rewrite <- Zle_Qle.
Qed.

Lemma mantissa_gt_one (m : positive) (e : Z) :
  0 < e -> ~ ((Zpos m # 1) * (2 # 1) ^ e <= 1)%Q.
Proof.
  intros He H.
  assert (H2 : (2 <= (2 # 1) ^ e)%Q).
  { change 2%Q with ((2 # 1) ^ 1)%Q at 1. apply Qpower_le_compat_l; [lia | lra]. }
  assert (H1 : (1 <= Zpos m # 1)%Q).
  { change 1%Q with (inject_Z 1). change (Zpos m # 1)%Q with (inject_Z (Zpos m)).
    rewrite <- Zle_Qle. lia. }
  nra.
Qed.

(** The literals of the sources, as the doubles they denote (mantissa and
    exponent of [float.hex]). *)
Lemma decimal_literals :
  decimal 85 2 = S754_finite false 7656119366529843 (-53) /\
  decimal 60 2 = S754_finite false 5404319552844595 (-53) /\
  decimal 30 2 = S754_finite false 5404319552844595 (-54) /\
  decimal 35 2 = S754_finite false 6305039478318694 (-54) /\
  decimal 25 2 = S754_finite false 4503599627370496 (-54) /\
  decimal 10 2 = S754_finite false 7205759403792794 (-56) /\
  decimal 1 6 = S754_finite false 4722366482869645 (-72).
Proof. repeat split; vm_compute; reflexivity. Qed.

Lemma one_eq : one = S754_finite false 4503599627370496 (-52).
Proof. vm_compute. reflexivity. Qed.

Lemma zero_eq : zero = S754_zero false.
Proof. vm_compute. reflexivity. Qed.

Lemma pow2_pos (e : Z) : (0 < (2 # 1) ^ e)%Q.
Proof. apply Qpower_0_lt. lra. Qed.

(** A valid positive finite float compares below [1.0] exactly when the
    rational it stands for is at most 1. *)
Lemma leb_one_finite (m : positive) (e : Z) :
  bounded prec emax m e = true ->
  leb (S754_finite false m e) one = true <-> ((Zpos m # 1) * (2 # 1) ^ e <= 1)%Q.
Proof.
  intros Hb. destruct (bounded_digits m e Hb) as [Hd Hn].
  pose proof (digits2_pos_bounds m) as [Hlo Hhi].
  rewrite one_eq. unfold leb, SFleb, SFcompare.
  destruct (Z.compare_spec e (-52)) as [-> | Hlt | Hgt].
  - rewrite mantissa_le_one by lia. change (2 ^ (- -52)) with 4503599627370496.
    rewrite Pos.compare_cont_spec. cbn [Pos.switch_Eq].
    clear Hlo Hhi Hd Hn Hb.
    destruct (Pos.compare_spec m 4503599627370496) as [Hc | Hc | Hc].
    + subst m. split; [intros _; lia | reflexivity].
    + apply Pos2Z.pos_lt_pos in Hc. split; [intros _; lia | reflexivity].
    + apply Pos2Z.pos_lt_pos in Hc. split; [discriminate | intros H; lia].
  - rewrite mantissa_le_one by lia. split; [intros _ | reflexivity].
    assert (2 ^ Zpos (digits2_pos m) <= 2 ^ (- e)) by (apply Z.pow_le_mono_r; lia).
    lia.
  - split; [discriminate |]. intros H. exfalso.
    destruct (Z_le_gt_dec e 0) as [He | He].
    + apply mantissa_le_one in H; [| exact He].
      rewrite Hn in Hlo by lia.
      assert (2 ^ (- e) < 2 ^ (53 - 1)) by (apply Z.pow_lt_mono_r; lia).
      lia.
    + apply (mantissa_gt_one m e); [lia | exact H].
Qed.

(** The test [0 <= v <= 1] of the source, on any float, decides
    membership of the unit interval. *)
Lemma range_test_spec (v : float) :
  is_float v = true ->
  leb zero v && leb v one = true <-> in_unit_interval v.
Proof.
  intros Hv. destruct v as [s | s | | s m e].
  - split; [intros _ | reflexivity].
    exists 0%Q. repeat split; lra.
  - split.
    + destruct s; discriminate.
    + intros (q & Hq & _). discriminate.
  - split; [discriminate |]. intros (q & Hq & _). discriminate.
  - destruct s.
    + split; [discriminate |]. intros (q & Hq & H0 & _). exfalso.
      injection Hq as <-. pose proof (pow2_pos e) as Hp.
      assert (Hm : (Zneg m # 1 < 0)%Q) by (unfold Qlt; cbn; lia).
      nra.
    + cbn in Hv. rewrite zero_eq.
      change (leb (S754_zero false) (S754_finite false m e)) with true.
      rewrite andb_true_l, (leb_one_finite m e Hv). split.
      * intros H. eexists. split; [reflexivity |]. split; [| exact H].
        pose proof (pow2_pos e) as Hp.
        assert (Hm : (0 < Zpos m # 1)%Q) by (unfold Qlt; cbn; lia).
        nra.
      * intros (q & Hq & _ & H1). injection Hq as <-. exact H1.
Qed.

End PyFloatFacts.

(** ** Strings: splitting and stripping *)

Module PyStrFacts.

Import PyStr.

(** The white-space characters below 256: tab to carriage return, the
    four separators 28 to 31, the space, next line and no-break space. *)
Lemma isspace_table :
  List.filter (fun n => isspace (ascii_of_N n)) (map N.of_nat (List.seq 0 256))
  = [9; 10; 11; 12; 13; 28; 29; 30; 31; 32; 133; 160]%N.
Proof. vm_compute. reflexivity. Qed.

(** [lower_char] moves exactly the 26 letters and the 30 accented capitals,
    each by 32. *)
Lemma lower_char_table :
  List.filter (fun n => negb (N.eqb (N_of_ascii (lower_char (ascii_of_N n))) n))
    (map N.of_nat (List.seq 0 256))
  = (map N.of_nat (List.seq 65 26 ++ List.seq 192 23 ++ List.seq 216 7)) /\
  forallb (fun n => let m := N_of_ascii (lower_char (ascii_of_N n)) in
                    N.eqb m n || N.eqb m (n + 32))
    (map N.of_nat (List.seq 0 256)) = true.
Proof. split; vm_compute; reflexivity. Qed.

Lemma append_cons (c : ascii) (s t : string) :
  String.append (String c s) t = String c (String.append s t).
Proof. reflexivity. Qed.

Lemma append_nil (t : string) : String.append EmptyString t = t.
Proof. reflexivity. Qed.

Lemma split_nonempty (sep : ascii) (s : string) : split sep s <> [].
Proof.
  destruct s as [| c r]; cbn; [discriminate |].
  destruct (Ascii.eqb c sep); [discriminate |].
  destruct (split sep r); discriminate.
Qed.

Lemma join_push (sep c : ascii) (h : string) (t : list string) :
  join sep (String c h :: t) = String c (join sep (h :: t)).
Proof. destruct t; reflexivity. Qed.

(** Joining the pieces with the separator gives the string back. *)
Lemma join_split (sep : ascii) (s : string) : join sep (split sep s) = s.
Proof.
  induction s as [| c r IH]; [reflexivity |].
  cbn [split]. destruct (Ascii.eqb_spec c sep) as [-> | Hne].
  - pose proof (split_nonempty sep r) as Hn.
    cbn [join]. destruct (split sep r) as [| h t]; [contradiction |].
    rewrite append_nil. now rewrite IH.
  - pose proof (split_nonempty sep r) as Hn.
    destruct (split sep r) as [| h t]; [contradiction |].
    now rewrite join_push, IH.
Qed.

(** No piece contains the separator. *)
Lemma split_no_sep (sep : ascii) (s : string) :
  Forall (fun e => has_char sep e = false) (split sep s).
Proof.
  induction s as [| c r IH]; cbn [split].
  - repeat constructor.
  - destruct (Ascii.eqb_spec c sep) as [-> | Hne].
    + constructor; [reflexivity | exact IH].
    + destruct (split sep r) as [| h t].
      * constructor; [| constructor]. cbn.
        destruct (Ascii.eqb_spec c sep); [contradiction | reflexivity].
      * inversion IH as [| ? ? Hh Ht]; subst. constructor; [| exact Ht].
        cbn. destruct (Ascii.eqb_spec c sep); [contradiction | exact Hh].
Qed.

Lemma lstrip_decompose (s : string) :
  exists l, s = String.append l (lstrip s) /\ all_space l = true.
Proof.
  induction s as [| c r (l & Hl & Hs)]; cbn [lstrip].
  - exists EmptyString. split; reflexivity.
  - destruct (isspace c) eqn:Hc.
    + exists (String c l). split; [rewrite append_cons; f_equal; exact Hl | cbn; now rewrite Hc, Hs].
    + exists EmptyString. split; reflexivity.
Qed.

Lemma lstrip_first (s : string) (c : ascii) :
  first_char (lstrip s) = Some c -> isspace c = false.
Proof.
  induction s as [| a r IH]; cbn [lstrip]; [discriminate |].
  destruct (isspace a) eqn:Ha; [exact IH |].
  cbn. intros [= <-]. exact Ha.
Qed.

Lemma rstrip_decompose (s : string) :
  exists r, s = String.append (rstrip s) r /\ all_space r = true.
Proof.
  induction s as [| c t (r & Hr & Hs)]; cbn [rstrip].
  - exists EmptyString. split; reflexivity.
  - destruct (rstrip t) as [| a t'] eqn:Ht.
    + destruct (isspace c) eqn:Hc.
      * exists (String c r). split; [rewrite append_nil in *; f_equal; exact Hr | cbn; now rewrite Hc, Hs].
      * exists r. split; [rewrite append_cons, append_nil in *; f_equal; exact Hr | exact Hs].
    + exists r. split; [| exact Hs]. rewrite !append_cons in *. f_equal. exact Hr.
Qed.

Lemma rstrip_last (s : string) (c : ascii) :
  last_char (rstrip s) = Some c -> isspace c = false.
Proof.
  induction s as [| a t IH]; cbn [rstrip]; [discriminate |].
  destruct (rstrip t) as [| b t'] eqn:Ht.
  - destruct (isspace a) eqn:Ha; [discriminate |].
    cbn. intros [= <-]. exact Ha.
  - cbn [last_char]. exact IH.
Qed.

Lemma rstrip_first (s : string) (c : ascii) :
  first_char s = Some c -> isspace c = false -> first_char (rstrip s) = Some c.
Proof.
  destruct s as [| a t]; [discriminate |].
  cbn [first_char rstrip]. intros [= ->] Hc.
  destruct (rstrip t); [now rewrite Hc | reflexivity].
Qed.

Lemma rstrip_first_inv (s : string) (c : ascii) :
  first_char (rstrip s) = Some c -> first_char s = Some c.
Proof.
  destruct s as [| a t]; [discriminate |].
  cbn [first_char rstrip].
  destruct (rstrip t); [destruct (isspace a); [discriminate |] |]; exact id.
Qed.

(** [strip] removes a run of white space at each end and nothing else,
    and what is left neither starts nor ends with white space. *)
Lemma strip_spec (s : string) :
  (exists l r, s = String.append l (String.append (strip s) r) /\
               all_space l = true /\ all_space r = true) /\
  (forall c, first_char (strip s) = Some c -> isspace c = false) /\
  (forall c, last_char (strip s) = Some c -> isspace c = false).
Proof.
  unfold strip. split; [| split].
  - destruct (lstrip_decompose s) as (l & Hl & Hls).
    destruct (rstrip_decompose (lstrip s)) as (r & Hr & Hrs).
    exists l, r. split; [| split; assumption].
    now rewrite <- Hr.
  - intros c Hc. apply (lstrip_first s). now apply rstrip_first_inv.
  - intros c. apply rstrip_last.
Qed.

End PyStrFacts.

(** ** Configuration *)

Module ConfigFacts.

Import PyFloat Config.

Lemma validate_in_range (v : float) :
  is_float v = true -> in_unit_interval v -> validate_confidence_range v = Ok v.
Proof.
  intros Hv Hin. apply (PyFloatFacts.range_test_spec v Hv) in Hin.
  unfold validate_confidence_range. now rewrite Hin.
Qed.

Lemma validate_out_of_range (v : float) :
  is_float v = true -> ~ in_unit_interval v ->
  validate_confidence_range v = Raise (ValueError range_message).
Proof.
  intros Hv Hout. unfold validate_confidence_range.
  destruct (leb zero v && leb v one) eqn:Ht; [| reflexivity].
  exfalso. apply Hout. now apply (PyFloatFacts.range_test_spec v Hv).
Qed.

(** The text of the entry for a threshold out of range. *)
Lemma value_error_text :
  String.append "Value error, " range_message
  = "Value error, Confidence threshold must be between 0 and 1"%string.
Proof. reflexivity. Qed.

Lemma parsed_inj {A : Type} (x y : A) : Parsed x = Parsed y -> x = y.
Proof. intros H. exact (f_equal (configured x) H). Qed.

(** The three entries of [threshold_fields]. *)
Lemma threshold_fields_cases (alias : string) (rd : ThresholdsEnv -> env_var float)
  (get : ThresholdsConfig -> float) (dflt : float) :
  In (alias, rd, get, dflt) threshold_fields ->
  (alias = "CONFIDENCE_AUTO_RELEASE_MIN"%string /\ rd = CONFIDENCE_AUTO_RELEASE_MIN /\
   get = auto_release_min /\ dflt = decimal 85 2) \/
  (alias = "CONFIDENCE_APPROVAL_MIN"%string /\ rd = CONFIDENCE_APPROVAL_MIN /\
   get = approval_min /\ dflt = decimal 60 2) \/
  (alias = "CONFIDENCE_ESCALATE_MAX"%string /\ rd = CONFIDENCE_ESCALATE_MAX /\
   get = escalate_max /\ dflt = decimal 60 2).
Proof.
  unfold threshold_fields. intros [E | [E | [E | []]]].
  all: apply pair_equal_spec in E; destruct E as [E E4];
    apply pair_equal_spec in E; destruct E as [E E3];
    apply pair_equal_spec in E; destruct E as [E1 E2].
  all: symmetry in E1, E2, E3, E4; tauto.
Qed.

Lemma validated_field_parsed_in (alias : string) (d v : float) :
  is_float v = true -> in_unit_interval v ->
  validated_field alias d (Parsed v) = Ok v.
Proof.
  intros Hv Hin. cbn [validated_field]. now rewrite (validate_in_range v Hv Hin).
Qed.

Lemma validated_field_error (alias : string) (d v : float) :
  is_float v = true -> ~ in_unit_interval v ->
  validated_field alias d (Parsed v)
  = Raise [value_error alias (String.append "Value error, " range_message)].
Proof.
  intros Hv Hout. cbn [validated_field]. now rewrite (validate_out_of_range v Hv Hout).
Qed.

Lemma validated_field_ok (alias : string) (d : float) (raw : env_var float) :
  (forall v, raw = Parsed v -> is_float v = true) ->
  is_ok (validated_field alias d raw) = true <->
  raw <> Unparsable /\ (forall v, raw = Parsed v -> in_unit_interval v).
Proof.
  intros Hf. destruct raw as [| v |].
  - cbn. split; [intros _; split; [discriminate | intros v; discriminate] | reflexivity].
  - destruct (leb zero v && leb v one) eqn:Ht.
    + apply (PyFloatFacts.range_test_spec v (Hf v eq_refl)) in Ht.
      rewrite (validated_field_parsed_in alias d v (Hf v eq_refl) Ht). cbn.
      split; [| reflexivity]. intros _. split; [discriminate |]. now intros w [= <-].
    + assert (Hout : ~ in_unit_interval v).
      { intros H. apply (PyFloatFacts.range_test_spec v (Hf v eq_refl)) in H. congruence. }
      rewrite (validated_field_error alias d v (Hf v eq_refl) Hout). cbn.
      split; [discriminate |]. intros [_ H]. exfalso. apply Hout. now apply H.
  - cbn. split; [discriminate | intros [H _]; now contradiction H].
Qed.

Lemma validated_field_value (alias : string) (d : float) (raw : env_var float) (x : float) :
  validated_field alias d raw = Ok x -> x = configured d raw.
Proof.
  destruct raw as [| v |]; cbn [validated_field configured];
    [now intros [= <-] | | discriminate].
  unfold validate_confidence_range.
  destruct (leb zero v && leb v one); cbn; [now intros [= <-] | discriminate].
Qed.

Lemma plain_field_ok (alias : string) (d : Z) (raw : env_var Z) :
  is_ok (plain_field alias d raw) = true <-> raw <> Unparsable.
Proof.
  destruct raw; cbn; split; try discriminate; try reflexivity.
  intros H. now contradiction H.
Qed.

Lemma plain_field_value (alias : string) (d : Z) (raw : env_var Z) (x : Z) :
  plain_field alias d raw = Ok x -> x = configured d raw.
Proof. destruct raw; cbn; [now intros [= <-] | now intros [= <-] | discriminate]. Qed.

(** Every entry a field contributes is located at its alias. *)
Lemma validated_field_loc (alias : string) (d : float) (raw : env_var float) (e : error_detail) :
  In e (errors_of (validated_field alias d raw)) -> loc_of e = alias.
Proof.
  destruct raw as [| v |]; cbn [validated_field errors_of].
  - intros [].
  - destruct (validate_confidence_range v) as [v' | [msg]]; cbn [errors_of].
    + intros [].
    + intros [<- | []]. reflexivity.
  - intros [<- | []]. reflexivity.
Qed.

Lemma plain_field_loc (alias : string) (d : Z) (raw : env_var Z) (e : error_detail) :
  In e (errors_of (plain_field alias d raw)) -> loc_of e = alias.
Proof.
  destruct raw as [| v |]; cbn [plain_field errors_of];
    [intros [] | intros [] | intros [<- | []]; reflexivity].
Qed.

(** What a float field contributes to the error of a failed load. *)
Lemma errors_of_validated (alias : string) (d : float) (raw : env_var float) :
  (forall v, raw = Parsed v -> is_float v = true) ->
  (forall e, In e (errors_of (validated_field alias d raw)) ->
     e = value_error alias (String.append "Value error, " range_message) \/
     e = float_parsing alias) /\
  (In (value_error alias (String.append "Value error, " range_message))
      (errors_of (validated_field alias d raw))
   <-> exists v, raw = Parsed v /\ ~ in_unit_interval v) /\
  (In (float_parsing alias) (errors_of (validated_field alias d raw))
   <-> raw = Unparsable).
Proof.
  intros Hf. destruct raw as [| v |].
  - cbn [validated_field errors_of]. split; [intros e [] |]. split.
    + split; [intros [] | intros (v & Hv & _); discriminate Hv].
    + split; [intros [] | discriminate].
  - destruct (leb zero v && leb v one) eqn:Ht.
    + apply (PyFloatFacts.range_test_spec v (Hf v eq_refl)) in Ht.
      rewrite (validated_field_parsed_in alias d v (Hf v eq_refl) Ht).
      cbn [errors_of]. split; [intros e [] |]. split.
      * split; [intros [] |]. intros (w & [= <-] & Hout). now contradiction Hout.
      * split; [intros [] | discriminate].
    + assert (Hout : ~ in_unit_interval v).
      { intros H. apply (PyFloatFacts.range_test_spec v (Hf v eq_refl)) in H. congruence. }
      rewrite (validated_field_error alias d v (Hf v eq_refl) Hout).
      cbn [errors_of]. split; [intros e [<- | []]; now left |]. split.
      * split; [intros _; now exists v | intros _; now left].
      * split; [intros [H | []]; discriminate H | discriminate].
  - cbn [validated_field errors_of]. split; [intros e [<- | []]; now right |]. split.
    + split; [intros [H | []]; discriminate H | intros (v & Hv & _); discriminate Hv].
    + split; [reflexivity | intros _; now left].
Qed.

(** What an integer field contributes. *)
Lemma errors_of_plain (alias : string) (d : Z) (raw : env_var Z) :
  (forall e, In e (errors_of (plain_field alias d raw)) -> e = int_parsing alias) /\
  (In (int_parsing alias) (errors_of (plain_field alias d raw)) <-> raw = Unparsable).
Proof.
  destruct raw as [| v |]; cbn [plain_field errors_of].
  - split; [intros e [] | split; [intros [] | discriminate]].
  - split; [intros e [] | split; [intros [] | discriminate]].
  - split; [intros e [<- | []]; reflexivity | split; [reflexivity | intros _; now left]].
Qed.

Lemma load_ok_fields (env : ThresholdsEnv) (cfg : ThresholdsConfig) :
  load_thresholds env = Ok cfg ->
  validated_field "CONFIDENCE_AUTO_RELEASE_MIN" (decimal 85 2) (CONFIDENCE_AUTO_RELEASE_MIN env)
    = Ok (auto_release_min cfg) /\
  validated_field "CONFIDENCE_APPROVAL_MIN" (decimal 60 2) (CONFIDENCE_APPROVAL_MIN env)
    = Ok (approval_min cfg) /\
  validated_field "CONFIDENCE_ESCALATE_MAX" (decimal 60 2) (CONFIDENCE_ESCALATE_MAX env)
    = Ok (escalate_max cfg) /\
  plain_field "HOLD_EXTENSION_DEFAULT" 7 (HOLD_EXTENSION_DEFAULT env)
    = Ok (hold_extension_default cfg) /\
  plain_field "HOLD_EXTENSION_HIGH_RISK" 30 (HOLD_EXTENSION_HIGH_RISK env)
    = Ok (hold_extension_high_risk cfg).
Proof.
  unfold load_thresholds.
  destruct (validated_field "CONFIDENCE_AUTO_RELEASE_MIN" _ _) as [a | ea];
    destruct (validated_field "CONFIDENCE_APPROVAL_MIN" _ _) as [p | ep];
    destruct (validated_field "CONFIDENCE_ESCALATE_MAX" _ _) as [e | ee];
    destruct (plain_field "HOLD_EXTENSION_DEFAULT" _ _) as [d | ed];
    destruct (plain_field "HOLD_EXTENSION_HIGH_RISK" _ _) as [h | eh];
    try discriminate.
  intros [= <-]. now repeat split.
Qed.

Lemma load_ok_iff (env : ThresholdsEnv) :
  is_ok (load_thresholds env) = true <->
  is_ok (validated_field "CONFIDENCE_AUTO_RELEASE_MIN" (decimal 85 2)
           (CONFIDENCE_AUTO_RELEASE_MIN env)) = true /\
  is_ok (validated_field "CONFIDENCE_APPROVAL_MIN" (decimal 60 2)
           (CONFIDENCE_APPROVAL_MIN env)) = true /\
  is_ok (validated_field "CONFIDENCE_ESCALATE_MAX" (decimal 60 2)
           (CONFIDENCE_ESCALATE_MAX env)) = true /\
  is_ok (plain_field "HOLD_EXTENSION_DEFAULT" 7 (HOLD_EXTENSION_DEFAULT env)) = true /\
  is_ok (plain_field "HOLD_EXTENSION_HIGH_RISK" 30 (HOLD_EXTENSION_HIGH_RISK env)) = true.
Proof.
  unfold load_thresholds.
  destruct (validated_field "CONFIDENCE_AUTO_RELEASE_MIN" _ _) as [a | ea];
    destruct (validated_field "CONFIDENCE_APPROVAL_MIN" _ _) as [p | ep];
    destruct (validated_field "CONFIDENCE_ESCALATE_MAX" _ _) as [e | ee];
    destruct (plain_field "HOLD_EXTENSION_DEFAULT" _ _) as [d | ed];
    destruct (plain_field "HOLD_EXTENSION_HIGH_RISK" _ _) as [h | eh];
    cbn [is_ok]; intuition discriminate.
Qed.

(** A failed field leaves an entry. *)
Lemma validated_field_raise (alias : string) (d : float) (raw : env_var float)
  (es : list error_detail) :
  validated_field alias d raw = Raise es -> es <> [].
Proof.
  destruct raw as [| v |]; cbn [validated_field]; [discriminate | |].
  - destruct (validate_confidence_range v) as [v' | [msg]]; [discriminate |].
    intros [= <-]. discriminate.
  - intros [= <-]. discriminate.
Qed.

Lemma plain_field_raise (alias : string) (d : Z) (raw : env_var Z) (es : list error_detail) :
  plain_field alias d raw = Raise es -> es <> [].
Proof.
  destruct raw as [| v |]; cbn [plain_field]; try discriminate.
  intros [= <-]. discriminate.
Qed.

(** The error of a failed load is the entries of the five fields, in the
    order of the fields, and there is at least one. *)
Lemma load_raise (env : ThresholdsEnv) (errs : list error_detail) :
  load_thresholds env = Raise errs ->
  errs <> [] /\
  errs = errors_of (validated_field "CONFIDENCE_AUTO_RELEASE_MIN" (decimal 85 2)
                      (CONFIDENCE_AUTO_RELEASE_MIN env))
         ++ errors_of (validated_field "CONFIDENCE_APPROVAL_MIN" (decimal 60 2)
                         (CONFIDENCE_APPROVAL_MIN env))
         ++ errors_of (validated_field "CONFIDENCE_ESCALATE_MAX" (decimal 60 2)
                         (CONFIDENCE_ESCALATE_MAX env))
         ++ errors_of (plain_field "HOLD_EXTENSION_DEFAULT" 7 (HOLD_EXTENSION_DEFAULT env))
         ++ errors_of (plain_field "HOLD_EXTENSION_HIGH_RISK" 30
                         (HOLD_EXTENSION_HIGH_RISK env)).
Proof.
  unfold load_thresholds.
  destruct (validated_field "CONFIDENCE_AUTO_RELEASE_MIN" _ _) as [a | ea] eqn:Ea;
    destruct (validated_field "CONFIDENCE_APPROVAL_MIN" _ _) as [p | ep] eqn:Ep;
    destruct (validated_field "CONFIDENCE_ESCALATE_MAX" _ _) as [e | ee] eqn:Ee;
    destruct (plain_field "HOLD_EXTENSION_DEFAULT" _ _) as [d | ed] eqn:Ed;
    destruct (plain_field "HOLD_EXTENSION_HIGH_RISK" _ _) as [h | eh] eqn:Eh;
    try discriminate; intros [= <-]; (split; [| reflexivity]);
    unfold errors_of;
    try (apply validated_field_raise in Ea);
    try (apply validated_field_raise in Ep);
    try (apply validated_field_raise in Ee);
    try (apply plain_field_raise in Ed);
    try (apply plain_field_raise in Eh);
    intros Happ;
    repeat match goal with
           | H : _ ++ _ = [] |- _ => apply app_eq_nil in H; destruct H
           end;
    subst; congruence.
Qed.

Lemma load_errors (env : ThresholdsEnv) (d : error_detail) :
  In d (errors_of (validated_field "CONFIDENCE_AUTO_RELEASE_MIN" (decimal 85 2)
                     (CONFIDENCE_AUTO_RELEASE_MIN env))
        ++ errors_of (validated_field "CONFIDENCE_APPROVAL_MIN" (decimal 60 2)
                        (CONFIDENCE_APPROVAL_MIN env))
        ++ errors_of (validated_field "CONFIDENCE_ESCALATE_MAX" (decimal 60 2)
                        (CONFIDENCE_ESCALATE_MAX env))
        ++ errors_of (plain_field "HOLD_EXTENSION_DEFAULT" 7 (HOLD_EXTENSION_DEFAULT env))
        ++ errors_of (plain_field "HOLD_EXTENSION_HIGH_RISK" 30
                        (HOLD_EXTENSION_HIGH_RISK env))) ->
  exists errs, load_thresholds env = Raise errs /\ In d errs.
Proof.
  unfold load_thresholds.
  destruct (validated_field "CONFIDENCE_AUTO_RELEASE_MIN" _ _) as [a | ea];
    destruct (validated_field "CONFIDENCE_APPROVAL_MIN" _ _) as [p | ep];
    destruct (validated_field "CONFIDENCE_ESCALATE_MAX" _ _) as [e | ee];
    destruct (plain_field "HOLD_EXTENSION_DEFAULT" _ _) as [dd | ed];
    destruct (plain_field "HOLD_EXTENSION_HIGH_RISK" _ _) as [h | eh];
    cbn [errors_of]; intros H; try (eexists; split; [reflexivity | exact H]).
  destruct H.
Qed.

(** Loading succeeds exactly on the acceptable environments. *)
Lemma load_ok_acceptable (env : ThresholdsEnv) :
  env_is_float env ->
  is_ok (load_thresholds env) = true <-> acceptable env.
Proof.
  intros (Ha & Hp & He). unfold acceptable.
  rewrite load_ok_iff.
  rewrite (validated_field_ok _ _ _ Ha), (validated_field_ok _ _ _ Hp),
    (validated_field_ok _ _ _ He), !plain_field_ok.
  tauto.
Qed.

(** A configuration that loads holds the configured values. *)
Lemma load_values (env : ThresholdsEnv) (cfg : ThresholdsConfig) :
  load_thresholds env = Ok cfg ->
  auto_release_min cfg = configured (decimal 85 2) (CONFIDENCE_AUTO_RELEASE_MIN env) /\
  approval_min cfg = configured (decimal 60 2) (CONFIDENCE_APPROVAL_MIN env) /\
  escalate_max cfg = configured (decimal 60 2) (CONFIDENCE_ESCALATE_MAX env) /\
  hold_extension_default cfg = configured 7 (HOLD_EXTENSION_DEFAULT env) /\
  hold_extension_high_risk cfg = configured 30 (HOLD_EXTENSION_HIGH_RISK env).
Proof.
  intros H. apply load_ok_fields in H as (Ha & Hp & He & Hd & Hh).
  apply validated_field_value in Ha, Hp, He.
  apply plain_field_value in Hd, Hh. now repeat split.
Qed.

(** A threshold in range is kept by a load that succeeds, and is not named
    by the error of a load that fails. *)
Lemma in_range_not_blamed (alias : string) (rd : ThresholdsEnv -> env_var float)
  (get : ThresholdsConfig -> float) (dflt : float) (env : ThresholdsEnv) (v : float) :
  In (alias, rd, get, dflt) threshold_fields ->
  is_float v = true -> rd env = Parsed v -> in_unit_interval v ->
  match load_thresholds env with
  | Ok cfg => get cfg = v
  | Raise errs => forall e, In e errs -> loc_of e <> alias
  end.
Proof.
  intros Hin Hv Hrd Hr.
  destruct (load_thresholds env) as [cfg | errs] eqn:Hload.
  - apply load_values in Hload as (Ha & Hp & He & _).
    destruct (threshold_fields_cases _ _ _ _ Hin)
      as [(-> & -> & -> & ->) | [(-> & -> & -> & ->) | (-> & -> & -> & ->)]];
      rewrite Hrd in *; assumption.
  - apply load_raise in Hload as (_ & ->).
    intros e. rewrite !in_app_iff.
    destruct (threshold_fields_cases _ _ _ _ Hin)
      as [(-> & -> & -> & ->) | [(-> & -> & -> & ->) | (-> & -> & -> & ->)]];
      rewrite Hrd, (validated_field_parsed_in _ _ v Hv Hr); cbn [errors_of];
      intros [H | [H | [H | [H | H]]]]; try destruct H;
      first [ apply validated_field_loc in H | apply plain_field_loc in H ];
      rewrite H; discriminate.
Qed.

(** C6.  For each of the three confidence thresholds and a configured
    value that parsed: outside the interval from 0 to 1 (NaN and the
    infinities included) the validator raises and the load fails, with an
    entry for the variable that carries the text of the validator; inside
    the interval the validator returns the value unchanged, a load that
    succeeds holds that value in the field, a load that fails does so for
    other variables only, and the load does succeed as soon as the rest of
    the environment is acceptable.  With nothing configured the load
    succeeds and the thresholds are 0.85, 0.60 and 0.60. *)
Theorem threshold_range_validated :
  (forall alias rd get dflt,
      In (alias, rd, get, dflt) threshold_fields ->
      forall (env : ThresholdsEnv) (v : float),
        is_float v = true ->
        rd env = Parsed v ->
        (~ in_unit_interval v ->
           validate_confidence_range v = Raise (ValueError range_message) /\
           exists errs,
             load_thresholds env = Raise errs /\
             In (value_error alias "Value error, Confidence threshold must be between 0 and 1")
                errs) /\
        (in_unit_interval v ->
           validate_confidence_range v = Ok v /\
           match load_thresholds env with
           | Ok cfg => get cfg = v
           | Raise errs => forall e, In e errs -> loc_of e <> alias
           end /\
           (env_is_float env -> acceptable env ->
            exists cfg, load_thresholds env = Ok cfg /\ get cfg = v))) /\
  load_thresholds unset_env =
    Ok {| auto_release_min := decimal 85 2;
          approval_min := decimal 60 2;
          escalate_max := decimal 60 2;
          hold_extension_default := 7;
          hold_extension_high_risk := 30 |}.
Proof.
  split; [| reflexivity].
  intros alias rd get dflt Hin env v Hv Hrd. split.
  - intros Hout. split; [now apply validate_out_of_range |].
    rewrite <- value_error_text.
    apply load_errors. rewrite !in_app_iff.
    destruct (threshold_fields_cases _ _ _ _ Hin)
      as [(-> & -> & -> & ->) | [(-> & -> & -> & ->) | (-> & -> & -> & ->)]];
      rewrite Hrd, (validated_field_error _ _ v Hv Hout); cbn [errors_of In]; tauto.
  - intros Hr. split; [now apply validate_in_range |].
    pose proof (in_range_not_blamed alias rd get dflt env v Hin Hv Hrd Hr) as Hm.
    split; [exact Hm |].
    intros Hfl Hacc. apply (load_ok_acceptable env Hfl) in Hacc.
    destruct (load_thresholds env) as [cfg | errs]; [| discriminate].
    now exists cfg.
Qed.

(** The approval threshold configured at 0.9 is validated, accepted and
    kept. *)
Lemma threshold_range_validated_witness :
  In ("CONFIDENCE_APPROVAL_MIN", CONFIDENCE_APPROVAL_MIN, approval_min, decimal 60 2)
     threshold_fields /\
  is_float (decimal 9 1) = true /\
  CONFIDENCE_APPROVAL_MIN unordered_env = Parsed (decimal 9 1) /\
  in_unit_interval (decimal 9 1) /\
  validate_confidence_range (decimal 9 1) = Ok (decimal 9 1) /\
  match load_thresholds unordered_env with
  | Ok cfg => approval_min cfg = decimal 9 1
  | Raise errs => forall e, In e errs -> loc_of e <> "CONFIDENCE_APPROVAL_MIN"%string
  end.
Proof.
  assert (H1 : In ("CONFIDENCE_APPROVAL_MIN", CONFIDENCE_APPROVAL_MIN, approval_min,
                   decimal 60 2) threshold_fields) by (right; left; reflexivity).
  assert (H2 : is_float (decimal 9 1) = true) by (vm_compute; reflexivity).
  assert (H3 : CONFIDENCE_APPROVAL_MIN unordered_env = Parsed (decimal 9 1)) by reflexivity.
  assert (H4 : in_unit_interval (decimal 9 1))
    by (apply (PyFloatFacts.range_test_spec _ H2); vm_compute; reflexivity).
  split; [exact H1 |]. split; [exact H2 |]. split; [exact H3 |]. split; [exact H4 |].
  pose proof (proj2 (proj1 threshold_range_validated _ _ _ _ H1 unordered_env
                       (decimal 9 1) H2 H3) H4) as (Hv & Hm & _).
  split; [exact Hv | exact Hm].
Defined.




(** C10.  [allowed_ip_list] is a total function (it raises on no input):
    it is the empty list for the empty string, and otherwise the pieces
    between the commas of the configured string, each with the white space
    at its two ends removed. *)
Theorem allowed_ip_list_spec (self : SecurityConfig) :
  (allowed_ip_ranges self = EmptyString -> allowed_ip_list self = []) /\
  (allowed_ip_ranges self <> EmptyString ->
     allowed_ip_list self = map PyStr.strip (PyStr.split "," (allowed_ip_ranges self)) /\
     PyStr.join "," (PyStr.split "," (allowed_ip_ranges self)) = allowed_ip_ranges self /\
     Forall (fun e => PyStr.has_char "," e = false) (PyStr.split "," (allowed_ip_ranges self))) /\
  (forall e : string,
      (exists l r, e = String.append l (String.append (PyStr.strip e) r) /\
                   PyStr.all_space l = true /\ PyStr.all_space r = true) /\
      (forall c, PyStr.first_char (PyStr.strip e) = Some c -> PyStr.isspace c = false) /\
      (forall c, PyStr.last_char (PyStr.strip e) = Some c -> PyStr.isspace c = false)).
Proof.
  split; [| split].
  - intros H. unfold allowed_ip_list. now rewrite H.
  - intros H. unfold allowed_ip_list.
    destruct (String.eqb_spec (allowed_ip_ranges self) EmptyString) as [E | _]; [contradiction |].
    split; [reflexivity |]. split.
    + apply PyStrFacts.join_split.
    + apply PyStrFacts.split_no_sep.
  - exact PyStrFacts.strip_spec.
Qed.

Lemma allowed_ip_list_spec_witness :
  allowed_ip_list (Build_SecurityConfig "k" 100 "10.0.0.0/8, 192.168.1.1 ")
  = ["10.0.0.0/8"; "192.168.1.1"]%string.
Proof.
  pose proof (allowed_ip_list_spec
                (Build_SecurityConfig "k" 100 "10.0.0.0/8, 192.168.1.1 ")) as (_ & H & _).
  destruct H as (H & _); [discriminate |].
  rewrite H. reflexivity.
Defined.

End ConfigFacts.

(** ** Constants *)

Module ConstantsFacts.

Import PyFloat Constants.

(** C7.  The default weights are keyed by exactly the four validation
    components and carry the weights 0.30, 0.35, 0.25 and 0.10; each is
    non-negative; their sum, both as Python adds them and as exact
    rationals, is within 1e-6 of 1. *)
Theorem default_scoring_weights_valid :
  map fst DEFAULT_SCORING_WEIGHTS = map component_value all_components /\
  NoDup (map fst DEFAULT_SCORING_WEIGHTS) /\
  map snd DEFAULT_SCORING_WEIGHTS = [decimal 30 2; decimal 35 2; decimal 25 2; decimal 10 2] /\
  Forall (fun w => is_float w = true /\ leb zero w = true) (map snd DEFAULT_SCORING_WEIGHTS) /\
  within_tolerance (weights_sum DEFAULT_SCORING_WEIGHTS) = true /\
  (exists q, exact_sum DEFAULT_SCORING_WEIGHTS = Some q /\
             (Qabs (q - 1) <= 1 # 1000000)%Q).
Proof.
  split; [reflexivity |]. split.
  { apply (bool_decide_unpack _). vm_compute. exact I. }
  split; [reflexivity |]. split.
  { cbn [map DEFAULT_SCORING_WEIGHTS snd]. repeat constructor; vm_compute; reflexivity. }
  split; [vm_compute; reflexivity |].
  eexists. split; [vm_compute; reflexivity |].
  vm_compute. discriminate.
Qed.

End ConstantsFacts.

(** ** Log censoring *)

Module LoggingFacts.

Import PyStr Logging.

Lemma startswith_spec (p s : string) :
  startswith p s = true <-> exists post, s = String.append p post.
Proof.
  revert s. induction p as [| a p IH]; intros s.
  - split; [intros _; now exists s | reflexivity].
  - destruct s as [| b s]; cbn [startswith].
    + split; [discriminate | intros (post & H); discriminate].
    + rewrite andb_true_iff, IH. split.
      * intros (Hab & post & ->). apply Ascii.eqb_eq in Hab as ->. now exists post.
      * intros (post & H). injection H as -> ->.
        split; [apply Ascii.eqb_refl | now exists post].
Qed.

(** [p in s] holds exactly when [p] is a substring of [s]. *)
Lemma contains_spec (p s : string) :
  contains p s = true <-> exists pre post, s = String.append pre (String.append p post).
Proof.
  induction s as [| c s IH].
  - cbn [contains]. rewrite orb_false_r, startswith_spec. split.
    + intros (post & H). now exists EmptyString, post.
    + intros (pre & post & H). destruct pre as [| a pre]; [now exists post | discriminate].
  - cbn [contains]. rewrite orb_true_iff, startswith_spec, IH. split.
    + intros [(post & H) | (pre & post & H)].
      * now exists EmptyString, post.
      * exists (String c pre), post. rewrite H. reflexivity.
    + intros (pre & post & H). destruct pre as [| a pre].
      * left. now exists post.
      * right. injection H as -> ->. now exists pre, post.
Qed.

Lemma is_sensitive_spec (key : string) :
  is_sensitive key = true <->
  exists sensitive pre post,
    In sensitive sensitive_keys /\
    lower key = String.append pre (String.append sensitive post).
Proof.
  unfold is_sensitive. rewrite existsb_exists. split.
  - intros (x & Hx & Hc). apply contains_spec in Hc as (pre & post & H).
    now exists x, pre, post.
  - intros (x & pre & post & Hx & H). exists x. split; [exact Hx |].
    apply contains_spec. now exists pre, post.
Qed.

(** The loop over any list of keys. *)
Lemma censor_loop (keys : list string) (d : gmap string py_value) (k : string) :
  foldl censor_key d keys !! k =
  if is_sensitive k && bool_decide (k ∈ keys) then Some redacted else d !! k.
Proof.
  revert d. induction keys as [| a keys IH]; intros d; cbn [foldl].
  - now rewrite andb_false_r.
  - rewrite IH. unfold censor_key.
    destruct (is_sensitive k) eqn:Hk; cbn [andb].
    + destruct (bool_decide_reflect (k ∈ keys)) as [Hin | Hnin].
      * rewrite bool_decide_eq_true_2; [reflexivity | now right].
      * destruct (decide (a = k)) as [-> | Hne].
        -- rewrite Hk, lookup_insert_eq.
           rewrite bool_decide_eq_true_2; [reflexivity | now left].
        -- rewrite bool_decide_eq_false_2.
           ++ destruct (is_sensitive a); [now rewrite lookup_insert_ne | reflexivity].
           ++ rewrite elem_of_cons. intros [-> | H]; [now apply Hne | now apply Hnin].
    + destruct (is_sensitive a) eqn:Ha; [| reflexivity].
      rewrite lookup_insert_ne; [reflexivity |]. intros ->. congruence.
Qed.



End LoggingFacts.

(** ** The list store *)

Module ModelsFacts.

Import Models.

Lemma key_eqb_eq (k1 k2 : string * string) : key_eqb k1 k2 = true <-> k1 = k2.
Proof.
  destruct k1 as [a b], k2 as [c d]. unfold key_eqb. cbn [fst snd].
  rewrite andb_true_iff, !String.eqb_eq. split; [intros [-> ->]; reflexivity | now intros [= -> ->]].
Qed.

Section MapFacts.

Context {A B : Type} (f : A -> B).

Lemma in_map_filter (P : A -> bool) (l : list A) (b : B) :
  In b (map f (List.filter P l)) -> In b (map f l).
Proof.
  rewrite !in_map_iff. intros (x & Hx & Hin).
  apply filter_In in Hin as [Hin _]. now exists x.
Qed.

Lemma nodup_map_filter (P : A -> bool) (l : list A) :
  List.NoDup (map f l) -> List.NoDup (map f (List.filter P l)).
Proof.
  induction l as [| a l IH]; cbn [map List.filter]; [trivial |].
  intros H. inversion H as [| ? ? Hn Hl]; subst.
  destruct (P a); cbn [map]; [| now apply IH].
  constructor; [| now apply IH].
  intros Hin. apply Hn. now apply in_map_filter in Hin.
Qed.

Lemma nodup_map_snoc (l : list A) (x : A) :
  List.NoDup (map f l) -> ~ In (f x) (map f l) -> List.NoDup (map f (l ++ [x])).
Proof.
  induction l as [| a l IH]; cbn [map app]; intros Hl Hx.
  - constructor; [intros [] | constructor].
  - inversion Hl as [| ? ? Hn Hl']; subst. constructor.
    + rewrite map_app, in_app_iff. cbn [map In]. intros [Hin | [E | []]].
      * now apply Hn.
      * apply Hx. left. now symmetry.
    + apply IH; [exact Hl' |]. intros Hin. apply Hx. now right.
Qed.

End MapFacts.

Lemma existsb_id_false (t : table) (i : N) :
  existsb (fun x => N.eqb (id x) i) t = false -> ~ In i (map id t).
Proof.
  intros H Hin. apply in_map_iff in Hin as (x & Hx & Hin).
  assert (E : existsb (fun x => N.eqb (id x) i) t = true).
  { apply existsb_exists. exists x. split; [exact Hin |]. now apply N.eqb_eq. }
  congruence.
Qed.

Lemma existsb_key_false (t : table) (k : string * string) :
  existsb (fun x => key_eqb (entry_key x) k) t = false -> ~ In k (map entry_key t).
Proof.
  intros H Hin. apply in_map_iff in Hin as (x & Hx & Hin).
  assert (E : existsb (fun x => key_eqb (entry_key x) k) t = true).
  { apply existsb_exists. exists x. split; [exact Hin |]. now apply key_eqb_eq. }
  congruence.
Qed.

Lemma insert_row_ok (pk uq : string) (t t' : table) (r : ListEntry) :
  table_ok t -> insert_row pk uq t r = Ok t' -> table_ok t'.
Proof.
  intros [Hid Hkey]. unfold insert_row.
  destruct (negb (columns_fit r)); [discriminate |].
  destruct (existsb (fun x => N.eqb (id x) (id r)) t) eqn:Hi; [discriminate |].
  destruct (existsb (fun x => key_eqb (entry_key x) (entry_key r)) t) eqn:Hk; [discriminate |].
  intros [= <-]. split.
  - apply nodup_map_snoc; [exact Hid | now apply existsb_id_false].
  - apply nodup_map_snoc; [exact Hkey | now apply existsb_key_false].
Qed.

Lemma delete_row_ok (t : table) (i : N) : table_ok t -> table_ok (delete_row t i).
Proof. intros [Hid Hkey]. split; now apply nodup_map_filter. Qed.

(** Rewriting the row of key [i]: rows with another key stay. *)
Lemma rewrite_absent (t : table) (i : N) (r : ListEntry) :
  ~ In i (map id t) -> map (fun x => if N.eqb (id x) i then r else x) t = t.
Proof.
  induction t as [| a t IH]; cbn [map In]; [reflexivity |].
  intros H. destruct (N.eqb_spec (id a) i) as [E | _]; [exfalso; apply H; now left |].
  f_equal. apply IH. intros Hin. apply H. now right.
Qed.

Lemma rewrite_ids (t : table) (i : N) (r : ListEntry) :
  id r = i -> map id (map (fun x => if N.eqb (id x) i then r else x) t) = map id t.
Proof.
  intros Hr. induction t as [| a t IH]; cbn [map]; [reflexivity |].
  rewrite IH. f_equal. destruct (N.eqb_spec (id a) i); congruence.
Qed.

Lemma rewrite_keys (t : table) (i : N) (r : ListEntry) :
  table_ok t ->
  (forall x, In x t -> id x <> i -> entry_key x <> entry_key r) ->
  List.NoDup (map entry_key (map (fun x => if N.eqb (id x) i then r else x) t)).
Proof.
  intros [Hid Hkey]. induction t as [| a t IH]; cbn [map]; intros Hother; [constructor |].
  inversion Hid as [| ? ? Hna Hid']; subst. inversion Hkey as [| ? ? Hka Hkey']; subst.
  destruct (N.eqb_spec (id a) i) as [E | Hne].
  - subst i. rewrite (rewrite_absent t (id a) r Hna). constructor; [| exact Hkey'].
    intros Hin. apply in_map_iff in Hin as (x & Hx & Hin).
    apply (Hother x); [now right | | exact Hx].
    intros E. apply Hna. rewrite <- E. now apply in_map.
  - constructor.
    + intros Hin. apply in_map_iff in Hin as (y & Hy & Hin).
      apply in_map_iff in Hin as (x & Hx & Hin).
      destruct (N.eqb_spec (id x) i) as [E | Hxi]; subst y.
      * apply (Hother a); [now left | exact Hne | now symmetry].
      * apply Hka. rewrite <- Hy. now apply in_map.
    + apply IH; [exact Hid' | exact Hkey' |].
      intros x Hx. apply Hother. now right.
Qed.

Lemma update_row_ok (uq : string) (t t' : table) (i : N) (new : ListEntry) :
  table_ok t -> update_row uq t i new = Ok t' -> table_ok t'.
Proof.
  intros Hok. unfold update_row.
  destruct (find (fun x => N.eqb (id x) i) t) as [old |] eqn:Hf; [| now intros [= <-]].
  apply find_some in Hf as [Hold Hi]. apply N.eqb_eq in Hi.
  cbn zeta. destruct (negb (columns_fit (rewrite_row old new))); [discriminate |].
  destruct (existsb _ t) eqn:He; [discriminate |].
  intros [= <-]. split.
  - rewrite rewrite_ids; [apply Hok | exact Hi].
  - apply rewrite_keys; [exact Hok |].
    intros x Hx Hne E.
    assert (Ht : existsb (fun x => negb (N.eqb (id x) i)
                                   && key_eqb (entry_key x) (entry_key (rewrite_row old new))) t
                 = true).
    { apply existsb_exists. exists x. split; [exact Hx |].
      apply andb_true_iff. split; [| now apply key_eqb_eq].
      apply negb_true_iff. now apply N.eqb_neq. }
    congruence.
Qed.

Lemma execute_ok (s s' : ListStore) (st : statement) :
  table_ok (whitelists s) -> table_ok (blacklists s) ->
  execute s st = Ok s' ->
  table_ok (whitelists s') /\ table_ok (blacklists s').
Proof.
  intros Hw Hb. destruct st as [[|] r | [|] i | [|] i new]; cbn [execute].
  - destruct (insert_row _ _ _ r) as [t |] eqn:E; [| discriminate].
    intros [= <-]. cbn. split; [now apply insert_row_ok in E | exact Hb].
  - destruct (insert_row _ _ _ r) as [t |] eqn:E; [| discriminate].
    intros [= <-]. cbn. split; [exact Hw | now apply insert_row_ok in E].
  - intros [= <-]. cbn. split; [now apply delete_row_ok | exact Hb].
  - intros [= <-]. cbn. split; [exact Hw | now apply delete_row_ok].
  - destruct (update_row _ _ i new) as [t |] eqn:E; [| discriminate].
    intros [= <-]. cbn. split; [now apply update_row_ok in E | exact Hb].
  - destruct (update_row _ _ i new) as [t |] eqn:E; [| discriminate].
    intros [= <-]. cbn. split; [exact Hw | now apply update_row_ok in E].
Qed.

(** A second row with a pair already present is refused by the
    constraint of its table. *)
Lemma duplicate_pair_refused :
  run empty_store [Insert Whitelist (sample_entry 1); Insert Whitelist (sample_entry 2)]
  = Raise (UniqueViolation "uq_whitelist_type_value").
Proof. reflexivity. Qed.

Lemma reachable_ok (s : ListStore) :
  reachable s -> table_ok (whitelists s) /\ table_ok (blacklists s).
Proof.
  induction 1 as [| s s' st _ [Hw Hb] Hex].
  - cbn. repeat split; constructor.
  - now apply (execute_ok s s' st).
Qed.

Lemma run_reachable (sts : list statement) (s s' : ListStore) :
  reachable s -> run s sts = Ok s' -> reachable s'.
Proof.
  revert s. induction sts as [| st sts IH]; intros s Hs; cbn [run].
  - now intros [= <-].
  - destruct (execute s st) as [s1 |] eqn:E; [| discriminate].
    cbn [bind]. apply IH. now apply (reachable_step s s1 st).
Qed.

(** C8.  In every reachable state of the store the pair of entry type and
    value is unique within the whitelist and unique within the blacklist;
    and a state is reachable in which one pair is in both tables. *)
Theorem list_entries_unique_per_list :
  (forall s, reachable s ->
     List.NoDup (map entry_key (whitelists s)) /\
     List.NoDup (map entry_key (blacklists s))) /\
  (exists s k, reachable s /\
     In k (map entry_key (whitelists s)) /\ In k (map entry_key (blacklists s))).
Proof.
  split.
  - intros s Hs. destruct (reachable_ok s Hs) as [[_ Hw] [_ Hb]]. now split.
  - destruct (run empty_store both_lists) as [s |] eqn:E; [| discriminate].
    exists s, ("domain", "example.com")%string. split.
    + apply (run_reachable both_lists empty_store); [constructor | exact E].
    + vm_compute in E. injection E as <-. cbn. split; now left.
Qed.

Lemma list_entries_unique_per_list_witness :
  reachable {| whitelists := [sample_entry 1]; blacklists := [] |} /\
  List.NoDup (map entry_key [sample_entry 1]).
Proof.
  assert (H : reachable {| whitelists := [sample_entry 1]; blacklists := [] |}).
  { apply (reachable_step empty_store _ (Insert Whitelist (sample_entry 1)));
      [constructor | reflexivity]. }
  split; [exact H |].
  exact (proj1 (proj1 list_entries_unique_per_list _ H)).
Defined.

End ModelsFacts.

(** ** The decision and scoring engine *)

Module EngineFacts.

Import Constants Engine.

(** *** Router and resolver *)

Lemma resolve_blacklisted (blacklist whitelist : gset (string * string))
  (sender_email sender_domain sender_ip : string) :
  list_key WL_EMAIL sender_email ∈ blacklist \/
  list_key WL_DOMAIN sender_domain ∈ blacklist \/
  list_key WL_IP sender_ip ∈ blacklist ->
  resolve blacklist whitelist sender_email sender_domain sender_ip = Deny.
Proof.
  intros H. unfold resolve.
  repeat (case_bool_decide; [reflexivity |]).
  tauto.
Qed.

(** C1.  When the list verdict is deny the decision is to escalate, with
    the reason "blacklisted sender", whatever the score, the risk level
    and the policy outcome; and the verdict is deny as soon as the
    blacklist holds the address, the domain or the IP of the sender,
    whatever the whitelist holds. *)
Theorem deny_always_escalates
  (overall : Q) (risk : RiskLevel) (verdict : ListVerdict)
  (policy_outcome : option PolicyOutcome) (thresholds : Thresholds) :
  verdict = Deny ->
  (decision_type (route overall risk verdict policy_outcome thresholds) = ESCALATE /\
   reason (route overall risk verdict policy_outcome thresholds) = "blacklisted sender" /\
   PyStr.contains "blacklist" (reason (route overall risk verdict policy_outcome thresholds))
     = true /\
   list_verdict (route overall risk verdict policy_outcome thresholds) = Deny) /\
  (forall (blacklist whitelist : gset (string * string))
          (sender_email sender_domain sender_ip : string),
      list_key WL_EMAIL sender_email ∈ blacklist \/
      list_key WL_DOMAIN sender_domain ∈ blacklist \/
      list_key WL_IP sender_ip ∈ blacklist ->
      resolve blacklist whitelist sender_email sender_domain sender_ip = Deny /\
      decision_type
        (route overall risk
           (resolve blacklist whitelist sender_email sender_domain sender_ip)
           policy_outcome thresholds) = ESCALATE).
Proof.
  intros ->. split.
  - repeat split.
  - intros bl wl e d i H. rewrite (resolve_blacklisted bl wl e d i H). now split.
Qed.

(** A sender whose domain is whitelisted and whose address is
    blacklisted, with a score of 0.99 and a matching release policy. *)
Lemma deny_always_escalates_witness :
  decision_type
    (route (99 # 100) LOW
       (resolve {[ list_key WL_EMAIL "eve@example.com" ]}
                {[ list_key WL_DOMAIN "example.com" ]}
                "eve@example.com" "example.com" "10.0.0.1")
       (Some {| outcome_rule_id := "R1"; outcome_action := Release;
                outcome_description := "partner" |})
       {| auto_release_min := 85 # 100; approval_min := 60 # 100;
          escalate_max := 60 # 100 |}) = ESCALATE.
Proof.
  refine (proj2 (proj2 (deny_always_escalates (99 # 100) LOW Deny
                          (Some {| outcome_rule_id := "R1"; outcome_action := Release;
                                   outcome_description := "partner" |})
                          {| auto_release_min := 85 # 100; approval_min := 60 # 100;
                             escalate_max := 60 # 100 |} eq_refl)
                   {[ list_key WL_EMAIL "eve@example.com" ]}
                   {[ list_key WL_DOMAIN "example.com" ]}
                   "eve@example.com" "example.com" "10.0.0.1" _)).
  left. apply elem_of_singleton. reflexivity.
Defined.

(** *** Aggregator *)

Lemma in_unit_iff (q : Q) : in_unit q = true <-> (0 <= q /\ q <= 1)%Q.
Proof. unfold in_unit. now rewrite andb_true_iff, !Qle_bool_iff. Qed.

Lemma weights_valid_iff (w : ScoringWeights) :
  weights_valid w = true <->
  (forall c, (0 <= w c)%Q) /\
  (Qabs (w DOMAIN + (w CONTENT + (w SENDER + (w RULES + 0))) - 1) <= 1 # 1000000)%Q.
Proof.
  unfold weights_valid, weights_total. cbn [forallb all_components fold_right].
  rewrite !andb_true_iff, !Qle_bool_iff. split.
  - intros [(Hd & Hc & Hs & Hr & _) Ht]. split; [intros []; assumption | exact Ht].
  - intros [Hw Ht]. repeat split; try apply Hw. exact Ht.
Qed.

(** The scores are collected exactly when every component is present
    with a score in range. *)
Lemma required_scores_ok (input : ValidationInput) :
  is_ok (required_scores all_components input) = true <->
  forall c, exists r, input c = Some r /\ (0 <= score r /\ score r <= 1)%Q.
Proof.
  cbn [required_scores all_components]. split.
  - intros H c.
    destruct (input DOMAIN) as [d |] eqn:Ed; [| discriminate].
    destruct (in_unit (score d)) eqn:Hd; [| discriminate].
    destruct (input CONTENT) as [ct |] eqn:Ec; [| discriminate].
    destruct (in_unit (score ct)) eqn:Hc; [| discriminate].
    destruct (input SENDER) as [sd |] eqn:Es; [| discriminate].
    destruct (in_unit (score sd)) eqn:Hs; [| discriminate].
    destruct (input RULES) as [rl |] eqn:Er; [| discriminate].
    destruct (in_unit (score rl)) eqn:Hr; [| discriminate].
    destruct c; eexists; (split; [eassumption | now apply in_unit_iff]).
  - intros H.
    destruct (H DOMAIN) as (d & -> & Hd). apply in_unit_iff in Hd as ->.
    destruct (H CONTENT) as (ct & -> & Hc). apply in_unit_iff in Hc as ->.
    destruct (H SENDER) as (sd & -> & Hs). apply in_unit_iff in Hs as ->.
    destruct (H RULES) as (rl & -> & Hr). apply in_unit_iff in Hr as ->.
    reflexivity.
Qed.

Lemma required_scores_value (input : ValidationInput) (d ct sd rl : ComponentResult) :
  input DOMAIN = Some d -> input CONTENT = Some ct ->
  input SENDER = Some sd -> input RULES = Some rl ->
  in_unit (score d) = true -> in_unit (score ct) = true ->
  in_unit (score sd) = true -> in_unit (score rl) = true ->
  required_scores all_components input =
  Ok [(DOMAIN, score d); (CONTENT, score ct); (SENDER, score sd); (RULES, score rl)].
Proof.
  intros Ed Ec Es Er Hd Hc Hs Hr. cbn [required_scores all_components].
  now rewrite Ed, Hd, Ec, Hc, Es, Hs, Er, Hr.
Qed.

Lemma aggregate_ok_iff (input : ValidationInput) (w : ScoringWeights) :
  is_ok (aggregate input w) = true <->
  is_ok (required_scores all_components input) = true /\ weights_valid w = true.
Proof.
  unfold aggregate. destruct (required_scores all_components input) as [l |]; cbn.
  - destruct (weights_valid w); cbn; intuition discriminate.
  - intuition discriminate.
Qed.

Lemma weights_total_eq (w : ScoringWeights) :
  (weights_total w == w DOMAIN + w CONTENT + w SENDER + w RULES)%Q.
Proof. unfold weights_total. cbn [fold_right all_components]. ring. Qed.

Lemma required_scores_fail (input : ValidationInput) :
  is_ok (required_scores all_components input) = false <->
  (exists c, input c = None) \/
  (exists c r, input c = Some r /\ ~ (0 <= score r /\ score r <= 1)%Q).
Proof.
  split.
  - cbn [required_scores all_components].
    destruct (input DOMAIN) as [d |] eqn:Ed; [| intros _; left; now exists DOMAIN].
    destruct (in_unit (score d)) eqn:Hd;
      [| intros _; right; exists DOMAIN, d; split; [exact Ed |];
         rewrite <- in_unit_iff; congruence].
    destruct (input CONTENT) as [ct |] eqn:Ec; [| intros _; left; now exists CONTENT].
    destruct (in_unit (score ct)) eqn:Hc;
      [| intros _; right; exists CONTENT, ct; split; [exact Ec |];
         rewrite <- in_unit_iff; congruence].
    destruct (input SENDER) as [sd |] eqn:Es; [| intros _; left; now exists SENDER].
    destruct (in_unit (score sd)) eqn:Hs;
      [| intros _; right; exists SENDER, sd; split; [exact Es |];
         rewrite <- in_unit_iff; congruence].
    destruct (input RULES) as [rl |] eqn:Er; [| intros _; left; now exists RULES].
    destruct (in_unit (score rl)) eqn:Hr;
      [| intros _; right; exists RULES, rl; split; [exact Er |];
         rewrite <- in_unit_iff; congruence].
    discriminate.
  - intros H. destruct (is_ok (required_scores all_components input)) eqn:E; [| reflexivity].
    exfalso. pose proof (proj1 (required_scores_ok input) E) as E'. clear E. rename E' into E.
    destruct H as [(c & Hc) | (c & r & Hc & Hr)]; destruct (E c) as (r' & Hr' & Hin).
    + congruence.
    + apply Hr. congruence.
Qed.

(** C5.  [aggregate] raises a scoring error, and returns no score, exactly
    when one of the four components is absent from the input, or the score
    of a component lies outside the interval from 0 to 1, or the weights
    break their invariant (a negative weight, or a sum further than 1e-6
    from 1). *)
Theorem aggregate_fails_iff (input : ValidationInput) (w : ScoringWeights) :
  (exists e, aggregate input w = Raise e) <->
  (exists c, input c = None) \/
  (exists c r, input c = Some r /\ ~ (0 <= score r /\ score r <= 1)%Q) \/
  ~ ((forall c, (0 <= w c)%Q) /\
     (Qabs (w DOMAIN + w CONTENT + w SENDER + w RULES - 1) <= 1 # 1000000)%Q).
Proof.
  assert (Hw : weights_valid w = true <->
               (forall c, (0 <= w c)%Q) /\
               (Qabs (w DOMAIN + w CONTENT + w SENDER + w RULES - 1) <= 1 # 1000000)%Q).
  { rewrite weights_valid_iff.
    assert (E : (w DOMAIN + (w CONTENT + (w SENDER + (w RULES + 0))) - 1
                 == w DOMAIN + w CONTENT + w SENDER + w RULES - 1)%Q) by ring.
    now rewrite E. }
  assert (Hf : (exists e, aggregate input w = Raise e) <-> is_ok (aggregate input w) = false).
  { destruct (aggregate input w) as [q | e]; cbn; split.
    - intros (e & H). discriminate.
    - discriminate.
    - reflexivity.
    - intros _. now exists e. }
  rewrite Hf.
  pose proof (required_scores_fail input) as Hr.
  pose proof (aggregate_ok_iff input w) as Hok.
  destruct (is_ok (aggregate input w)), (is_ok (required_scores all_components input)),
    (weights_valid w); intuition congruence.
Qed.

Lemma aggregate_value (input : ValidationInput) (w : ScoringWeights)
  (d ct sd rl : ComponentResult) :
  input DOMAIN = Some d -> input CONTENT = Some ct ->
  input SENDER = Some sd -> input RULES = Some rl ->
  (0 <= score d /\ score d <= 1)%Q -> (0 <= score ct /\ score ct <= 1)%Q ->
  (0 <= score sd /\ score sd <= 1)%Q -> (0 <= score rl /\ score rl <= 1)%Q ->
  weights_valid w = true ->
  exists overall,
    aggregate input w = Ok overall /\
    (overall == w DOMAIN * score d + w CONTENT * score ct
                + w SENDER * score sd + w RULES * score rl)%Q.
Proof.
  intros Ed Ec Es Er Hd Hc Hs Hr Hw.
  apply in_unit_iff in Hd, Hc, Hs, Hr.
  unfold aggregate.
  rewrite (required_scores_value input d ct sd rl Ed Ec Es Er Hd Hc Hs Hr).
  cbn [bind]. rewrite Hw. eexists. split; [reflexivity |].
  unfold weighted_sum. cbn [fold_right fst snd]. ring.
Qed.

Lemma exact_weights_valid (w : ScoringWeights) :
  (forall c, (0 <= w c)%Q) ->
  (w DOMAIN + w CONTENT + w SENDER + w RULES == 1)%Q ->
  weights_valid w = true.
Proof.
  intros Hn Hs. apply weights_valid_iff. split; [exact Hn |].
  assert (E : (w DOMAIN + (w CONTENT + (w SENDER + (w RULES + 0))) - 1 == 0)%Q).
  { rewrite <- Hs. ring. }
  rewrite E. cbn. discriminate.
Qed.

Lemma with_score_same (input : ValidationInput) (c : ValidationComponent)
  (r : ComponentResult) (s : Q) :
  input c = Some r ->
  with_score input c s c = Some {| score := s; details := details r |}.
Proof. intros H. unfold with_score. rewrite H. now destruct c. Qed.

Lemma with_score_other (input : ValidationInput) (c c' : ValidationComponent) (s : Q) :
  c' <> c -> with_score input c s c' = input c'.
Proof. intros H. unfold with_score. destruct c', c; cbn; congruence. Qed.

(** C2.  On an input whose four scores lie between 0 and 1, with weights
    that are non-negative and sum to 1, [aggregate] returns the weighted
    sum of the scores; the result lies between 0 and 1; replacing the score
    of one component changes the result by the weight of that component
    times the change of the score, so that a larger score never gives a
    smaller result. *)
Theorem aggregate_weighted_sum
  (input : ValidationInput) (w : ScoringWeights) (d ct sd rl : ComponentResult) :
  input DOMAIN = Some d -> input CONTENT = Some ct ->
  input SENDER = Some sd -> input RULES = Some rl ->
  (0 <= score d /\ score d <= 1)%Q -> (0 <= score ct /\ score ct <= 1)%Q ->
  (0 <= score sd /\ score sd <= 1)%Q -> (0 <= score rl /\ score rl <= 1)%Q ->
  (forall c, (0 <= w c)%Q) ->
  (w DOMAIN + w CONTENT + w SENDER + w RULES == 1)%Q ->
  exists overall,
    aggregate input w = Ok overall /\
    (overall == w DOMAIN * score d + w CONTENT * score ct
                + w SENDER * score sd + w RULES * score rl)%Q /\
    (0 <= overall)%Q /\ (overall <= 1)%Q /\
    forall c r s,
      input c = Some r -> (0 <= s /\ s <= 1)%Q ->
      exists overall',
        aggregate (with_score input c s) w = Ok overall' /\
        (overall' == overall + w c * (s - score r))%Q /\
        ((score r <= s)%Q -> (overall <= overall')%Q).
Proof.
  intros Ed Ec Es Er Hd Hc Hs Hr Hn Hsum.
  pose proof (exact_weights_valid w Hn Hsum) as Hw.
  destruct (aggregate_value input w d ct sd rl Ed Ec Es Er Hd Hc Hs Hr Hw)
    as (overall & Hagg & Hval).
  pose proof (Hn DOMAIN) as Hwd. pose proof (Hn CONTENT) as Hwc.
  pose proof (Hn SENDER) as Hws. pose proof (Hn RULES) as Hwr.
  exists overall. split; [exact Hagg |]. split; [exact Hval |].
  split; [rewrite Hval; nra |]. split; [rewrite Hval; nra |].
  intros c r s Hin Hrange.
  destruct c.
  - assert (r = d) as -> by congruence.
    destruct (aggregate_value (with_score input DOMAIN s) w
                {| score := s; details := details d |} ct sd rl) as (o & Ho & Hv);
      try assumption;
      try (rewrite with_score_other; [assumption | discriminate]).
    { now apply with_score_same. }
    exists o. split; [exact Ho |]. cbn [score] in Hv.
    split; [rewrite Hv, Hval; ring | intros Hle; rewrite Hv, Hval; nra].
  - assert (r = ct) as -> by congruence.
    destruct (aggregate_value (with_score input CONTENT s) w
                d {| score := s; details := details ct |} sd rl) as (o & Ho & Hv);
      try assumption;
      try (rewrite with_score_other; [assumption | discriminate]).
    { now apply with_score_same. }
    exists o. split; [exact Ho |]. cbn [score] in Hv.
    split; [rewrite Hv, Hval; ring | intros Hle; rewrite Hv, Hval; nra].
  - assert (r = sd) as -> by congruence.
    destruct (aggregate_value (with_score input SENDER s) w
                d ct {| score := s; details := details sd |} rl) as (o & Ho & Hv);
      try assumption;
      try (rewrite with_score_other; [assumption | discriminate]).
    { now apply with_score_same. }
    exists o. split; [exact Ho |]. cbn [score] in Hv.
    split; [rewrite Hv, Hval; ring | intros Hle; rewrite Hv, Hval; nra].
  - assert (r = rl) as -> by congruence.
    destruct (aggregate_value (with_score input RULES s) w
                d ct sd {| score := s; details := details rl |}) as (o & Ho & Hv);
      try assumption;
      try (rewrite with_score_other; [assumption | discriminate]).
    { now apply with_score_same. }
    exists o. split; [exact Ho |]. cbn [score] in Hv.
    split; [rewrite Hv, Hval; ring | intros Hle; rewrite Hv, Hval; nra].
Qed.

(** The worked example: scores 0.9, 0.8, 0.7, 0.6 under the weights 0.30,
    0.35, 0.25, 0.10. *)
Lemma aggregate_weighted_sum_witness :
  exists overall,
    aggregate example_input example_weights = Ok overall /\
    (overall == (30 # 100) * (9 # 10) + (35 # 100) * (8 # 10)
                + (25 # 100) * (7 # 10) + (10 # 100) * (6 # 10))%Q.
Proof.
  destruct (aggregate_weighted_sum example_input example_weights
              (example_result (9 # 10)) (example_result (8 # 10))
              (example_result (7 # 10)) (example_result (6 # 10)))
    as (overall & H1 & H2 & _);
    try reflexivity;
    try (split; discriminate);
    try (intros []; discriminate).
  exists overall. split; [exact H1 | exact H2].
Defined.

(** The worked example end to end: the overall score is 0.785, which is
    medium risk and requires approval under the default thresholds. *)
Lemma worked_example :
  exists overall,
    aggregate example_input example_weights = Ok overall /\
    (overall == 785 # 1000)%Q /\
    classify overall default_thresholds = MEDIUM /\
    decision_type (route overall MEDIUM NoVerdict None default_thresholds)
      = APPROVAL_REQUIRED.
Proof. eexists. split; [vm_compute; reflexivity |]. repeat split. Qed.

(** *** Policy evaluator *)

Lemma string_compare_trans (a b c : string) :
  String.compare a b <> Gt -> String.compare b c <> Gt -> String.compare a c <> Gt.
Proof.
  revert b c. induction a as [| x a IH]; intros [| y b] [| z c]; cbn [String.compare];
    try congruence.
  unfold Ascii.compare.
  destruct (N.compare_spec (N_of_ascii x) (N_of_ascii y)) as [Exy | Lxy | Gxy];
    destruct (N.compare_spec (N_of_ascii y) (N_of_ascii z)) as [Eyz | Lyz | Gyz];
    destruct (N.compare_spec (N_of_ascii x) (N_of_ascii z)) as [Exz | Lxz | Gxz];
    try congruence; try lia.
  apply IH.
Qed.

Lemma string_leb_trans (a b c : string) :
  String.leb a b = true -> String.leb b c = true -> String.leb a c = true.
Proof.
  unfold String.leb. intros Hab Hbc.
  pose proof (string_compare_trans a b c) as H.
  destruct (String.compare a b), (String.compare b c), (String.compare a c);
    try reflexivity; try discriminate; exfalso; apply H; congruence.
Qed.

Lemma string_leb_false (a b : string) :
  String.leb a b = false -> String.leb b a = true.
Proof. destruct (String.leb_total a b) as [H | H]; congruence. Qed.

Section PolicyFacts.

Context {Condition : Type} (holds : Condition -> Candidate -> bool).

Lemma policy_leb_false (p q : Policy Condition) : policy_leb p q = false -> policy_leb q p = true.
Proof.
  unfold policy_leb. intros H.
  apply orb_false_iff in H as [Hlt H]. apply Z.ltb_ge in Hlt.
  apply andb_false_iff in H as [Hne | Hs].
  - apply Z.eqb_neq in Hne. apply orb_true_iff. left. apply Z.ltb_lt. lia.
  - apply string_leb_false in Hs. rewrite Hs, andb_true_r.
    destruct (Z.ltb_spec (priority q) (priority p)); [reflexivity |].
    cbn. apply Z.eqb_eq. lia.
Qed.

Lemma policy_leb_trans (p q r : Policy Condition) :
  policy_leb p q = true -> policy_leb q r = true -> policy_leb p r = true.
Proof.
  unfold policy_leb. rewrite !orb_true_iff, !andb_true_iff, !Z.ltb_lt, !Z.eqb_eq.
  intros [Hpq | [Hpq Spq]] [Hqr | [Hqr Sqr]]; try (left; lia).
  right. split; [lia |]. now apply (string_leb_trans _ (rule_id q)).
Qed.

(** With distinct rule ids, "no later than" is "strictly before". *)
Lemma policy_leb_lt (p q : Policy Condition) :
  policy_leb p q = true -> rule_id p <> rule_id q -> policy_lt p q.
Proof.
  unfold policy_leb, policy_lt.
  rewrite orb_true_iff, andb_true_iff, Z.ltb_lt, Z.eqb_eq.
  intros [H | [H Hs]] Hne; [now left |]. right. split; [exact H |].
  unfold String.leb in Hs.
  destruct (String.compare (rule_id p) (rule_id q)) eqn:E;
    [apply String.compare_eq_iff in E; contradiction | reflexivity | discriminate].
Qed.

Lemma insert_policy_perm (p : Policy Condition) (l : list (Policy Condition)) :
  Permutation (insert_policy p l) (p :: l).
Proof.
  induction l as [| q l IH]; cbn [insert_policy]; [reflexivity |].
  destruct (policy_leb p q); [reflexivity |].
  rewrite IH. apply perm_swap.
Qed.

Lemma insert_policy_sorted (p : Policy Condition) (l : list (Policy Condition)) :
  StronglySorted (fun a b => policy_leb a b = true) l ->
  StronglySorted (fun a b => policy_leb a b = true) (insert_policy p l).
Proof.
  induction 1 as [| q l Hs IH Hq]; cbn [insert_policy].
  - constructor; constructor.
  - destruct (policy_leb p q) eqn:E.
    + constructor; [now constructor |].
      constructor; [exact E |].
      eapply List.Forall_impl; [| exact Hq]. intros r Hr.
      now apply (policy_leb_trans p q r).
    + constructor; [exact IH |].
      apply policy_leb_false in E.
      rewrite (List.Forall_forall (fun b => policy_leb q b = true)).
      intros r Hr.
      apply (Permutation_in _ (insert_policy_perm p l)) in Hr as [<- | Hr]; [exact E |].
      rewrite List.Forall_forall in Hq. now apply Hq.
Qed.

Lemma evaluation_order_perm (policies : list (Policy Condition)) :
  Permutation (evaluation_order policies) (List.filter enabled policies).
Proof.
  unfold evaluation_order.
  induction (List.filter enabled policies) as [| p l IH]; cbn [fold_right]; [reflexivity |].
  rewrite insert_policy_perm. now constructor.
Qed.

Lemma evaluation_order_sorted (policies : list (Policy Condition)) :
  StronglySorted (fun a b => policy_leb a b = true) (evaluation_order policies).
Proof.
  unfold evaluation_order.
  induction (List.filter enabled policies) as [| p l IH]; cbn [fold_right].
  - constructor.
  - now apply insert_policy_sorted.
Qed.

Lemma sorted_strict (l : list (Policy Condition)) :
  StronglySorted (fun a b => policy_leb a b = true) l ->
  List.NoDup (map rule_id l) ->
  StronglySorted policy_lt l.
Proof.
  induction 1 as [| p l Hs IH Hp]; intros Hnd; [constructor |].
  cbn [map] in Hnd. inversion Hnd as [| ? ? Hn Hnd']; subst.
  constructor; [now apply IH |].
  rewrite List.Forall_forall in *. intros q Hq.
  apply policy_leb_lt; [now apply Hp |].
  intros E. apply Hn. rewrite E. now apply in_map.
Qed.

Lemma evaluation_order_strict (policies : list (Policy Condition)) :
  List.NoDup (map rule_id policies) ->
  StronglySorted policy_lt (evaluation_order policies).
Proof.
  intros Hnd. apply sorted_strict; [apply evaluation_order_sorted |].
  apply (Permutation_NoDup (l := map rule_id (List.filter enabled policies))).
  - symmetry. apply Permutation_map, evaluation_order_perm.
  - now apply ModelsFacts.nodup_map_filter.
Qed.

(** What [first_match] returns and which conditions it evaluates. *)
Lemma first_match_spec (l : list (Policy Condition)) (c : Candidate) :
  match first_match holds l c with
  | (Some o, evaluated) =>
      exists before p after,
        l = before ++ p :: after /\
        Forall (fun q => holds (condition q) c = false) before /\
        holds (condition p) c = true /\
        o = outcome_of p /\
        evaluated = map rule_id (before ++ [p])
  | (None, evaluated) =>
      Forall (fun q => holds (condition q) c = false) l /\
      evaluated = map rule_id l
  end.
Proof.
  induction l as [| p l IH]; cbn [first_match].
  - split; [constructor | reflexivity].
  - destruct (holds (condition p) c) eqn:Hp.
    + exists [], p, l. repeat split; [constructor | exact Hp].
    + destruct (first_match holds l c) as [[o |] evaluated].
      * destruct IH as (before & q & after & -> & Hb & Hq & -> & ->).
        exists (p :: before), q, after. repeat split; [now constructor | exact Hq].
      * destruct IH as [Hl ->]. split; [now constructor | reflexivity].
Qed.

(** Two enabled policies of priorities 1 and 2 that both match: only
    the first is evaluated and applied, in whichever order they are
    stored. *)
Lemma two_policies_first_wins (p1 p2 : Policy Condition) (c : Candidate) (policies : list (Policy Condition)) :
  enabled p1 = true -> enabled p2 = true ->
  priority p1 = 1 -> priority p2 = 2 ->
  holds (condition p1) c = true -> holds (condition p2) c = true ->
  policies = [p1; p2] \/ policies = [p2; p1] ->
  evaluate_traced holds policies c = (Some (outcome_of p1), [rule_id p1]).
Proof.
  intros E1 E2 P1 P2 H1 H2.
  assert (L12 : policy_leb p1 p2 = true) by (unfold policy_leb; now rewrite P1, P2).
  assert (L21 : policy_leb p2 p1 = false) by (unfold policy_leb; now rewrite P1, P2).
  intros [-> | ->]; unfold evaluate_traced, evaluation_order; cbn [List.filter];
    rewrite E1, E2; cbn [fold_right insert_policy].
  - rewrite L12. cbn [first_match]. now rewrite H1.
  - rewrite L21. cbn [first_match]. now rewrite H1.
Qed.

(** C3.  With unique rule ids, the evaluator considers the enabled
    policies in strictly ascending order of priority and rule id; what it
    returns carries the action, the rule id and the description of the
    first policy of that order whose condition holds, and it evaluates no
    condition after that one; it returns nothing when no condition holds,
    having evaluated them all.  Of two enabled matching policies of
    priorities 1 and 2, only the first is evaluated, and the action
    returned is its action. *)
Theorem evaluate_first_match :
  (forall (policies : list (Policy Condition)) (c : Candidate),
      List.NoDup (map rule_id policies) ->
      let order := evaluation_order policies in
      StronglySorted policy_lt order /\
      Permutation order (List.filter enabled policies) /\
      evaluate holds policies c = fst (evaluate_traced holds policies c) /\
      match evaluate_traced holds policies c with
      | (Some o, evaluated) =>
          exists before p after,
            order = before ++ p :: after /\
            Forall (fun q => holds (condition q) c = false) before /\
            holds (condition p) c = true /\
            outcome_action o = action p /\
            outcome_rule_id o = rule_id p /\
            outcome_description o = description p /\
            evaluated = map rule_id (before ++ [p])
      | (None, evaluated) =>
          Forall (fun q => holds (condition q) c = false) order /\
          evaluated = map rule_id order
      end) /\
  (forall (p1 p2 : Policy Condition) (c : Candidate) (policies : list (Policy Condition)),
      enabled p1 = true -> enabled p2 = true ->
      priority p1 = 1 -> priority p2 = 2 ->
      holds (condition p1) c = true -> holds (condition p2) c = true ->
      policies = [p1; p2] \/ policies = [p2; p1] ->
      evaluate_traced holds policies c
      = (Some {| outcome_rule_id := rule_id p1;
                 outcome_action := action p1;
                 outcome_description := description p1 |}, [rule_id p1]) /\
      evaluate holds policies c
      = Some {| outcome_rule_id := rule_id p1;
                outcome_action := action p1;
                outcome_description := description p1 |}).
Proof.
  split.
  - intros policies c Hnd. cbn zeta.
    split; [now apply evaluation_order_strict |].
    split; [apply evaluation_order_perm |].
    split; [reflexivity |].
    pose proof (first_match_spec (evaluation_order policies) c) as H.
    unfold evaluate_traced.
    destruct (first_match holds (evaluation_order policies) c) as [[o |] evaluated];
      [| exact H].
    destruct H as (before & p & after & Ho & Hb & Hp & -> & He).
    exists before, p, after. now repeat split.
  - intros p1 p2 c policies E1 E2 P1 P2 H1 H2 Hp.
    pose proof (two_policies_first_wins p1 p2 c policies E1 E2 P1 P2 H1 H2 Hp) as H.
    unfold evaluate. rewrite H. split; reflexivity.
Qed.

End PolicyFacts.

(** Two enabled policies that both match, stored in the wrong order, and
    a disabled one of higher precedence. *)
Lemma evaluate_first_match_witness :
  List.NoDup (map rule_id example_policies) /\
  StronglySorted policy_lt (evaluation_order example_policies) /\
  evaluate_traced subject_has example_policies example_candidate
  = (Some {| outcome_rule_id := "R1"; outcome_action := Escalate;
             outcome_description := "urgent in subject" |}, ["R1"%string]).
Proof.
  assert (H : List.NoDup (map rule_id example_policies)).
  { cbn. repeat (constructor; [cbn; intuition discriminate |]). constructor. }
  split; [exact H |].
  split; [| reflexivity].
  exact (proj1 (proj1 (evaluate_first_match subject_has) example_policies example_candidate H)).
Defined.

End EngineFacts.

(** ** Parsing of comma-separated settings *)

Module SettingsFacts.

Import PyStr Settings.

Lemma split_length (sep : ascii) (s : string) :
  length (split sep s) = S (count_char sep s).
Proof.
  induction s as [| c r IH]; [reflexivity |].
  cbn [split count_char]. destruct (Ascii.eqb c sep).
  - cbn [length]. now rewrite IH.
  - pose proof (PyStrFacts.split_nonempty sep r) as Hn.
    destruct (split sep r) as [| h t]; [contradiction |].
    cbn [length] in *. exact IH.
Qed.

Lemma has_char_lstrip (c : ascii) (s : string) :
  has_char c s = false -> has_char c (lstrip s) = false.
Proof.
  induction s as [| a r IH]; cbn [lstrip]; [trivial |].
  destruct (isspace a); [| trivial].
  cbn [has_char]. intros H. apply orb_false_iff in H as [_ H]. now apply IH.
Qed.

Lemma has_char_rstrip (c : ascii) (s : string) :
  has_char c s = false -> has_char c (rstrip s) = false.
Proof.
  induction s as [| a r IH]; cbn [rstrip]; [trivial |].
  cbn [has_char]. intros H. apply orb_false_iff in H as [Ha H].
  specialize (IH H). destruct (rstrip r) as [| b r'].
  - destruct (isspace a); [reflexivity |]. cbn. now rewrite Ha.
  - cbn [has_char] in *. now rewrite Ha, IH.
Qed.

Lemma has_char_strip (c : ascii) (s : string) :
  has_char c s = false -> has_char c (strip s) = false.
Proof. intros H. unfold strip. now apply has_char_rstrip, has_char_lstrip. Qed.

Lemma lstrip_fix (s : string) :
  (forall c, first_char s = Some c -> isspace c = false) -> lstrip s = s.
Proof.
  destruct s as [| a r]; [reflexivity |]. cbn. intros H. now rewrite (H a eq_refl).
Qed.

Lemma rstrip_fix (s : string) :
  (forall c, last_char s = Some c -> isspace c = false) -> rstrip s = s.
Proof.
  induction s as [| a r IH]; [reflexivity |]. cbn [rstrip last_char].
  destruct r as [| b r'].
  - intros H. cbn. now rewrite (H a eq_refl).
  - intros H. rewrite (IH H). reflexivity.
Qed.

(** Stripping twice is stripping once. *)
Lemma strip_idempotent (s : string) : strip (strip s) = strip s.
Proof.
  destruct (PyStrFacts.strip_spec s) as (_ & Hf & Hl).
  unfold strip at 1. rewrite (lstrip_fix _ Hf). now apply rstrip_fix.
Qed.

Lemma split_no_sep_single (sep : ascii) (x : string) :
  has_char sep x = false -> split sep x = [x].
Proof.
  induction x as [| a r IH]; [reflexivity |].
  cbn [has_char split]. intros H. apply orb_false_iff in H as [Ha H].
  rewrite Ha, (IH H). reflexivity.
Qed.

Lemma split_app_sep (sep : ascii) (x rest : string) :
  has_char sep x = false ->
  split sep (String.append x (String sep rest)) = x :: split sep rest.
Proof.
  induction x as [| a r IH]; intros H.
  - rewrite PyStrFacts.append_nil. cbn [split]. now rewrite Ascii.eqb_refl.
  - cbn [has_char] in H. apply orb_false_iff in H as [Ha H].
    rewrite PyStrFacts.append_cons. cbn [split]. rewrite Ha, (IH H). reflexivity.
Qed.

(** Splitting what was joined gives the pieces back, when no piece holds
    the separator. *)
Lemma split_join (sep : ascii) (l : list string) :
  l <> [] -> List.Forall (fun e => has_char sep e = false) l -> split sep (join sep l) = l.
Proof.
  induction l as [| x l IH]; [congruence |]. intros _ H.
  inversion H as [| ? ? Hx Hl]; subst.
  destruct l as [| y l'].
  - cbn [join]. now apply split_no_sep_single.
  - change (join sep (x :: y :: l')) with (String.append x (String sep (join sep (y :: l')))).
    rewrite (split_app_sep sep x _ Hx). f_equal. now apply IH.
Qed.

(** The parse shared by the three list-valued settings. *)
Lemma parse_clean (s : string) :
  List.Forall (fun e => has_char "," e = false /\
                    (forall c, first_char e = Some c -> isspace c = false) /\
                    (forall c, last_char e = Some c -> isspace c = false))
         (map strip (split "," s)).
Proof.
  pose proof (PyStrFacts.split_no_sep "," s) as H.
  induction H as [| e l He Hl IH]; cbn [map]; constructor; [| exact IH].
  split; [now apply has_char_strip |].
  destruct (PyStrFacts.strip_spec e) as (_ & Hf & Hla). now split.
Qed.

Lemma parse_reparse (s : string) :
  map strip (split "," (join "," (map strip (split "," s)))) = map strip (split "," s).
Proof.
  rewrite split_join.
  - rewrite map_map. apply map_ext. intros e. apply strip_idempotent.
  - pose proof (PyStrFacts.split_nonempty "," s).
    destruct (split "," s); [contradiction | discriminate].
  - eapply List.Forall_impl; [| apply parse_clean]. intros e H. apply H.
Qed.

(** X1.  The recipient lists always hold one entry more than the setting
    has commas, so they are never empty and an empty setting gives the one
    empty address; no entry holds a comma or starts or ends with white
    space. *)
Theorem notification_emails_shape (self : NotificationConfig) :
  (length (approval_emails self) = S (count_char "," (approval_recipients self)) /\
   length (escalation_emails self) = S (count_char "," (escalation_recipients self))) /\
  (approval_recipients self = EmptyString -> approval_emails self = [EmptyString]) /\
  (escalation_recipients self = EmptyString -> escalation_emails self = [EmptyString]) /\
  List.Forall (fun e => has_char "," e = false /\
                    (forall c, first_char e = Some c -> isspace c = false) /\
                    (forall c, last_char e = Some c -> isspace c = false))
         (approval_emails self ++ escalation_emails self).
Proof.
  unfold approval_emails, escalation_emails. repeat split.
  - now rewrite length_map, split_length.
  - now rewrite length_map, split_length.
  - now intros ->.
  - now intros ->.
  - apply List.Forall_app. split; apply parse_clean.
Qed.

Lemma notification_emails_shape_witness :
  approval_emails {| approval_recipients := ""; escalation_recipients := " a@x.org ,b@x.org" |}
  = [EmptyString].
Proof.
  apply (notification_emails_shape
           {| approval_recipients := ""; escalation_recipients := " a@x.org ,b@x.org" |}).
  reflexivity.
Defined.

(** X2.  Parsing is a normalisation: writing the parsed recipients back,
    joined by commas, and parsing again gives the same list. *)
Theorem notification_emails_reparse (self : NotificationConfig) :
  approval_emails
    {| approval_recipients := join "," (approval_emails self);
       escalation_recipients := join "," (escalation_emails self) |}
  = approval_emails self /\
  escalation_emails
    {| approval_recipients := join "," (approval_emails self);
       escalation_recipients := join "," (escalation_emails self) |}
  = escalation_emails self.
Proof.
  unfold approval_emails, escalation_emails. cbn [approval_recipients escalation_recipients].
  split; apply parse_reparse.
Qed.

Lemma join_empty_iff (l : list string) :
  join "," l = EmptyString <-> l = [] \/ l = [EmptyString].
Proof.
  split.
  - destruct l as [| x [| y l']]; cbn [join].
    + now left.
    + intros ->. now right.
    + destruct x; discriminate.
  - intros [-> | ->]; reflexivity.
Qed.

(** X3.  [allowed_ip_list] is empty only for the empty setting; otherwise
    it has one entry more than the setting has commas, empty entries
    included.  Writing the list back and parsing again gives the same list,
    except for the list of one empty entry (a setting of white space only),
    which comes back empty. *)
Theorem allowed_ip_list_shape (self : Config.SecurityConfig) :
  (Config.allowed_ip_list self = [] <-> Config.allowed_ip_ranges self = EmptyString) /\
  (Config.allowed_ip_ranges self <> EmptyString ->
     length (Config.allowed_ip_list self)
     = S (count_char "," (Config.allowed_ip_ranges self))) /\
  (Config.allowed_ip_list self <> [EmptyString] ->
     Config.allowed_ip_list (with_ranges self (join "," (Config.allowed_ip_list self)))
     = Config.allowed_ip_list self) /\
  (Config.allowed_ip_list self = [EmptyString] ->
     Config.allowed_ip_list (with_ranges self (join "," (Config.allowed_ip_list self)))
     = []).
Proof.
  unfold Config.allowed_ip_list, with_ranges. cbn [Config.allowed_ip_ranges].
  destruct (String.eqb_spec (Config.allowed_ip_ranges self) EmptyString) as [E | E].
  - split; [| split; [| split]].
    + split; [intros _; exact E | reflexivity].
    + contradiction.
    + reflexivity.
    + discriminate.
  - pose proof (PyStrFacts.split_nonempty "," (Config.allowed_ip_ranges self)) as Hn.
    split; [| split; [| split]].
    + split; [| contradiction]. intros H. apply map_eq_nil in H. contradiction.
    + intros _. now rewrite length_map, split_length.
    + intros Hne.
      destruct (String.eqb_spec
                  (join "," (map strip (split "," (Config.allowed_ip_ranges self))))
                  EmptyString) as [Ej | Ej].
      * apply join_empty_iff in Ej as [Ej | Ej]; [| contradiction].
        apply map_eq_nil in Ej. contradiction.
      * apply parse_reparse.
    + intros ->. reflexivity.
Qed.

Lemma allowed_ip_list_shape_witness :
  length (Config.allowed_ip_list (Config.Build_SecurityConfig "k" 100 "10.0.0.1,, 10.0.0.2"))
  = 3%nat.
Proof.
  apply (allowed_ip_list_shape (Config.Build_SecurityConfig "k" 100 "10.0.0.1,, 10.0.0.2")).
  discriminate.
Defined.

Lemma append_assoc (a b c : string) :
  String.append (String.append a b) c = String.append a (String.append b c).
Proof.
  induction a as [| x a IH]; [reflexivity |].
  now rewrite !PyStrFacts.append_cons, IH.
Qed.

(** X4.  The connection string carries the user and the password as they
    are, with no escaping: each is a substring of it, and two different
    pairs of user and password can give the same string. *)
Theorem connection_string_verbatim :
  (forall self : DatabaseConfig,
      contains (user self) (connection_string self) = true /\
      contains (password self) (connection_string self) = true) /\
  (exists d1 d2 : DatabaseConfig,
      user d1 <> user d2 /\ password d1 <> password d2 /\
      connection_string d1 = connection_string d2).
Proof.
  split.
  - intros self. unfold connection_string. split; apply LoggingFacts.contains_spec.
    + exists "postgresql://"%string. eexists. reflexivity.
    + exists (String.append "postgresql://" (String.append (user self) ":")). eexists.
      rewrite !append_assoc. reflexivity.
  - exists {| host := "db"; port := 5432; name := "l1_agent"; user := "a:b"; password := "c";
              pool_size := 20; max_overflow := 10 |},
           {| host := "db"; port := 5432; name := "l1_agent"; user := "a"; password := "b:c";
              pool_size := 20; max_overflow := 10 |}.
    split; [discriminate |]. split; [discriminate |]. vm_compute. reflexivity.
Qed.

Lemma lower_char_idempotent (c : ascii) : lower_char (lower_char c) = lower_char c.
Proof. destruct c as [[] [] [] [] [] [] [] []]; vm_compute; reflexivity. Qed.

Lemma lower_idempotent (s : string) : lower (lower s) = lower s.
Proof.
  induction s as [| c r IH]; [reflexivity |].
  cbn [lower]. now rewrite lower_char_idempotent, IH.
Qed.

(** X5.  No environment is both production and development, and the two
    flags ignore the case of the environment name: lower-casing the name
    changes neither. *)
Theorem environment_flags (self : Settings) :
  is_production self && is_development self = false /\
  is_production (with_environment self (lower (environment self))) = is_production self /\
  is_development (with_environment self (lower (environment self))) = is_development self.
Proof.
  unfold is_production, is_development, with_environment. cbn [environment].
  rewrite lower_idempotent. split; [| split; reflexivity].
  destruct (String.eqb_spec (lower (environment self)) "production") as [-> | _]; reflexivity.
Qed.

End SettingsFacts.

(** ** Log processors together *)

Module LoggingContextFacts.

Import PyStr Logging LoggingContext.

(** What censoring leaves under each key. *)
Lemma censor_lookup (logger : py_value) (method_name : string)
  (event_dict : gmap string py_value) (key : string) :
  censor_sensitive_data logger method_name event_dict !! key =
  if is_sensitive key then (fun _ => redacted) <$> event_dict !! key else event_dict !! key.
Proof.
  unfold censor_sensitive_data. rewrite LoggingFacts.censor_loop.
  destruct (is_sensitive key); [| reflexivity]. cbn [andb].
  destruct (event_dict !! key) as [v |] eqn:Hv.
  - rewrite bool_decide_eq_true_2; [reflexivity |].
    apply list_elem_of_fmap. exists (key, v). split; [reflexivity |].
    now apply elem_of_map_to_list.
  - rewrite bool_decide_eq_false_2; [reflexivity |].
    intros Hin. apply list_elem_of_fmap in Hin as ([k v] & -> & Hin).
    apply elem_of_map_to_list in Hin. cbn in Hv. congruence.
Qed.

(** X6.  Censoring is idempotent, and it neither adds nor removes a key. *)
Theorem censor_idempotent (logger : py_value) (method_name : string)
  (event_dict : gmap string py_value) :
  censor_sensitive_data logger method_name
    (censor_sensitive_data logger method_name event_dict)
  = censor_sensitive_data logger method_name event_dict /\
  dom (censor_sensitive_data logger method_name event_dict) = dom event_dict.
Proof.
  split.
  - apply map_eq. intros k. rewrite !censor_lookup.
    destruct (is_sensitive k); [| reflexivity].
    now destruct (event_dict !! k).
  - apply set_eq. intros k. rewrite !elem_of_dom, censor_lookup.
    destruct (is_sensitive k); [| reflexivity].
    destruct (event_dict !! k); cbn; split; intros [x Hx]; try discriminate; eauto.
Qed.

Lemma lower_append (a b : string) :
  lower (String.append a b) = String.append (lower a) (lower b).
Proof.
  induction a as [| c a IH]; [reflexivity |].
  rewrite PyStrFacts.append_cons. cbn [lower].
  now rewrite PyStrFacts.append_cons, IH.
Qed.

(** X7.  The test for a sensitive key looks for the words anywhere in the
    name and ignores case: a key that has a sensitive key inside it, with
    any text before and after, is sensitive too, and lower-casing a key does
    not change the answer. *)
Theorem is_sensitive_superstring (key pre post : string) :
  (is_sensitive key = true ->
   is_sensitive (String.append pre (String.append key post)) = true) /\
  is_sensitive (lower key) = is_sensitive key.
Proof.
  split.
  - intros H. apply LoggingFacts.is_sensitive_spec in H as (w & a & b & Hw & Hk).
    apply LoggingFacts.is_sensitive_spec.
    exists w, (String.append (lower pre) a), (String.append b (lower post)).
    split; [exact Hw |].
    rewrite !lower_append, Hk, !SettingsFacts.append_assoc. reflexivity.
  - unfold is_sensitive. now rewrite SettingsFacts.lower_idempotent.
Qed.

Lemma is_sensitive_superstring_witness :
  is_sensitive "authority" = true.
Proof.
  apply (proj1 (is_sensitive_superstring "auth" EmptyString "ority")). reflexivity.
Defined.

(** X8.  In the order of the processor chain, the application context is
    added first and censoring runs next: the keys "app" and "environment"
    come out with the values of the application, whatever the event held
    under them, and the two processors commute. *)
Theorem app_context_survives_censoring (settings : Settings.Settings)
  (logger : py_value) (method_name : string) (event_dict : gmap string py_value) :
  let out := censor_sensitive_data logger method_name
               (add_app_context settings logger method_name event_dict) in
  out !! "app" = Some (VStr "l1-email-agent") /\
  out !! "environment" = Some (VStr (Settings.environment settings)) /\
  out = add_app_context settings logger method_name
          (censor_sensitive_data logger method_name event_dict).
Proof.
  cbn zeta. unfold add_app_context.
  assert (Ha : is_sensitive "app" = false) by (vm_compute; reflexivity).
  assert (He : is_sensitive "environment" = false) by (vm_compute; reflexivity).
  split; [| split].
  - rewrite censor_lookup, Ha. rewrite lookup_insert_ne by discriminate.
    apply lookup_insert_eq.
  - rewrite censor_lookup, He. apply lookup_insert_eq.
  - apply map_eq. intros k. rewrite censor_lookup.
    destruct (decide (k = "environment"%string)) as [-> | Hne].
    + now rewrite He, !lookup_insert_eq.
    + rewrite !(lookup_insert_ne _ "environment"%string) by congruence.
      destruct (decide (k = "app"%string)) as [-> | Hna].
      * now rewrite Ha, !lookup_insert_eq.
      * rewrite !(lookup_insert_ne _ "app"%string) by congruence.
        now rewrite censor_lookup.
Qed.

Lemma unbind_lookup (keys : list string) (store : gmap string py_value) (k : string) :
  unbind_contextvars keys store !! k =
  if bool_decide (k ∈ keys) then None else store !! k.
Proof.
  unfold unbind_contextvars. revert store.
  induction keys as [| a keys IH]; intros store; cbn [foldl]; [reflexivity |].
  rewrite IH. destruct (bool_decide_reflect (k ∈ keys)) as [Hin | Hnin].
  - rewrite bool_decide_eq_true_2; [reflexivity | now right].
  - destruct (decide (a = k)) as [-> | Hne].
    + rewrite lookup_delete_eq. rewrite bool_decide_eq_true_2; [reflexivity | now left].
    + rewrite lookup_delete_ne by exact Hne.
      rewrite bool_decide_eq_false_2; [reflexivity |].
      rewrite elem_of_cons. intros [-> | H]; [now apply Hne | now apply Hnin].
Qed.

Lemma keys_elem (m : gmap string py_value) (k : string) :
  k ∈ (map_to_list m).*1 <-> is_Some (m !! k).
Proof.
  rewrite list_elem_of_fmap. split.
  - intros ([k' v] & -> & Hin). apply elem_of_map_to_list in Hin. now exists v.
  - intros [v Hv]. exists (k, v). split; [reflexivity | now apply elem_of_map_to_list].
Qed.

(** X9.  Inside the scope of a [LoggerAdapter] every key of its context is
    bound to the value of the context.  Leaving the scope removes exactly
    the keys of the context: the store is as before when none of them was
    bound before, and a key that was bound before is left unbound, not put
    back to its earlier value. *)
Theorem logger_adapter_scope (ctx store : gmap string py_value) (k : string) :
  let '(self, inside) := enter (new_adapter ctx) store in
  (forall v, ctx !! k = Some v -> inside !! k = Some v) /\
  (ctx !! k = None -> inside !! k = store !! k) /\
  exit self inside !! k = (if decide (is_Some (ctx !! k)) then None else store !! k) /\
  ((forall j, is_Some (ctx !! j) -> store !! j = None) -> exit self inside = store).
Proof.
  unfold enter, new_adapter, bind_contextvars. cbn [context].
  assert (Hexit : forall j,
             exit {| context := ctx; token := Some (dom ctx) |} (ctx ∪ store) !! j
             = if decide (is_Some (ctx !! j)) then None else store !! j).
  { intros j. unfold exit. cbn [token context].
    destruct (decide (dom ctx = ∅)) as [E | E].
    - apply dom_empty_inv_L in E. subst ctx.
      rewrite (left_id_L ∅ (∪)). rewrite lookup_empty.
      destruct (decide (is_Some None)) as [[x Hx] | _]; [discriminate | reflexivity].
    - rewrite unbind_lookup.
      destruct (decide (is_Some (ctx !! j))) as [Hs | Hn].
      + rewrite bool_decide_eq_true_2; [reflexivity | now apply keys_elem].
      + rewrite bool_decide_eq_false_2; [| now rewrite keys_elem].
        apply lookup_union_r. now apply eq_None_not_Some. }
  split; [| split; [| split]].
  - intros v Hv. now apply lookup_union_Some_l.
  - intros Hn. now apply lookup_union_r.
  - apply Hexit.
  - intros Hfresh. apply map_eq. intros j. rewrite Hexit.
    destruct (decide (is_Some (ctx !! j))) as [Hs | _]; [| reflexivity].
    symmetry. now apply Hfresh.
Qed.

Lemma logger_adapter_scope_witness :
  exit (fst (enter (new_adapter {[ "email_id" := VStr "12345" ]}) ∅))
       (snd (enter (new_adapter {[ "email_id" := VStr "12345" ]}) ∅))
  = ∅.
Proof.
  pose proof (logger_adapter_scope {[ "email_id" := VStr "12345" ]} ∅ "email_id") as H.
  destruct (enter (new_adapter {[ "email_id" := VStr "12345" ]}) ∅) as [self inside].
  destruct H as (_ & _ & _ & H). apply H.
  intros j _. apply lookup_empty.
Defined.

End LoggingContextFacts.

(** ** The database manager *)

Module ConnectionFacts.

Import Connection.

Lemma initialize_ok (self : DatabaseManager) (lib : library) :
  manager_ok self -> manager_ok (fst (fst (initialize self lib))).
Proof.
  intros [Hi Hn]. unfold initialize, manager_ok.
  destruct (_initialized self) eqn:E;
    [cbn; split; [intros _; exact (Hi eq_refl) | exact Hn] |].
  destruct (create_engine lib) as [eng | e];
    [| cbn; split; [intros H; congruence | exact Hn]].
  destruct (setup_event_listeners lib) as [[] | e];
    [| cbn; split; discriminate].
  destruct (sessionmaker lib) as [[] | e]; cbn.
  - split; [intros _; now exists eng | discriminate].
  - split; discriminate.
Qed.

Lemma close_ok (self : DatabaseManager) : manager_ok self -> manager_ok (fst (close self)).
Proof.
  intros [Hi Hn]. unfold close, manager_ok.
  destruct (engine self) as [eng |] eqn:E; cbn.
  - split; discriminate.
  - split.
    + intros H. destruct (Hi H) as (eng & He & _). discriminate.
    + intros _. exact (Hn eq_refl).
Qed.

Lemma manager_reachable_ok (self : DatabaseManager) : reachable self -> manager_ok self.
Proof.
  induction 1 as [| self c _ IH].
  - split; [discriminate | reflexivity].
  - destruct c as [lib | |]; cbn [step];
      [now apply initialize_ok | exact IH | now apply close_ok].
Qed.

Lemma get_session_spec (self : DatabaseManager) :
  manager_ok self ->
  (get_session self
   = Raise (DatabaseConnectionError "Database not initialized. Call initialize() first.")
   <-> _initialized self = false) /\
  (forall session, get_session self = Ok session ->
     _initialized self = true /\ engine self = Some session).
Proof.
  intros [Hi _]. unfold get_session.
  destruct (_initialized self) eqn:E.
  - destruct (Hi eq_refl) as (eng & He & Hf). rewrite Hf. split.
    + split; discriminate.
    + intros s [= <-]. now split.
  - split; [now split | intros s; now destruct (session_factory self)].
Qed.

(** X10.  At every moment in the life of a manager, [get_session] raises
    [DatabaseConnectionError] exactly when the manager is not initialized
    (the test of the session factory never decides), and a session it hands
    out is bound to the current engine. *)
Theorem get_session_iff_initialized (self : DatabaseManager) :
  reachable self ->
  (get_session self
   = Raise (DatabaseConnectionError "Database not initialized. Call initialize() first.")
   <-> _initialized self = false) /\
  (forall session, get_session self = Ok session ->
     _initialized self = true /\ engine self = Some session).
Proof. intros Hr. apply get_session_spec. now apply manager_reachable_ok. Qed.

Lemma get_session_iff_initialized_witness :
  reachable (step new_manager (Initialize (working_library 1))) /\
  get_session (step new_manager (Initialize (working_library 1))) = Ok 1%N.
Proof.
  assert (H : reachable (step new_manager (Initialize (working_library 1))))
    by (apply reachable_step, reachable_new).
  split; [exact H |].
  destruct (get_session (step new_manager (Initialize (working_library 1)))) as [s | e] eqn:E.
  - destruct (proj2 (get_session_iff_initialized _ H) s E) as [_ He].
    cbn in He. congruence.
  - discriminate.
Defined.

(** The ways [initialize] ends. *)
Lemma initialize_cases (self : DatabaseManager) (lib : library) :
  let '(self', events, outcome) := initialize self lib in
  existsb is_session_event events = false /\
  match outcome with
  | Ok _ =>
      _initialized self' = true /\
      (_initialized self = true /\ self' = self \/
       _initialized self = false /\
       exists eng, create_engine lib = Ok eng /\
                   setup_event_listeners lib = Ok tt /\
                   sessionmaker lib = Ok tt /\
                   self' = {| engine := Some eng; session_factory := Some eng;
                              _initialized := true |}) /\
      forall lib', initialize self' lib'
                   = (self', [Log "warning" "database_already_initialized"], Ok tt)
  | Raise e =>
      _initialized self = false /\
      _initialized self' = false /\
      (exists cause,
          (create_engine lib = Raise cause \/
           (exists eng, create_engine lib = Ok eng) /\
           setup_event_listeners lib = Raise cause \/
           (exists eng, create_engine lib = Ok eng) /\
           setup_event_listeners lib = Ok tt /\
           sessionmaker lib = Raise cause) /\
          e = DatabaseConnectionError
                (String.append "Failed to initialize database: " (message cause))) /\
      last events = Some (Log "error" "database_initialization_failed") /\
      get_session self'
      = Raise (DatabaseConnectionError "Database not initialized. Call initialize() first.")
  end.
Proof.
  unfold initialize. destruct (_initialized self) eqn:E.
  - cbn. rewrite E. repeat split. now left.
  - destruct (create_engine lib) as [eng | e].
    + destruct (setup_event_listeners lib) as [[] | e].
      * destruct (sessionmaker lib) as [[] | e].
        -- cbn. repeat split. right. split; [reflexivity |]. now exists eng.
        -- unfold get_session. cbn. repeat split; try assumption.
           exists e. split; [| reflexivity]. right. right. split; [now exists eng | now split].
      * unfold get_session. cbn. repeat split; try assumption.
        exists e. split; [| reflexivity]. right. left. split; [now exists eng | reflexivity].
    + unfold get_session. cbn. rewrite E. repeat split.
      exists e. split; [now left | reflexivity].
Qed.

(** X11.  [initialize] either succeeds or raises.  It succeeds on a
    manager that is initialized already, which it leaves as it is, and on
    one that is not when the three calls into the library succeed; the
    manager is then initialized, and every further [initialize] changes
    nothing, creates no engine and only logs a warning.  It raises when the
    manager was not initialized and one of the three calls raises: the
    exception is a [DatabaseConnectionError] whose text ends with the text
    of the exception of the first call that failed; the failure is logged,
    the manager stays uninitialized, and [get_session] keeps raising. *)
Theorem initialize_outcomes (self : DatabaseManager) (lib : library) :
  let '(self', events, outcome) := initialize self lib in
  match outcome with
  | Ok _ =>
      _initialized self' = true /\
      (_initialized self = true /\ self' = self \/
       _initialized self = false /\
       exists eng, create_engine lib = Ok eng /\
                   setup_event_listeners lib = Ok tt /\
                   sessionmaker lib = Ok tt /\
                   self' = {| engine := Some eng; session_factory := Some eng;
                              _initialized := true |}) /\
      forall lib', initialize self' lib'
                   = (self', [Log "warning" "database_already_initialized"], Ok tt)
  | Raise e =>
      _initialized self = false /\
      _initialized self' = false /\
      (exists cause,
          (create_engine lib = Raise cause \/
           (exists eng, create_engine lib = Ok eng) /\
           setup_event_listeners lib = Raise cause \/
           (exists eng, create_engine lib = Ok eng) /\
           setup_event_listeners lib = Ok tt /\
           sessionmaker lib = Raise cause) /\
          e = DatabaseConnectionError
                (String.append "Failed to initialize database: " (message cause))) /\
      last events = Some (Log "error" "database_initialization_failed") /\
      get_session self'
      = Raise (DatabaseConnectionError "Database not initialized. Call initialize() first.")
  end.
Proof.
  pose proof (initialize_cases self lib) as H.
  destruct (initialize self lib) as [[self' events] outcome]. apply H.
Qed.

(** X12.  [close] on a manager with an engine disposes of that engine,
    logs it and clears the flag; the engine and the session factory stay
    where they are.  So the closed manager hands out no session until it is
    initialized again, a new [initialize] then runs in full and binds the
    new engine, and closing again disposes of the same engine again.  Only
    a manager that never created an engine is closed without effect. *)
Theorem close_behaviour (self : DatabaseManager) :
  reachable self ->
  let '(closed, events) := close self in
  get_session closed
  = Raise (DatabaseConnectionError "Database not initialized. Call initialize() first.") /\
  (forall eng, fst (fst (initialize closed (working_library eng)))
               = {| engine := Some eng; session_factory := Some eng; _initialized := true |}) /\
  close closed = (closed, events) /\
  (events = [] <-> engine self = None) /\
  (forall eng, engine self = Some eng ->
     events = [Dispose eng; Log "info" "database_connections_closed"] /\
     engine closed = Some eng /\
     session_factory closed = session_factory self /\
     _initialized closed = false) /\
  (engine self = None -> closed = self).
Proof.
  intros Hr. destruct (manager_reachable_ok self Hr) as [Hi Hn].
  assert (Hu : engine self = None -> _initialized self = false).
  { intros E. destruct (_initialized self); [| reflexivity].
    destruct (Hi eq_refl) as (eng & He & _). congruence. }
  unfold close. destruct (engine self) as [eng |] eqn:E.
  - cbn. split; [reflexivity |]. split; [intros eng'; reflexivity |].
    split; [reflexivity |]. split; [split; discriminate |].
    split; [| discriminate]. intros eng' [= <-]. now repeat split.
  - specialize (Hu eq_refl). unfold get_session, initialize, close.
    rewrite Hu, E. cbn. repeat split; discriminate.
Qed.

(** A manager that was initialized with engine 1, closed, and closed
    again: the engine is disposed of both times. *)
Lemma close_behaviour_witness :
  reachable (step new_manager (Initialize (working_library 1))) /\
  snd (close (step new_manager (Initialize (working_library 1))))
  = [Dispose 1%N; Log "info" "database_connections_closed"] /\
  snd (close (fst (close (step new_manager (Initialize (working_library 1))))))
  = [Dispose 1%N; Log "info" "database_connections_closed"] /\
  get_session (fst (close (step new_manager (Initialize (working_library 1)))))
  = Raise (DatabaseConnectionError "Database not initialized. Call initialize() first.").
Proof.
  assert (H : reachable (step new_manager (Initialize (working_library 1))))
    by (apply reachable_step, reachable_new).
  split; [exact H |].
  pose proof (close_behaviour _ H) as Hc.
  destruct (close (step new_manager (Initialize (working_library 1)))) as [closed events].
  destruct Hc as (Hg & _ & Hcc & _ & Hd & _).
  destruct (Hd 1%N eq_refl) as (-> & _).
  cbn [fst snd]. rewrite Hcc. cbn [snd]. now repeat split.
Defined.

(** X13.  Around one session, [get_db] closes the session exactly once and
    last, whatever happens.  It commits exactly when the consumer finishes
    without an exception, rolls back exactly when the consumer or the commit
    raises, and does neither when the generator is closed.  It returns
    normally only if the consumer, the commit and the close all succeed;
    an exception of the consumer comes out unchanged when the rollback and
    the close succeed. *)
Theorem session_lifecycle (session : N) (body : body_outcome) (calls : session_calls) :
  let '(events, out) := with_session session body calls in
  (List.filter is_close events = [CloseSession session] /\
   last events = Some (CloseSession session)) /\
  (existsb is_commit events = true <-> body = Finished) /\
  (existsb is_rollback events = true <->
     (exists e, body = Raised e) \/ (body = Finished /\ exists e, commit calls = Raise e)) /\
  (out = Returned <->
     body = Finished /\ commit calls = Ok tt /\ close_session calls = Ok tt) /\
  (forall e, body = Raised e -> rollback calls = Ok tt -> close_session calls = Ok tt ->
             out = Propagated e).
Proof.
  unfold with_session.
  destruct body as [| e |];
    destruct (commit calls) as [[] | ec];
    destruct (rollback calls) as [[] | er];
    destruct (close_session calls) as [[] | ex];
    cbn;
    (split; [split; reflexivity |]);
    (split; [split; [try discriminate; reflexivity | try discriminate; reflexivity] |]);
    (split; [split;
             [intros H; try discriminate H;
              first [left; eexists; reflexivity
                    | right; split; [reflexivity | eexists; reflexivity]]
             | intros [[e' H] | [H [e' H']]]; try discriminate; reflexivity] |]);
    (split; [split; [intros H; try discriminate H; repeat split
                    | intros (H1 & H2 & H3); try discriminate; reflexivity] |]);
    intros e' H1 H2 H3; try discriminate; congruence.
Qed.

Lemma session_lifecycle_witness :
  snd (with_session 1 (Raised (Exception "boom"))
         {| commit := Ok tt; rollback := Ok tt; close_session := Ok tt |})
  = Propagated (Exception "boom").
Proof.
  pose proof (session_lifecycle 1 (Raised (Exception "boom"))
                {| commit := Ok tt; rollback := Ok tt; close_session := Ok tt |}) as H.
  destruct (with_session 1 (Raised (Exception "boom"))
              {| commit := Ok tt; rollback := Ok tt; close_session := Ok tt |}) as [events out].
  destruct H as (_ & _ & _ & _ & H). cbn [snd]. now apply H.
Defined.

(** X14.  [get_db] on a manager in any state of its life: if the manager is
    not initialized it is initialized first, and if that fails the
    [DatabaseConnectionError] comes out and no session is opened, committed
    or closed.  Otherwise the session is bound to the current engine and
    what follows is the life of that one session; an initialized manager is
    not initialized again. *)
Theorem get_db_startup (db_manager : DatabaseManager) (lib : library)
  (body : body_outcome) (calls : session_calls) :
  reachable db_manager ->
  let '(manager, events, out) := get_db db_manager lib body calls in
  reachable manager /\
  match get_session manager with
  | Ok session =>
      engine manager = Some session /\
      exists startup,
        events = startup ++ fst (with_session session body calls) /\
        out = snd (with_session session body calls) /\
        existsb is_session_event startup = false /\
        (_initialized db_manager = true -> startup = [] /\ manager = db_manager) /\
        (_initialized db_manager = false ->
         initialize db_manager lib = (manager, startup, Ok tt))
  | Raise _ =>
      (exists msg,
          out = Propagated (DatabaseConnectionError msg) /\
          initialize db_manager lib
          = (manager, events, Raise (DatabaseConnectionError msg))) /\
      existsb is_session_event events = false /\
      _initialized db_manager = false
  end.
Proof.
  intros Hr. unfold get_db.
  destruct (_initialized db_manager) eqn:E; cbn [negb].
  - destruct (get_session_spec db_manager (manager_reachable_ok _ Hr)) as [Hi Hs].
    destruct (get_session db_manager) as [session | e] eqn:G.
    + destruct (with_session session body calls) as [events' out'] eqn:W.
      split; [exact Hr |]. rewrite G.
      split; [now apply Hs |].
      exists []. rewrite W. repeat split. discriminate.
    + exfalso. destruct (manager_reachable_ok _ Hr) as [Hok _].
      destruct (Hok E) as (eng & _ & Hf).
      unfold get_session in G. rewrite E, Hf in G. discriminate.
  - assert (Hr' : reachable (fst (fst (initialize db_manager lib))))
      by (apply (reachable_step db_manager (Initialize lib) Hr)).
    pose proof (initialize_cases db_manager lib) as Ho.
    destruct (initialize db_manager lib) as [[manager events] outcome].
    cbn [fst] in Hr'. destruct Ho as [Hev Ho]. destruct outcome as [[] | e].
    + destruct Ho as (Hi & _).
      destruct (get_session_spec manager (manager_reachable_ok _ Hr')) as [Hn Hs].
      destruct (get_session manager) as [session | e] eqn:G.
      * destruct (with_session session body calls) as [events' out'] eqn:W.
        split; [exact Hr' |]. rewrite G.
        split; [now apply Hs |].
        exists events. rewrite W.
        repeat split; [exact Hev | discriminate | discriminate].
      * exfalso. unfold get_session in G. rewrite Hi in G.
        destruct (manager_reachable_ok _ Hr') as [Hok _]. destruct (Hok Hi) as (eng & _ & Hf).
        rewrite Hf in G. discriminate.
    + destruct Ho as (_ & Hi & (cause & _ & ->) & _ & Hg).
      split; [exact Hr' |]. rewrite Hg.
      split; [eexists; split; reflexivity |]. split; [exact Hev | reflexivity].
Qed.

Lemma get_db_startup_witness :
  reachable new_manager /\
  get_db new_manager (working_library 7) Finished
    {| commit := Ok tt; rollback := Ok tt; close_session := Ok tt |}
  = ({| engine := Some 7%N; session_factory := Some 7%N; _initialized := true |},
     [CreateEngine; SetupEventListeners; MakeSessionFactory;
      Log "info" "database_initialized"; Commit 7; CloseSession 7],
     Returned).
Proof.
  split; [exact reachable_new |].
  pose proof (get_db_startup new_manager (working_library 7) Finished
                {| commit := Ok tt; rollback := Ok tt; close_session := Ok tt |}
                reachable_new) as H.
  destruct (get_db new_manager (working_library 7) Finished
              {| commit := Ok tt; rollback := Ok tt; close_session := Ok tt |})
    as [[manager events] out] eqn:E.
  vm_compute in E. now injection E as <- <- <-.
Defined.

End ConnectionFacts.

(** ** The exception classes *)

Module ExceptionsFacts.

Import Exceptions.

Lemma all_classes_complete (c : exception_class) : In c all_classes.
Proof. destruct c; cbn; tauto. Qed.

Lemma class_eqb_eq (c d : exception_class) : class_eqb c d = true <-> c = d.
Proof.
  unfold class_eqb. rewrite Nat.eqb_eq. split; [| now intros ->].
  destruct c, d; cbn; intros H; try reflexivity; discriminate H.
Qed.

Lemma forall_classes (P : exception_class -> bool) :
  forallb P all_classes = true -> forall c, P c = true.
Proof. intros H c. exact (proj1 (forallb_forall P all_classes) H c (all_classes_complete c)). Qed.

(** X15.  Every class of the module is a subclass of [L1AgentException], so
    one handler for it catches them all; subclassing is a partial order
    (reflexive, antisymmetric, transitive) in which each class has at most
    two classes above it; and a handler for [ValidationError] catches the
    four validation errors and itself and nothing else, in particular not
    [ConfidenceScoringError]. *)
Theorem exception_hierarchy :
  (forall c, issubclass c L1AgentException = true) /\
  (forall c, issubclass c c = true) /\
  (forall c d, issubclass c d = true -> issubclass d c = true -> c = d) /\
  (forall c d e, issubclass c d = true -> issubclass d e = true -> issubclass c e = true) /\
  (forall c, (length (List.filter (issubclass c) all_classes) <= 3)%nat) /\
  List.filter (fun c => issubclass c ValidationError) all_classes
  = [ValidationError; DomainValidationError; ContentAnalysisError;
     SenderCheckError; RulesEngineError].
Proof.
  split; [| split; [| split; [| split; [| split]]]].
  - apply forall_classes. vm_compute. reflexivity.
  - apply forall_classes. vm_compute. reflexivity.
  - intros c d Hcd Hdc. apply class_eqb_eq.
    assert (H : forallb (fun c => forallb (fun d =>
                  implb (issubclass c d && issubclass d c) (class_eqb c d)) all_classes)
                  all_classes = true) by (vm_compute; reflexivity).
    pose proof (forall_classes _ (forall_classes _ H c) d) as Hi.
    cbn beta in Hi. rewrite Hcd, Hdc in Hi. exact Hi.
  - intros c d e Hcd Hde.
    assert (H : forallb (fun c => forallb (fun d => forallb (fun e =>
                  implb (issubclass c d && issubclass d e) (issubclass c e))
                  all_classes) all_classes) all_classes = true) by (vm_compute; reflexivity).
    pose proof (forall_classes _ (forall_classes _ (forall_classes _ H c) d) e) as Hi.
    cbn beta in Hi. rewrite Hcd, Hde in Hi. exact Hi.
  - intros c.
    assert (H : forallb (fun c => Nat.leb (length (List.filter (issubclass c) all_classes)) 3)
                  all_classes = true) by (vm_compute; reflexivity).
    apply Nat.leb_le. exact (forall_classes _ H c).
  - vm_compute. reflexivity.
Qed.

End ExceptionsFacts.

(** ** The tables of constants *)

Module ConstantsTablesFacts.

Import PyFloat Constants ConstantsTables.

(** X16.  Every value of an enumeration fits the column that stores it,
    and the values of one enumeration are distinct, so the stored string
    identifies the member; the default status of an approval request is a
    value of [ApprovalStatus].  A list entry whose type is a value of
    [WhitelistType] is never refused for its type: it fits its columns as
    soon as its value and the name of who added it are at most 255
    characters long. *)
Theorem enum_values_fit_columns :
  List.Forall (fun '(_, _, limit, values) =>
            distinct values = true /\
            List.Forall (fun v => (String.length v <= limit)%nat) values)
         enum_columns /\
  mem approval_status_default ApprovalStatus_values = true /\
  (forall t, mem (whitelist_type_value t) WhitelistType_values = true) /\
  (forall r : Models.ListEntry,
      mem (Models.entry_type r) WhitelistType_values = true ->
      (String.length (Models.value r) <= 255)%nat ->
      (forall a, Models.added_by r = Some a -> (String.length a <= 255)%nat) ->
      Models.columns_fit r = true).
Proof.
  split; [| split; [| split]].
  - unfold enum_columns.
    repeat (constructor; [split; [vm_compute; reflexivity |];
                          repeat (constructor; [cbn; lia |]); constructor |]).
    constructor.
  - reflexivity.
  - intros []; reflexivity.
  - intros r Ht Hv Ha. unfold Models.columns_fit.
    assert (Hl : (String.length (Models.entry_type r) <= 20)%nat).
    { cbn in Ht. rewrite !orb_true_iff, !String.eqb_eq in Ht.
      destruct Ht as [-> | [-> | [-> | H]]]; [cbn; lia | cbn; lia | cbn; lia | discriminate]. }
    apply Nat.leb_le in Hl, Hv. rewrite Hl, Hv. cbn [andb].
    destruct (Models.added_by r) as [a |]; [| reflexivity].
    apply Nat.leb_le. now apply Ha.
Qed.

Lemma enum_values_fit_columns_witness :
  Models.columns_fit (Models.sample_entry 1) = true.
Proof.
  apply (proj2 (proj2 (proj2 enum_values_fit_columns))).
  - reflexivity.
  - cbn. lia.
  - intros a [= <-]. cbn. lia.
Defined.

(** X17.  [COMPONENT_WEIGHTS] has a group for the domain, the content and
    the sender, and none for the rules; in every group each sub-weight is
    non-negative and the sub-weights sum to 1 within 1e-6, both as Python
    adds them and as exact rationals. *)
Theorem component_weights_valid :
  map fst COMPONENT_WEIGHTS = ["domain"; "content"; "sender"]%string /\
  List.Forall (fun group =>
            distinct (map fst (snd group)) = true /\
            List.Forall (fun w => is_float w = true /\ leb zero w = true)
                   (map snd (snd group)) /\
            within_tolerance (weights_sum (snd group)) = true /\
            exists q, exact_sum (snd group) = Some q /\
                      (Qabs (q - 1) <= 1 # 1000000)%Q)
         COMPONENT_WEIGHTS.
Proof.
  split; [reflexivity |]. unfold COMPONENT_WEIGHTS.
  repeat (constructor;
          [split; [vm_compute; reflexivity |];
           split; [cbn [map snd]; repeat (constructor; [split; vm_compute; reflexivity |]);
                   constructor |];
           split; [vm_compute; reflexivity |];
           eexists; split; [vm_compute; reflexivity | vm_compute; discriminate] |]).
  constructor.
Qed.

(** X18.  The keyword and extension tables are normalised: every entry is
    lower-case and no entry occurs twice in its table; every extension
    starts with a dot; no extension is both suspicious and allowed; the
    phishing and spam keywords share "click here" and nothing else. *)
Theorem keyword_tables_normalised :
  List.Forall (fun table =>
            distinct table = true /\
            List.Forall (fun e => PyStr.lower e = e) table)
         [PHISHING_KEYWORDS; SPAM_KEYWORDS; SUSPICIOUS_EXTENSIONS; ALLOWED_EXTENSIONS] /\
  List.Forall (fun e => PyStr.startswith "." e = true)
         (SUSPICIOUS_EXTENSIONS ++ ALLOWED_EXTENSIONS) /\
  List.filter (fun e => mem e ALLOWED_EXTENSIONS) SUSPICIOUS_EXTENSIONS = [] /\
  List.filter (fun e => mem e SPAM_KEYWORDS) PHISHING_KEYWORDS = ["click here"%string].
Proof.
  split; [| split; [| split]].
  - repeat (constructor; [split; [vm_compute; reflexivity |];
                          repeat (constructor; [vm_compute; reflexivity |]); constructor |]).
    constructor.
  - cbn [app SUSPICIOUS_EXTENSIONS ALLOWED_EXTENSIONS].
    repeat (constructor; [reflexivity |]). constructor.
  - vm_compute. reflexivity.
  - vm_compute. reflexivity.
Qed.

End ConstantsTablesFacts.

(** ** The table of policies *)

Module PolicyStoreFacts.

Import PolicyStore.

Section Replace.

Context {A K : Type} (ident : A -> N) (key : A -> K).

Lemma replace_absent (t : list A) (i : N) (r : A) :
  ~ In i (map ident t) -> map (fun x => if N.eqb (ident x) i then r else x) t = t.
Proof.
  induction t as [| a t IH]; cbn [map In]; [reflexivity |].
  intros H. destruct (N.eqb_spec (ident a) i) as [E | _]; [exfalso; apply H; now left |].
  f_equal. apply IH. intros Hin. apply H. now right.
Qed.

Lemma replace_idents (t : list A) (i : N) (r : A) :
  ident r = i -> map ident (map (fun x => if N.eqb (ident x) i then r else x) t) = map ident t.
Proof.
  intros Hr. induction t as [| a t IH]; cbn [map]; [reflexivity |].
  rewrite IH. f_equal. destruct (N.eqb_spec (ident a) i); congruence.
Qed.

(** Replacing the row of one primary key keeps a column unique when no
    other row holds the new value. *)
Lemma replace_keys (t : list A) (i : N) (r : A) :
  List.NoDup (map ident t) -> List.NoDup (map key t) ->
  (forall x, In x t -> ident x <> i -> key x <> key r) ->
  List.NoDup (map key (map (fun x => if N.eqb (ident x) i then r else x) t)).
Proof.
  intros Hid Hkey. induction t as [| a t IH]; cbn [map]; intros Hother; [constructor |].
  inversion Hid as [| ? ? Hna Hid']; subst. inversion Hkey as [| ? ? Hka Hkey']; subst.
  destruct (N.eqb_spec (ident a) i) as [E | Hne].
  - subst i. rewrite (replace_absent t (ident a) r Hna). constructor; [| exact Hkey'].
    intros Hin. apply in_map_iff in Hin as (x & Hx & Hin).
    apply (Hother x); [now right | | exact Hx].
    intros E. apply Hna. rewrite <- E. now apply in_map.
  - constructor.
    + intros Hin. apply in_map_iff in Hin as (y & Hy & Hin).
      apply in_map_iff in Hin as (x & Hx & Hin).
      destruct (N.eqb_spec (ident x) i) as [E | Hxi]; subst y.
      * apply (Hother a); [now left | exact Hne | now symmetry].
      * apply Hka. rewrite <- Hy. now apply in_map.
    + apply IH; [exact Hid' | exact Hkey' |].
      intros x Hx. apply Hother. now right.
Qed.

End Replace.

Section Table.

Context {Condition : Type}.

Lemma existsb_false_not_in {K : Type} (f : PolicyRow Condition -> K) (eqb : K -> K -> bool)
  (t : list (PolicyRow Condition)) (k : K) :
  (forall a b, a = b -> eqb a b = true) ->
  existsb (fun x => eqb (f x) k) t = false -> ~ In k (map f t).
Proof.
  intros Heq H Hin. apply in_map_iff in Hin as (x & Hx & Hin).
  assert (E : existsb (fun x => eqb (f x) k) t = true).
  { apply existsb_exists. exists x. split; [exact Hin | now apply Heq]. }
  congruence.
Qed.

Lemma policy_execute_ok (t t' : list (PolicyRow Condition)) (st : statement Condition) :
  policy_table_ok t -> execute t st = Ok t' -> policy_table_ok t'.
Proof.
  intros [Hid Hkey]. destruct st as [r | i | i new]; cbn [execute].
  - unfold insert_row. destruct (negb (columns_fit r)); [discriminate |].
    destruct (existsb (fun x => N.eqb (id x) (id r)) t) eqn:Hi; [discriminate |].
    destruct (existsb (fun x => String.eqb (row_rule_id x) (row_rule_id r)) t) eqn:Hk;
      [discriminate |].
    intros [= <-]. split; apply ModelsFacts.nodup_map_snoc; try assumption.
    + apply (existsb_false_not_in id N.eqb); [| exact Hi]. intros a b ->. apply N.eqb_refl.
    + apply (existsb_false_not_in row_rule_id String.eqb); [| exact Hk].
      intros a b ->. apply String.eqb_refl.
  - intros [= <-]. split; now apply ModelsFacts.nodup_map_filter.
  - unfold update_row.
    destruct (find (fun x => N.eqb (id x) i) t) as [old |] eqn:Hf; [| now intros [= <-]].
    cbn zeta. destruct (negb (columns_fit _)); [discriminate |].
    destruct (existsb _ t) eqn:He; [discriminate |].
    intros [= <-]. split.
    + rewrite (replace_idents id); [exact Hid | reflexivity].
    + apply (replace_keys id row_rule_id); [exact Hid | exact Hkey |].
      intros x Hx Hne E.
      assert (Ht : existsb (fun x => negb (N.eqb (id x) i)
                                     && String.eqb (row_rule_id x)
                                          (row_rule_id {| id := i; policy := new |})) t
                   = true).
      { apply existsb_exists. exists x. split; [exact Hx |].
        apply andb_true_iff. split; [| now apply String.eqb_eq].
        apply negb_true_iff. now apply N.eqb_neq. }
      congruence.
Qed.

Lemma policy_reachable_ok (t : list (PolicyRow Condition)) :
  reachable t -> policy_table_ok t.
Proof.
  induction 1 as [| t t' st _ IH Hex].
  - split; constructor.
  - now apply (policy_execute_ok t t' st).
Qed.

(** X19.  In every reachable state of the table of policies the rule ids
    are unique, so the evaluator, given the rows of the table, considers the
    enabled ones in a strictly ascending order of priority and rule id: no
    two policies are ever tied. *)
Theorem policy_table_strict_order (t : list (PolicyRow Condition)) :
  reachable t ->
  List.NoDup (map Engine.rule_id (snapshot t)) /\
  StronglySorted Engine.policy_lt (Engine.evaluation_order (snapshot t)).
Proof.
  intros Hr. destruct (policy_reachable_ok t Hr) as [_ Hkey].
  assert (Hn : List.NoDup (map Engine.rule_id (snapshot t))).
  { unfold snapshot. rewrite map_map. exact Hkey. }
  split; [exact Hn |]. now apply EngineFacts.evaluation_order_strict.
Qed.

End Table.

Lemma policy_table_strict_order_witness :
  reachable example_rows /\
  StronglySorted Engine.policy_lt (Engine.evaluation_order (snapshot example_rows)).
Proof.
  assert (H : reachable example_rows).
  { apply (reachable_step _ [ {| id := 1; policy := Engine.Build_Policy "R2" "hold invoices"
                                 "invoice in subject" 2 "content" "invoice"
                                 Engine.RequireApproval true |} ] _
             (Insert {| id := 2; policy := Engine.Build_Policy "R1" "escalate urgent"
                          "urgent in subject" 1 "content" "urgent" Engine.Escalate true |}));
      [| reflexivity].
    apply (reachable_step _ [] _
             (Insert {| id := 1; policy := Engine.Build_Policy "R2" "hold invoices"
                          "invoice in subject" 2 "content" "invoice"
                          Engine.RequireApproval true |}));
      [constructor | reflexivity]. }
  split; [exact H |].
  exact (proj2 (policy_table_strict_order example_rows H)).
Defined.

End PolicyStoreFacts.

(** ** The two lists are independent *)

Module ListStatementsFacts.

Import Models ListStatements.

Lemma existsb_key_iff (t : table) (k : string * string) :
  existsb (fun x => key_eqb (entry_key x) k) t = true <-> In k (map entry_key t).
Proof.
  rewrite existsb_exists, in_map_iff. split.
  - intros (x & Hx & Hk). apply ModelsFacts.key_eqb_eq in Hk. now exists x.
  - intros (x & Hk & Hx). exists x. split; [exact Hx | now apply ModelsFacts.key_eqb_eq].
Qed.

(** X20.  A statement about one list leaves the other list as it was, and
    whether it is accepted does not depend on the other list.  An entry that
    fits its columns and has a fresh primary key is refused exactly when its
    pair of type and value is already in its own list, with the name of the
    constraint of that list; otherwise it is appended. *)
Theorem lists_independent :
  (forall s st s', execute s st = Ok s' ->
     other_table s' (target st) = other_table s (target st)) /\
  (forall s1 s2 st,
     own_table s1 (target st) = own_table s2 (target st) ->
     is_ok (execute s1 st) = is_ok (execute s2 st)) /\
  (forall s l r,
     columns_fit r = true ->
     ~ In (id r) (map id (own_table s l)) ->
     (In (entry_key r) (map entry_key (own_table s l)) ->
      execute s (Insert l r) = Raise (UniqueViolation (constraint_name l))) /\
     (~ In (entry_key r) (map entry_key (own_table s l)) ->
      exists s', execute s (Insert l r) = Ok s' /\
                 own_table s' l = own_table s l ++ [r])).
Proof.
  split; [| split].
  - intros s [[|] r | [|] i | [|] i new] s'; cbn [execute target other_table].
    + destruct (insert_row _ _ _ r); [| discriminate]. now intros [= <-].
    + destruct (insert_row _ _ _ r); [| discriminate]. now intros [= <-].
    + now intros [= <-].
    + now intros [= <-].
    + destruct (update_row _ _ i new); [| discriminate]. now intros [= <-].
    + destruct (update_row _ _ i new); [| discriminate]. now intros [= <-].
  - intros s1 s2 [[|] r | [|] i | [|] i new]; cbn [execute target own_table];
      intros ->; try reflexivity.
    + now destruct (insert_row _ _ (whitelists s2) r).
    + now destruct (insert_row _ _ (blacklists s2) r).
    + now destruct (update_row _ (whitelists s2) i new).
    + now destruct (update_row _ (blacklists s2) i new).
  - intros s l r Hfit Hid.
    assert (Hi : existsb (fun x => N.eqb (id x) (id r)) (own_table s l) = false).
    { destruct (existsb (fun x => N.eqb (id x) (id r)) (own_table s l)) eqn:E;
        [| reflexivity].
      exfalso. apply Hid. apply existsb_exists in E as (x & Hx & He).
      apply N.eqb_eq in He. rewrite <- He. now apply in_map. }
    split.
    + intros Hk. apply existsb_key_iff in Hk.
      destruct l; cbn [execute own_table constraint_name] in *; unfold insert_row;
        now rewrite Hfit, Hi, Hk.
    + intros Hk.
      assert (Hf : existsb (fun x => key_eqb (entry_key x) (entry_key r)) (own_table s l)
                   = false).
      { destruct (existsb (fun x => key_eqb (entry_key x) (entry_key r)) (own_table s l))
          eqn:E; [| reflexivity].
        exfalso. apply Hk. now apply existsb_key_iff. }
      destruct l; cbn [execute own_table] in *; unfold insert_row;
        rewrite Hfit, Hi, Hf; cbn; eexists; split; reflexivity.
Qed.

Lemma lists_independent_witness :
  execute {| whitelists := [sample_entry 1]; blacklists := [] |}
          (Insert Whitelist (sample_entry 2))
  = Raise (UniqueViolation "uq_whitelist_type_value").
Proof.
  apply (proj2 (proj2 lists_independent)
           {| whitelists := [sample_entry 1]; blacklists := [] |} Whitelist (sample_entry 2)).
  - reflexivity.
  - cbn. intros [H | []]. discriminate.
  - cbn. now left.
Defined.

End ListStatementsFacts.

(** ** Table names *)

Module BaseFacts.

Import Base.

Lemma sub_words_letters (st : scan) (s : text) :
  without_underscores (sub_words st s) = without_underscores s.
Proof.
  revert st. induction s as [| c rest IH]; intros st; [reflexivity |].
  cbn [sub_words]. destruct st.
  - destruct (is_dot c && starts_word rest); cbn [without_underscores];
      rewrite ?N.eqb_refl, IH; reflexivity.
  - cbn [without_underscores]. now rewrite IH.
  - destruct (is_lower c); [cbn [without_underscores]; now rewrite IH |].
    destruct (is_dot c && starts_word rest); cbn [without_underscores];
      rewrite ?N.eqb_refl, IH; reflexivity.
Qed.

Lemma sub_humps_step (a b : N) (rest : text) :
  sub_humps (a :: b :: rest) =
  if is_lower_or_digit a && is_upper b
  then a :: underscore :: b :: sub_humps rest
  else a :: sub_humps (b :: rest).
Proof. reflexivity. Qed.

Lemma sub_humps_letters (s : text) :
  without_underscores (sub_humps s) = without_underscores s.
Proof.
  assert (H : forall s,
             without_underscores (sub_humps s) = without_underscores s /\
             forall a, without_underscores (sub_humps (a :: s))
                       = without_underscores (a :: s)).
  { clear s. induction s as [| b rest [IH1 IH2]].
    - split; [reflexivity | intros a; reflexivity].
    - split; [apply IH2 |]. intros a. rewrite sub_humps_step.
      destruct (is_lower_or_digit a && is_upper b).
      + cbn [without_underscores]. rewrite N.eqb_refl, IH1. reflexivity.
      + cbn [without_underscores]. rewrite (IH2 b). reflexivity. }
  apply H.
Qed.

Lemma starts_word_no_upper (s : text) : has_upper s = false -> starts_word s = false.
Proof.
  destruct s as [| u [| l rest]]; try reflexivity.
  cbn [has_upper starts_word]. intros H. apply orb_false_iff in H as [-> _]. reflexivity.
Qed.

Lemma sub_words_no_upper (s : text) :
  has_upper s = false -> sub_words Looking s = s /\ sub_words InRun s = s.
Proof.
  induction s as [| c rest IH]; [now split |].
  cbn [has_upper]. intros H. apply orb_false_iff in H as [_ H].
  destruct (IH H) as [IHl IHr]. cbn [sub_words].
  rewrite (starts_word_no_upper rest H), andb_false_r, IHl, IHr.
  split; [reflexivity | now destruct (is_lower c)].
Qed.

Lemma sub_humps_no_upper (s : text) : has_upper s = false -> sub_humps s = s.
Proof.
  assert (H : forall s, has_upper s = false ->
                        sub_humps s = s /\ forall a, sub_humps (a :: s) = a :: s).
  { clear s. induction s as [| b rest IH]; intros H.
    - now split.
    - cbn [has_upper] in H. apply orb_false_iff in H as [Hb H].
      destruct (IH H) as [IH1 IH2]. split; [apply IH2 |].
      intros a. rewrite sub_humps_step, Hb, andb_false_r.
      f_equal. apply IH2. }
  intros Hs. now apply H.
Qed.

Lemma underscored_no_upper (s : text) : has_upper s = false -> underscored s = s.
Proof.
  intros Hs. unfold underscored.
  rewrite (proj1 (sub_words_no_upper s Hs)). now apply sub_humps_no_upper.
Qed.

(** The substitutions add underscores only, so they keep a name below
    256. *)
Lemma sub_words_latin1 (st : scan) (s : text) : latin1 s -> latin1 (sub_words st s).
Proof.
  unfold latin1. intros H. revert st.
  induction H as [| c rest Hc _ IH]; intros st; [constructor |].
  assert (Hu : (underscore < 256)%N) by reflexivity.
  cbn [sub_words]. destruct st.
  - destruct (is_dot c && starts_word rest); repeat constructor; auto.
  - constructor; auto.
  - destruct (is_lower c); [constructor; auto |].
    destruct (is_dot c && starts_word rest); repeat constructor; auto.
Qed.

Lemma sub_humps_latin1 (s : text) : latin1 s -> latin1 (sub_humps s).
Proof.
  unfold latin1.
  assert (H : forall s, Forall (fun c => (c < 256)%N) s ->
                        Forall (fun c => (c < 256)%N) (sub_humps s) /\
                        forall a, (a < 256)%N ->
                                  Forall (fun c => (c < 256)%N) (sub_humps (a :: s))).
  { clear s. induction s as [| b rest IH]; intros H.
    - split; [constructor | intros a Ha; repeat constructor; exact Ha].
    - inversion H as [| ? ? Hb Hrest]; subst.
      destruct (IH Hrest) as [IH1 IH2]. split; [now apply IH2 |].
      intros a Ha. rewrite sub_humps_step.
      destruct (is_lower_or_digit a && is_upper b).
      + constructor; [exact Ha |]. constructor; [reflexivity |]. now constructor.
      + constructor; [exact Ha |]. now apply IH2. }
  intros Hs. now apply H.
Qed.

Lemma lower_latin1_underscore (c : N) :
  (lower_latin1 c =? underscore)%N = (c =? underscore)%N.
Proof.
  unfold lower_latin1, underscore.
  destruct ((65 <=? c) && (c <=? 90) || (192 <=? c) && (c <=? 222) && negb (c =? 215))%N
    eqn:E; [| reflexivity].
  destruct (N.eqb_spec (c + 32) 95), (N.eqb_spec c 95); try reflexivity; subst; try lia.
  - replace c with 63%N in E by lia. discriminate E.
  - discriminate E.
Qed.

Lemma latin1_lower_letters (s : text) :
  without_underscores (latin1_lower s) = latin1_lower (without_underscores s).
Proof.
  unfold latin1_lower. induction s as [| c rest IH]; [reflexivity |].
  cbn [map without_underscores]. rewrite lower_latin1_underscore.
  destruct (c =? underscore)%N; [exact IH |]. cbn [map]. now rewrite IH.
Qed.

Lemma lower_latin1_not_upper (c : N) : is_upper (lower_latin1 c) = false.
Proof.
  unfold lower_latin1, is_upper.
  destruct ((65 <=? c) && (c <=? 90) || (192 <=? c) && (c <=? 222) && negb (c =? 215))%N
    eqn:E.
  - apply andb_false_iff.
    destruct (N.leb_spec 65 (c + 32)), (N.leb_spec (c + 32) 90); auto.
    exfalso. assert (c <= 58)%N by lia.
    rewrite orb_true_iff, !andb_true_iff, !N.leb_le in E. lia.
  - rewrite orb_false_iff in E. destruct E as [E _]. exact E.
Qed.

Lemma lower_latin1_idempotent (c : N) : lower_latin1 (lower_latin1 c) = lower_latin1 c.
Proof.
  destruct ((65 <=? c) && (c <=? 90) || (192 <=? c) && (c <=? 222) && negb (c =? 215))%N
    eqn:E.
  - assert (H : lower_latin1 c = (c + 32)%N) by (unfold lower_latin1; now rewrite E).
    rewrite H. unfold lower_latin1.
    destruct ((65 <=? c + 32) && (c + 32 <=? 90)
              || (192 <=? c + 32) && (c + 32 <=? 222) && negb (c + 32 =? 215))%N eqn:E';
      [| reflexivity].
    exfalso.
    rewrite orb_true_iff, !andb_true_iff, !N.leb_le in E, E'. lia.
  - assert (H : lower_latin1 c = c) by (unfold lower_latin1; now rewrite E).
    now rewrite !H.
Qed.

(** The three facts below hold of [latin1_lower]. *)
Lemma latin1_lower_no_upper (s : text) : has_upper (latin1_lower s) = false.
Proof.
  unfold latin1_lower. induction s as [| c rest IH]; [reflexivity |].
  cbn [map has_upper]. now rewrite lower_latin1_not_upper, IH.
Qed.

Lemma latin1_lower_idempotent (s : text) : latin1_lower (latin1_lower s) = latin1_lower s.
Proof.
  unfold latin1_lower. rewrite map_map. apply map_ext. exact lower_latin1_idempotent.
Qed.

Section Lower.

(** What the development uses of [str.lower]: its result has no letter
    A-Z; lower-casing twice is lower-casing once; on a string of code
    points below 256 it works character by character. *)
Variable lower : text -> text.
Hypothesis lower_no_upper : forall s, has_upper (lower s) = false.
Hypothesis lower_idempotent : forall s, lower (lower s) = lower s.
Hypothesis lower_on_latin1 : forall s, latin1 s -> lower s = latin1_lower s.


End Lower.


End BaseFacts.

(** ** The chain of processors *)

Module LoggingChainFacts.

Import PyStr Logging LoggingContext LoggingChain.

(** X21.  After the first three processors of the chain, a sensitive key
    holds the redaction string whether it came with the event or from the
    bound context (a [LoggerAdapter] in scope), and is absent only if it was
    in neither.  Any other key than "app" and "environment" holds the value
    of the event, or the value bound in the context when the event has none.
    The chain ends in the console renderer exactly when the environment is
    development in any case, and in the JSON renderer otherwise. *)
Theorem chain_redacts_context (settings : Settings.Settings)
  (store event_dict : gmap string py_value) (logger : py_value) (method_name key : string) :
  let out := first_processors settings store logger method_name event_dict in
  (is_sensitive key = true ->
   out !! key = (fun _ => VStr "***REDACTED***") <$> (event_dict ∪ store) !! key) /\
  (is_sensitive key = false -> key <> "app"%string -> key <> "environment"%string ->
   out !! key = match event_dict !! key with
                | Some v => Some v
                | None => store !! key
                end) /\
  (chosen_renderer settings = ConsoleRenderer <->
   lower (Settings.environment settings) = "development"%string).
Proof.
  cbn zeta. unfold first_processors, add_app_context, merge_contextvars.
  assert (Ha : is_sensitive "app" = false) by (vm_compute; reflexivity).
  assert (He : is_sensitive "environment" = false) by (vm_compute; reflexivity).
  split; [| split].
  - intros Hk. rewrite LoggingContextFacts.censor_lookup, Hk.
    rewrite !lookup_insert_ne by (intros <-; congruence). reflexivity.
  - intros Hk Hna Hne. rewrite LoggingContextFacts.censor_lookup, Hk.
    rewrite !lookup_insert_ne by congruence.
    destruct (event_dict !! key) as [v |] eqn:Hv.
    + now apply lookup_union_Some_l.
    + now apply lookup_union_r.
  - unfold chosen_renderer, Settings.is_development.
    destruct (String.eqb_spec (lower (Settings.environment settings)) "development");
      split; intros H; congruence.
Qed.

Lemma chain_redacts_context_witness :
  first_processors
    {| Settings.environment := "production"; Settings.log_level := "INFO";
       Settings.debug := false;
       Settings.database := {| Settings.host := "localhost"; Settings.port := 5432;
                               Settings.name := "l1_agent"; Settings.user := "l1_user";
                               Settings.password := "s3cret"; Settings.pool_size := 20;
                               Settings.max_overflow := 10 |} |}
    {[ "api_key" := VStr "abc123" ]} VNone "info" {[ "event" := VStr "started" ]}
    !! "api_key"
  = Some (VStr "***REDACTED***").
Proof.
  pose proof (chain_redacts_context
    {| Settings.environment := "production"; Settings.log_level := "INFO";
       Settings.debug := false;
       Settings.database := {| Settings.host := "localhost"; Settings.port := 5432;
                               Settings.name := "l1_agent"; Settings.user := "l1_user";
                               Settings.password := "s3cret"; Settings.pool_size := 20;
                               Settings.max_overflow := 10 |} |}
    {[ "api_key" := VStr "abc123" ]} {[ "event" := VStr "started" ]} VNone "info" "api_key")
    as (H & _).
  cbn zeta in H. rewrite H; reflexivity.
Defined.

End LoggingChainFacts.

(** ** What a loaded configuration guarantees *)

Module ThresholdsFacts.

Import PyFloat Config.

Lemma default_in_range (n : Z) (k : nat) :
  is_float (decimal n k) = true ->
  leb zero (decimal n k) && leb (decimal n k) one = true ->
  in_unit_interval (decimal n k).
Proof. intros Hf Ht. now apply (PyFloatFacts.range_test_spec _ Hf). Qed.

(** A validated field that loads is in range when its default is. *)
Lemma validated_field_in_range (alias : string) (d : float) (raw : env_var float) (x : float) :
  (forall v, raw = Parsed v -> is_float v = true) ->
  in_unit_interval d ->
  validated_field alias d raw = Ok x -> in_unit_interval x.
Proof.
  intros Hfl Hd Hx.
  assert (Hok : is_ok (validated_field alias d raw) = true) by now rewrite Hx.
  apply (ConfigFacts.validated_field_ok alias d raw Hfl) in Hok as [_ Hin].
  apply ConfigFacts.validated_field_value in Hx. subst x.
  destruct raw as [| v |]; cbn [configured]; [exact Hd | now apply Hin | exact Hd].
Qed.

(** X23.  Every configuration that loads has its three thresholds in the
    interval from 0 to 1, defaults included.  The two hold extensions are
    taken as configured, whatever integer they are: they are parsed and not
    validated. *)
Theorem loaded_thresholds_in_range (env : ThresholdsEnv) (cfg : ThresholdsConfig) :
  env_is_float env ->
  load_thresholds env = Ok cfg ->
  in_unit_interval (auto_release_min cfg) /\
  in_unit_interval (approval_min cfg) /\
  in_unit_interval (escalate_max cfg) /\
  (HOLD_EXTENSION_DEFAULT env <> Unparsable /\
   hold_extension_default cfg = configured 7 (HOLD_EXTENSION_DEFAULT env)) /\
  (HOLD_EXTENSION_HIGH_RISK env <> Unparsable /\
   hold_extension_high_risk cfg = configured 30 (HOLD_EXTENSION_HIGH_RISK env)).
Proof.
  intros (Ha & Hp & He) Hload.
  assert (D85 : in_unit_interval (decimal 85 2))
    by (apply default_in_range; vm_compute; reflexivity).
  assert (D60 : in_unit_interval (decimal 60 2))
    by (apply default_in_range; vm_compute; reflexivity).
  pose proof (ConfigFacts.load_ok_fields env cfg Hload) as (Fa & Fp & Fe & Fd & Fh).
  pose proof (ConfigFacts.load_values env cfg Hload) as (_ & _ & _ & Vd & Vh).
  split; [exact (validated_field_in_range _ _ _ _ Ha D85 Fa) |].
  split; [exact (validated_field_in_range _ _ _ _ Hp D60 Fp) |].
  split; [exact (validated_field_in_range _ _ _ _ He D60 Fe) |].
  split; (split; [| assumption]).
  - apply (ConfigFacts.plain_field_ok "HOLD_EXTENSION_DEFAULT" 7). now rewrite Fd.
  - apply (ConfigFacts.plain_field_ok "HOLD_EXTENSION_HIGH_RISK" 30). now rewrite Fh.
Qed.

Lemma loaded_thresholds_in_range_witness :
  env_is_float unordered_env /\
  in_unit_interval (decimal 5 1).
Proof.
  assert (H : env_is_float unordered_env)
    by (split; [| split]; intros v E; apply ConfigFacts.parsed_inj in E; subst v;
        vm_compute; reflexivity).
  split; [exact H |].
  destruct (load_thresholds unordered_env) as [cfg | errs] eqn:E.
  - pose proof (loaded_thresholds_in_range unordered_env cfg H E) as (Ha & _).
    vm_compute in E. injection E as <-. exact Ha.
  - vm_compute in E. discriminate E.
Defined.



End ThresholdsFacts.
